(** * Label-Check backend: storage layout, models and the lease queue

    The backend of Label-Check is written against Sequelize: each table is
    declared twice, once by a migration ([queryInterface.createTable]) and
    once by a model ([Model.init]).  The declarations are embedded below as
    data, with the attribute options spelled as in the JavaScript sources,
    and are given meaning by a small relational store: [INSERT], [UPDATE]
    and [DELETE] that enforce what a column declares ([allowNull],
    [unique], [primaryKey], [ENUM], [references] and [onDelete]).  On top
    of the models come [Model.create], [update] and [destroy], and the
    operations of the lease queue, which the sources do not contain and
    which follow the specification. *)

From Stdlib Require Import ZArith String List Bool Lia.
From stdpp Require Import base option list gmap strings fin_maps.

Open Scope Z_scope.
Open Scope string_scope.
Open Scope list_scope.

(** ** Values and attribute declarations *)

(** A JavaScript value as it is bound to a column.  [Int n] is any
    integer; an [INTEGER] column holds 32 bits, and where a theorem takes
    an integer from the caller to store it, it says so. *)
Inductive value : Type :=
| Null
| Int (n : Z)
| Str (s : string)
| Bool (b : bool)
| Date (t : Z).

#[global] Instance value_eq_dec : EqDecision value.
Proof. solve_decision. Defined.

(** [DataTypes.*] / [Sequelize.*]. *)
Inductive data_type : Type :=
| INTEGER
| STRING
| TEXT
| BOOLEAN
| DATE
| ENUM (choices : list string)
| VIRTUAL.

(** The [onDelete] rule of a reference. *)
Inductive reference_action : Type :=
| CASCADE
| SET_NULL
| NO_ACTION.

(** What one attribute object can say.  [attr_notEmpty] is
    [validate: { notEmpty: true }]. *)
Record attribute : Type := {
  attr_type : data_type;
  attr_allowNull : bool;
  attr_autoIncrement : bool;
  attr_primaryKey : bool;
  attr_unique : bool;
  attr_defaultValue : option value;
  attr_references : option (string * string);
  attr_onDelete : reference_action;
  attr_notEmpty : bool
}.

(** The keys of an attribute object.  [addIndex] and [index] appear in the
    migrations; they are not column options of [createTable] and have no
    effect on the table. *)
Inductive attribute_option : Type :=
| allowNull (b : bool)
| autoIncrement (b : bool)
| primaryKey (b : bool)
| unique (b : bool)
| defaultValue (v : value)
| references (model key : string)
| onDelete (a : reference_action)
| validate_notEmpty (b : bool)
| addIndex (b : bool)
| index (b : bool).

(** [DataTypes.T] on its own: nullable, no constraint, no default. *)
Definition plain (t : data_type) : attribute :=
  {| attr_type := t; attr_allowNull := true; attr_autoIncrement := false;
     attr_primaryKey := false; attr_unique := false;
     attr_defaultValue := None; attr_references := None;
     attr_onDelete := NO_ACTION; attr_notEmpty := false |}.

Definition set_option (a : attribute) (o : attribute_option) : attribute :=
  match o with
  | allowNull b =>
      {| attr_type := attr_type a; attr_allowNull := b;
         attr_autoIncrement := attr_autoIncrement a;
         attr_primaryKey := attr_primaryKey a; attr_unique := attr_unique a;
         attr_defaultValue := attr_defaultValue a;
         attr_references := attr_references a;
         attr_onDelete := attr_onDelete a; attr_notEmpty := attr_notEmpty a |}
  | autoIncrement b =>
      {| attr_type := attr_type a; attr_allowNull := attr_allowNull a;
         attr_autoIncrement := b;
         attr_primaryKey := attr_primaryKey a; attr_unique := attr_unique a;
         attr_defaultValue := attr_defaultValue a;
         attr_references := attr_references a;
         attr_onDelete := attr_onDelete a; attr_notEmpty := attr_notEmpty a |}
  | primaryKey b =>
      {| attr_type := attr_type a; attr_allowNull := attr_allowNull a;
         attr_autoIncrement := attr_autoIncrement a;
         attr_primaryKey := b; attr_unique := attr_unique a;
         attr_defaultValue := attr_defaultValue a;
         attr_references := attr_references a;
         attr_onDelete := attr_onDelete a; attr_notEmpty := attr_notEmpty a |}
  | unique b =>
      {| attr_type := attr_type a; attr_allowNull := attr_allowNull a;
         attr_autoIncrement := attr_autoIncrement a;
         attr_primaryKey := attr_primaryKey a; attr_unique := b;
         attr_defaultValue := attr_defaultValue a;
         attr_references := attr_references a;
         attr_onDelete := attr_onDelete a; attr_notEmpty := attr_notEmpty a |}
  | defaultValue v =>
      {| attr_type := attr_type a; attr_allowNull := attr_allowNull a;
         attr_autoIncrement := attr_autoIncrement a;
         attr_primaryKey := attr_primaryKey a; attr_unique := attr_unique a;
         attr_defaultValue := Some v;
         attr_references := attr_references a;
         attr_onDelete := attr_onDelete a; attr_notEmpty := attr_notEmpty a |}
  | references m k =>
      {| attr_type := attr_type a; attr_allowNull := attr_allowNull a;
         attr_autoIncrement := attr_autoIncrement a;
         attr_primaryKey := attr_primaryKey a; attr_unique := attr_unique a;
         attr_defaultValue := attr_defaultValue a;
         attr_references := Some (m, k);
         attr_onDelete := attr_onDelete a; attr_notEmpty := attr_notEmpty a |}
  | onDelete act =>
      {| attr_type := attr_type a; attr_allowNull := attr_allowNull a;
         attr_autoIncrement := attr_autoIncrement a;
         attr_primaryKey := attr_primaryKey a; attr_unique := attr_unique a;
         attr_defaultValue := attr_defaultValue a;
         attr_references := attr_references a;
         attr_onDelete := act; attr_notEmpty := attr_notEmpty a |}
  | validate_notEmpty b =>
      {| attr_type := attr_type a; attr_allowNull := attr_allowNull a;
         attr_autoIncrement := attr_autoIncrement a;
         attr_primaryKey := attr_primaryKey a; attr_unique := attr_unique a;
         attr_defaultValue := attr_defaultValue a;
         attr_references := attr_references a;
         attr_onDelete := attr_onDelete a; attr_notEmpty := b |}
  | addIndex _ | index _ => a
  end.

(** [{ type: t, ...options }]. *)
Definition define (t : data_type) (opts : list attribute_option) : attribute :=
  fold_left set_option opts (plain t).

Abbreviation schema := (list (string * attribute)).

(** First declaration of a name, as a JavaScript object literal is read. *)
Fixpoint attribute_of (c : string) (cols : schema) : option attribute :=
  match cols with
  | [] => None
  | (c', a) :: cols' => if String.eqb c' c then Some a else attribute_of c cols'
  end.

(** ** The store *)

(** A stored row binds every column of its table; an absent binding reads
    as [Null]. *)
Abbreviation row := (gmap string value).

Definition get (r : row) (c : string) : value := default Null (r !! c).

Definition is_null (v : value) : bool :=
  match v with Null => true | _ => false end.

Definition value_eqb (v w : value) : bool := bool_decide (v = w).

Record table : Type := {
  columns : schema;
  rows : list row;
  nextId : Z
}.

(** Tables by name, in creation order. *)
Abbreviation database := (list (string * table)).

Inductive error : Type :=
| NoSuchTable (t : string)
| UnknownColumn (c : string)
| InvalidValue (c : string)
| NotNullViolation (c : string)
| UniqueConstraintError (c : string)
| ForeignKeyConstraintError (c : string)
| ValidationError (c : string)
| CascadeTooDeep.

Abbreviation result A := (error + A)%type.

Definition bind {A B : Type} (x : result A) (f : A -> result B) : result B :=
  match x with
  | inl e => inl e
  | inr a => f a
  end.

Notation "'let*' x ':=' e1 'in' e2" := (bind e1 (fun x => e2))
  (at level 10, x name, e1 at level 100, e2 at level 200).
Notation "e1 ;;; e2" := (bind e1 (fun _ => e2))
  (at level 100, e2 at level 200, right associativity).

Fixpoint find_table (db : database) (t : string) : option table :=
  match db with
  | [] => None
  | (t', tb) :: db' => if String.eqb t' t then Some tb else find_table db' t
  end.

Fixpoint set_table (db : database) (t : string) (tb : table) : database :=
  match db with
  | [] => []
  | (t', tb') :: db' =>
      if String.eqb t' t then (t', tb) :: db' else (t', tb') :: set_table db' t tb
  end.

Definition with_rows (tb : table) (rs : list row) : table :=
  {| columns := columns tb; rows := rs; nextId := nextId tb |}.

(** [queryInterface.createTable] and [dropTable].  The deletes a database
    runs on the rows of a table it drops are not part of [dropTable]:
    [down] is taken on a table without rows. *)
Definition createTable (t : string) (cols : schema) (db : database) : database :=
  match find_table db t with
  | Some _ => db
  | None => db ++ [(t, {| columns := cols; rows := []; nextId := 1 |})]
  end.

Definition dropTable (t : string) (db : database) : database :=
  List.filter (fun p => negb (String.eqb (fst p) t)) db.

(** ** Models *)

(** What [Model.init] receives: the attribute objects, the model name and
    the [beforeValidate] hook, if any.  A hook may throw. *)
Record Model : Type := {
  rawAttributes : schema;
  modelName : string;
  beforeValidate : option (row -> result row)
}.

(** [bcrypt], the library the [User] model hashes passwords with.
    [genSalt] draws a random salt: it stands here for any function of the
    number of rounds, and what is proved holds whatever it returns. *)
Record Bcrypt : Type := {
  genSalt : Z -> string;
  hash : string -> string -> string;
  compare : string -> string -> bool
}.

(** JavaScript truthiness, as [if (user.password)] reads it. *)
Definition truthy (v : value) : bool :=
  match v with
  | Null => false
  | Int n => negb (Z.eqb n 0)
  | Str s => negb (String.eqb s "")
  | Bool b => b
  | Date _ => true
  end.

(** ** The sources: migrations and models *)

(** The migration that creates [QueueItems]. *)
Module create_queue_item.
Definition QueueItems : schema :=
    [ ("id", define INTEGER
         [allowNull false; autoIncrement true; primaryKey true]);
      ("dataItemId", define INTEGER
         [allowNull false; unique true; references "DataItems" "id";
          onDelete CASCADE]);
      ("status", define (ENUM ["pending"; "leased"; "completed"])
         [allowNull false; defaultValue (Str "pending"); addIndex true]);
      ("leasedById", define INTEGER
         [allowNull true; references "Users" "id"; onDelete SET_NULL]);
      ("leasedAt", define DATE [allowNull true]);
      ("completedById", define INTEGER
         [allowNull true; references "Users" "id"; onDelete SET_NULL]);
      ("completedAt", define DATE [allowNull true]);
      ("createdAt", define DATE [allowNull false]);
      ("updatedAt", define DATE [allowNull false]) ].
Definition up (db : database) : database :=
  createTable "QueueItems" QueueItems db.
Definition down (db : database) : database := dropTable "QueueItems" db.
End create_queue_item.

(** [migrations/20250925194847-create-data-item-version.js]. *)
Module create_data_item_version.
Definition DataItemVersions : schema :=
    [ ("id", define INTEGER
         [allowNull false; autoIncrement true; primaryKey true]);
      ("dataItemId", define INTEGER
         [allowNull false; references "DataItems" "id"; onDelete CASCADE]);
      ("changedByUserId", define INTEGER
         [allowNull false; references "Users" "id"; onDelete CASCADE]);
      ("createdAt", define DATE [allowNull false]);
      ("updatedAt", define DATE [allowNull false]) ].
Definition up (db : database) : database :=
  createTable "DataItemVersions" DataItemVersions db.
Definition down (db : database) : database := dropTable "DataItemVersions" db.
End create_data_item_version.

(** [migrations/20250925194505-create-data-item.js]. *)
Module create_data_item.
Definition DataItems : schema :=
    [ ("id", define INTEGER
         [allowNull false; autoIncrement true; primaryKey true]);
      ("originalLine", define TEXT []);
      ("identifier", define STRING []);
      ("originalLabelText", define TEXT []);
      ("originalMacroText", define TEXT []);
      ("isComplete", define BOOLEAN [allowNull false; defaultValue (Bool false)]);
      ("accessionId", define STRING [index true]);
      ("imageIdentifier", define STRING []);
      ("createdAt", define DATE [allowNull false]);
      ("updatedAt", define DATE [allowNull false]) ].
Definition up (db : database) : database :=
  createTable "DataItems" DataItems db.
Definition down (db : database) : database := dropTable "DataItems" db.
End create_data_item.

(** The [QueueItem] model. *)
Module QueueItem.
Definition init : Model :=
  {| rawAttributes :=
       [ ("dataItemId", define INTEGER [allowNull false; unique true]);
         ("status", define (ENUM ["pending"; "leased"; "completed"])
            [allowNull false; defaultValue (Str "pending")]);
         ("leasedById", plain INTEGER);
         ("leasedAt", plain DATE);
         ("completedById", plain INTEGER);
         ("completedAt", plain DATE) ];
     modelName := "QueueItem";
     beforeValidate := None |}.
End QueueItem.

(** [models/dataitemversion.js]. *)
Module DataItemVersion.
Definition init : Model :=
  {| rawAttributes :=
       [ ("dataItemId", plain INTEGER);
         ("version", plain INTEGER);
         ("accessionId", plain STRING);
         ("stain", plain STRING);
         ("blockNumber", plain STRING);
         ("isComplete", plain BOOLEAN);
         ("changedByUserId", plain INTEGER) ];
     modelName := "DataItemVersion";
     beforeValidate := None |}.
End DataItemVersion.

(** The [DataItem] model. *)
Module DataItem.
Definition init : Model :=
  {| rawAttributes :=
       [ ("originalLine", plain TEXT);
         ("identifier", plain STRING);
         ("originalLabelText", plain TEXT);
         ("originalMacroText", plain TEXT);
         ("accessionId", plain STRING);
         ("stain", plain STRING);
         ("blockNumber", plain STRING);
         ("isComplete", plain BOOLEAN);
         ("imageIdentifier", plain STRING) ];
     modelName := "DataItem";
     beforeValidate := None |}.
End DataItem.

(** The [User] model, over the [bcrypt] it requires. *)
Module User.
Definition verifyPassword (bcrypt : Bcrypt) (this : row) (password : string) : bool :=
  match get this "passwordHash" with
  | Str h => compare bcrypt password h
  | _ => false
  end.

Definition hooks_beforeValidate (bcrypt : Bcrypt) (user : row) : result row :=
  if truthy (get user "password") then
    match get user "password" with
    | Str password =>
        let salt := genSalt bcrypt 10 in
        inr (<["passwordHash" := Str (hash bcrypt password salt)]> user)
    | _ => inl (ValidationError "password")
    end
  else inr user.

Definition attributes : schema :=
  [ ("username", define STRING
       [allowNull false; unique true; validate_notEmpty true]);
    ("password", define VIRTUAL
       [allowNull false; validate_notEmpty true]);
    ("passwordHash", define STRING [allowNull false]);
    ("correctionCount", define INTEGER
       [allowNull false; defaultValue (Int 0)]);
    ("isAdmin", define BOOLEAN
       [allowNull false; defaultValue (Bool false)]) ].

Definition init (bcrypt : Bcrypt) : Model :=
  {| rawAttributes := attributes;
     modelName := "User";
     beforeValidate := Some (hooks_beforeValidate bcrypt) |}.
End User.

(** ** Statements of the store *)

(** The migrations and models only declare; what a declaration means is
    decided by Sequelize and the database under it.  The store below
    takes every declaration at its word: a value must have the type of
    its column (for an [ENUM], be one of its values), a column with
    [allowNull: false] or a primary key refuses null, a [unique] column or
    a primary key refuses a value another row holds, a reference must
    point at an existing key, and a statement that breaks one of these
    fails and changes nothing.  Columns are checked in the order of their
    declaration and the first broken constraint is the error.

    Sequelize itself tests neither the type of a value nor the list of an
    [ENUM], and a database converts some values to the type of the column
    (a string of digits for an integer column): the store is that of
    values of the declared types, and what is proved of the values a
    caller gives is stated for such values.  SQLite has no [ENUM] type;
    the layout it gives such a column is [sqlite], below. *)

(** *** Constraints of one column *)

Definition has_type (ty : data_type) (v : value) : bool :=
  match v, ty with
  | Null, _ => true
  | Int _, INTEGER => true
  | Str _, STRING => true
  | Str _, TEXT => true
  | Str s, ENUM choices => bool_decide (s ∈ choices)
  | Bool _, BOOLEAN => true
  | Date _, DATE => true
  | _, _ => false
  end.

(** Some row of [rs] holds [v] in column [c]. *)
Definition holds (rs : list row) (c : string) (v : value) : bool :=
  existsb (fun r => value_eqb (get r c) v) rs.

Definition key_exists (db : database) (t k : string) (v : value) : bool :=
  match find_table db t with
  | Some tb => holds (rows tb) k v
  | None => false
  end.

(** The first constraint of column [c] that value [v] breaks, given the
    other rows of the table. *)
Definition check_column (db : database) (others : list row)
    (c : string) (a : attribute) (v : value) : result unit :=
  if negb (has_type (attr_type a) v) then inl (InvalidValue c)
  else if is_null v then
    if attr_allowNull a && negb (attr_primaryKey a) then inr tt
    else inl (NotNullViolation c)
  else if (attr_unique a || attr_primaryKey a) && holds others c v
    then inl (UniqueConstraintError c)
  else match attr_references a with
       | Some (t, k) =>
           if key_exists db t k v then inr tt
           else inl (ForeignKeyConstraintError c)
       | None => inr tt
       end.

Fixpoint check_row (db : database) (others : list row)
    (cols : schema) (r : row) : result unit :=
  match cols with
  | [] => inr tt
  | (c, a) :: cols' =>
      check_column db others c a (get r c) ;;; check_row db others cols' r
  end.

(** Every assigned column must be a column of the table. *)
Fixpoint check_known (cols : schema) (assigned : list (string * value))
    : result unit :=
  match assigned with
  | [] => inr tt
  | (c, _) :: assigned' =>
      match attribute_of c cols with
      | Some _ => check_known cols assigned'
      | None => inl (UnknownColumn c)
      end
  end.

Fixpoint assigned_value (c : string) (assigned : list (string * value))
    : option value :=
  match assigned with
  | [] => None
  | (c', v) :: assigned' =>
      if String.eqb c' c then Some v else assigned_value c assigned'
  end.

(** *** INSERT *)

(** The value a new row gets in a column: the assigned one, the next id
    of an auto-increment column, the column default, or [Null]. *)
Definition initial_value (a : attribute) (next : Z) (o : option value) : value :=
  match o with
  | Some v => if attr_autoIncrement a && is_null v then Int next else v
  | None =>
      if attr_autoIncrement a then Int next
      else default Null (attr_defaultValue a)
  end.

Fixpoint new_row (cols : schema) (next : Z)
    (assigned : list (string * value)) : row :=
  match cols with
  | [] => ∅
  | (c, a) :: cols' =>
      <[c := initial_value a next (assigned_value c assigned)]>
        (new_row cols' next assigned)
  end.

(** The counter of an auto-increment table never falls behind a stored
    id, as with SQLite's [AUTOINCREMENT]; a PostgreSQL sequence is not
    moved by an id the statement gives itself.  Nothing below is stated
    of the order of ids. *)
Definition bump (next : Z) (r : row) : Z :=
  match get r "id" with
  | Int k => Z.max next (k + 1)
  | _ => next
  end.

Definition table_insert (db : database) (t : string)
    (assigned : list (string * value)) : result (database * row) :=
  match find_table db t with
  | None => inl (NoSuchTable t)
  | Some tb =>
      check_known (columns tb) assigned ;;;
      let r := new_row (columns tb) (nextId tb) assigned in
      check_row db (rows tb) (columns tb) r ;;;
      inr (set_table db t
             {| columns := columns tb; rows := rows tb ++ [r];
                nextId := bump (nextId tb) r |}, r)
  end.

(** *** UPDATE ... WHERE id = k *)

Definition has_id (k : Z) (r : row) : bool := value_eqb (get r "id") (Int k).

Definition assign (r : row) (assigned : list (string * value)) : row :=
  fold_right (fun cv acc => <[fst cv := snd cv]> acc) r assigned.

Fixpoint replace_row (k : Z) (r' : row) (rs : list row) : list row :=
  match rs with
  | [] => []
  | r :: rs' => if has_id k r then r' :: rs' else r :: replace_row k r' rs'
  end.

Definition table_update (db : database) (t : string) (k : Z)
    (assigned : list (string * value)) : result database :=
  match find_table db t with
  | None => inl (NoSuchTable t)
  | Some tb =>
      check_known (columns tb) assigned ;;;
      match List.find (has_id k) (rows tb) with
      | None => inr db
      | Some r =>
          let r' := assign r assigned in
          check_row db (List.filter (fun x => negb (has_id k x)) (rows tb))
            (columns tb) r' ;;;
          inr (set_table db t
                 {| columns := columns tb;
                    rows := replace_row k r' (rows tb);
                    nextId := bump (nextId tb) r' |})
      end
  end.

(** *** DELETE and the [onDelete] rules *)

(** A reference to a table, found in the layout of a (child) table. *)
Record foreign_key : Type := {
  fk_table : string;
  fk_column : string;
  fk_key : string;
  fk_action : reference_action
}.

Fixpoint references_in (child t : string) (cols : schema) : list foreign_key :=
  match cols with
  | [] => []
  | (c, a) :: cols' =>
      match attr_references a with
      | Some (t', k) =>
          if String.eqb t' t
          then {| fk_table := child; fk_column := c; fk_key := k;
                  fk_action := attr_onDelete a |} :: references_in child t cols'
          else references_in child t cols'
      | None => references_in child t cols'
      end
  end.

(** Every declared reference to table [t]. *)
Definition foreign_keys (db : database) (t : string) : list foreign_key :=
  flat_map (fun p => references_in (fst p) t (columns (snd p))) db.

(** Row [r] points, through column [c], at key [k] of a deleted row. *)
Definition refers_to (dead : list row) (c k : string) (r : row) : bool :=
  negb (is_null (get r c)) && holds dead k (get r c).

Definition without (dead : list row) (rs : list row) : list row :=
  List.filter (fun r => negb (bool_decide (r ∈ dead))) rs.

Definition set_null (dead : list row) (c k : string) (r : row) : row :=
  if refers_to dead c k r then <[c := Null]> r else r.

(** The [onDelete] rule of one reference, for the deleted rows [dead];
    [cascade] deletes rows of the referring table. *)
Definition on_delete
    (cascade : string -> list row -> database -> result database)
    (dead : list row) (db : database) (fk : foreign_key) : result database :=
  match find_table db (fk_table fk) with
  | None => inr db
  | Some child =>
      let hit := refers_to dead (fk_column fk) (fk_key fk) in
      match fk_action fk with
      | CASCADE => cascade (fk_table fk) (List.filter hit (rows child)) db
      | SET_NULL =>
          inr (set_table db (fk_table fk)
                 (with_rows child
                    (map (set_null dead (fk_column fk) (fk_key fk))
                       (rows child))))
      | NO_ACTION =>
          if existsb hit (rows child)
          then inl (ForeignKeyConstraintError (fk_column fk))
          else inr db
      end
  end.

(** Deletes the rows [dead] of table [t] and applies the [onDelete] rule
    of each reference to [t]; a cascade deletes the referring rows the
    same way.  [fuel] bounds the depth of the cascade. *)
Fixpoint delete_rows (fuel : nat) (t : string) (dead : list row)
    (db : database) : result database :=
  match fuel with
  | O => inl CascadeTooDeep
  | S fuel' =>
      match find_table db t with
      | None => inl (NoSuchTable t)
      | Some tb =>
          fold_left
            (fun acc fk =>
               let* db' := acc in on_delete (delete_rows fuel') dead db' fk)
            (foreign_keys db t)
            (inr (set_table db t (with_rows tb (without dead (rows tb)))))
      end
  end.

(** [DELETE FROM t WHERE id = k].  The cascade may go as deep as there
    are tables. *)
Definition table_delete (db : database) (t : string) (k : Z) : result database :=
  match find_table db t with
  | None => inl (NoSuchTable t)
  | Some tb =>
      delete_rows (S (length db)) t (List.filter (has_id k) (rows tb)) db
  end.

(** ** Model operations *)

(** Sequelize adds [id], [createdAt] and [updatedAt] to what [init]
    declares. *)
Definition with_generated (attrs : schema) : schema :=
  ("id", define INTEGER [allowNull false; primaryKey true; autoIncrement true])
  :: attrs
  ++ [ ("createdAt", define DATE [allowNull false]);
       ("updatedAt", define DATE [allowNull false]) ].

Definition fields (m : Model) : schema := with_generated (rawAttributes m).

Definition is_virtual (a : attribute) : bool :=
  match attr_type a with VIRTUAL => true | _ => false end.

(** The layout [sequelize.sync] gives the table of a model: its fields
    but the virtual ones.  The references [sync] would add from
    [associate] are not part of it: what depends on a reference is
    settled on the layout of the migrations, which declare them. *)
Definition layout (attrs : schema) : schema :=
  List.filter (fun ca => negb (is_virtual (snd ca))) (with_generated attrs).

Definition sync (m : Model) : schema := layout (rawAttributes m).

(** Sequelize names the table by the plural of the model name. *)
Definition tableName (m : Model) : string := modelName m ++ "s".

Fixpoint with_defaults (attrs : schema) (values : row) : row :=
  match attrs with
  | [] => values
  | (c, a) :: attrs' =>
      let values' := with_defaults attrs' values in
      match attr_defaultValue a with
      | Some d =>
          match values' !! c with
          | None => <[c := d]> values'
          | Some _ => values'
          end
      | None => values'
      end
  end.

(** [Model.build]: the given values, a null [id] unless one is given, the
    declared defaults, and both timestamps. *)
Definition build (m : Model) (values : row) (now : Z) : row :=
  <["createdAt" := Date now]>
    (<["updatedAt" := Date now]>
       (with_defaults (rawAttributes m)
          (match values !! "id" with
           | None => <["id" := Null]> values
           | Some _ => values
           end))).

(** JavaScript's [\s], which [notEmpty] tests a string against.  A
    string is held as its UTF-8 bytes.  The white space of one byte: tab,
    line feed, vertical tab, form feed, carriage return and space. *)
Definition is_space (ch : Ascii.ascii) : bool :=
  let b := Ascii.N_of_ascii ch in
  ((9 <=? b) && (b <=? 13) || (b =? 32))%N.

(** The white space of two bytes, U+00A0, and of three: U+1680, U+2000 to
    U+200A, U+2028, U+2029, U+202F, U+205F, U+3000 and U+FEFF. *)
Definition is_space2 (ch1 ch2 : Ascii.ascii) : bool :=
  ((Ascii.N_of_ascii ch1 =? 194) && (Ascii.N_of_ascii ch2 =? 160))%N.

Definition is_space3 (ch1 ch2 ch3 : Ascii.ascii) : bool :=
  let b1 := Ascii.N_of_ascii ch1 in
  let b2 := Ascii.N_of_ascii ch2 in
  let b3 := Ascii.N_of_ascii ch3 in
  ((b1 =? 225) && (b2 =? 154) && (b3 =? 128)
   || (b1 =? 226) && (b2 =? 128)
      && ((128 <=? b3) && (b3 <=? 138) || (b3 =? 168) || (b3 =? 169)
          || (b3 =? 175))
   || (b1 =? 226) && (b2 =? 129) && (b3 =? 159)
   || (b1 =? 227) && (b2 =? 128) && (b3 =? 128)
   || (b1 =? 239) && (b2 =? 187) && (b3 =? 191))%N.

(** [/^\s*$/]: the string is made of white space only. *)
Fixpoint blank (s : string) : bool :=
  match s with
  | EmptyString => true
  | String ch1 s1 =>
      if is_space ch1 then blank s1
      else
        match s1 with
        | EmptyString => false
        | String ch2 s2 =>
            if is_space2 ch1 ch2 then blank s2
            else
              match s2 with
              | EmptyString => false
              | String ch3 s3 => is_space3 ch1 ch2 ch3 && blank s3
              end
        end
  end.

Definition validate_attribute (c : string) (a : attribute)
    (v : option value) : result unit :=
  match v with
  | None | Some Null =>
      if attr_allowNull a then inr tt else inl (ValidationError c)
  | Some (Str s) =>
      if attr_notEmpty a && blank s then inl (ValidationError c) else inr tt
  | Some _ => inr tt
  end.

(** Validation of a built instance: every declared attribute. *)
Fixpoint validate (attrs : schema) (dataValues : row) : result unit :=
  match attrs with
  | [] => inr tt
  | (c, a) :: attrs' =>
      validate_attribute c a (dataValues !! c) ;;; validate attrs' dataValues
  end.

(** Validation on update: the attributes that change. *)
Fixpoint validate_changed (attrs : schema) (values : row) : result unit :=
  match attrs with
  | [] => inr tt
  | (c, a) :: attrs' =>
      match values !! c with
      | None => validate_changed attrs' values
      | Some v =>
          validate_attribute c a (Some v) ;;; validate_changed attrs' values
      end
  end.

(** The columns an [INSERT] or [UPDATE] names: the fields that have a
    value and are not virtual. *)
Fixpoint mapValueFieldNames (dataValues : row) (fs : schema)
    : list (string * value) :=
  match fs with
  | [] => []
  | (c, a) :: fs' =>
      match dataValues !! c with
      | Some v =>
          if is_virtual a then mapValueFieldNames dataValues fs'
          else (c, v) :: mapValueFieldNames dataValues fs'
      | None => mapValueFieldNames dataValues fs'
      end
  end.

Definition run_hook (h : option (row -> result row)) (r : row) : result row :=
  match h with
  | Some f => f r
  | None => inr r
  end.

(** [Model.create(values)]: the hook, the validation, and an [INSERT]
    that names the fields that have a value.  (On PostgreSQL Sequelize
    also asks the new row back with every attribute of the model, which
    only a table with all of them answers.) *)
Definition create (m : Model) (db : database) (values : row) (now : Z)
    : result (database * row) :=
  let* dataValues := run_hook (beforeValidate m) (build m values now) in
  validate (rawAttributes m) dataValues ;;;
  table_insert db (tableName m) (mapValueFieldNames dataValues (fields m)).

(** [instance.update(values)] on the instance with primary key [k]: the
    hook runs and what it leaves is validated, and the [UPDATE] names the
    fields that were given, and [updatedAt]. *)
Definition update (m : Model) (db : database) (k : Z) (values : row) (now : Z)
    : result database :=
  let* dataValues := run_hook (beforeValidate m) values in
  validate_changed (rawAttributes m) dataValues ;;;
  table_update db (tableName m) k
    (mapValueFieldNames (<["updatedAt" := Date now]> values) (fields m)).

(** [instance.destroy()]. *)
Definition destroy (m : Model) (db : database) (k : Z) : result database :=
  table_delete db (tableName m) k.

(** The rows stored for a model, which [Model.findAll()] reads, and
    lookups by column. *)
Definition findAll (m : Model) (db : database) : list row :=
  match find_table db (tableName m) with
  | Some tb => rows tb
  | None => []
  end.

Definition findOne (m : Model) (db : database) (c : string) (v : value)
    : option row :=
  List.find (fun r => value_eqb (get r c) v) (findAll m db).

(** ** The two layouts *)

(** The tables as the migrations create them, each column with the type
    it is declared with (on SQLite an [ENUM] column is not: see [sqlite]
    below).  No migration for [Users] is among the sources; its table has
    the layout of the [User] model. *)
Definition migrated : database :=
  create_queue_item.up
    (create_data_item_version.up
       (create_data_item.up
          (createTable "Users" (layout User.attributes) []))).

(** The tables as [sequelize.sync({ force: true })] creates them from the
    models, which is what the tests run on. *)
Definition synced : database :=
  createTable "QueueItems" (sync QueueItem.init)
    (createTable "DataItemVersions" (sync DataItemVersion.init)
       (createTable "DataItems" (sync DataItem.init)
          (createTable "Users" (layout User.attributes) []))).

(** * Well-formed stores and reachable states *)

(** The layout of a database: its tables' names and columns. *)
Definition layout_of (db : database) : list (string * schema) :=
  map (fun p => (fst p, columns (snd p))) db.

Definition column_values (c : string) (rs : list row) : list value :=
  map (fun r => get r c) rs.

Definition nonnull (vs : list value) : list value :=
  List.filter (fun v => negb (is_null v)) vs.

(** A column that some deletion may set to null. *)
Definition nullable_by_delete (a : attribute) : bool :=
  match attr_references a, attr_onDelete a with
  | Some _, SET_NULL => true
  | _, _ => false
  end.

(** No declaration of column [c] is a [SET NULL] reference. *)
Definition pinned (cols : schema) (c : string) : bool :=
  forallb (fun ca => negb (String.eqb (fst ca) c && nullable_by_delete (snd ca)))
    cols.

(** The table has a primary key named [id]. *)
Definition keyed (cols : schema) : bool :=
  match attribute_of "id" cols with
  | Some a => attr_primaryKey a
  | None => false
  end.

Record table_ok (tb : table) : Prop := {
  ok_keyed : keyed (columns tb) = true;
  ok_typed : forall c a r,
    In (c, a) (columns tb) -> In r (rows tb) ->
    has_type (attr_type a) (get r c) = true;
  ok_not_null : forall c a r,
    In (c, a) (columns tb) -> In r (rows tb) ->
    attr_allowNull a = false -> pinned (columns tb) c = true ->
    get r c <> Null;
  ok_unique : forall c a,
    In (c, a) (columns tb) -> attr_unique a || attr_primaryKey a = true ->
    NoDup (nonnull (column_values c (rows tb)));
  ok_next : forall r k,
    In r (rows tb) -> get r "id" = Int k -> k < nextId tb
}.

Definition db_ok (db : database) : Prop :=
  NoDup (map fst db) /\ forall t tb, In (t, tb) db -> table_ok tb.

(** Row [r'] is row [r] with some [SET NULL] references set to null. *)
Definition nulled (cols : schema) (r r' : row) : Prop :=
  forall c, get r' c = get r c \/ (get r' c = Null /\ pinned cols c = false).

Inductive shrunk (cols : schema) : list row -> list row -> Prop :=
| shrunk_nil : shrunk cols [] []
| shrunk_drop r rs rs' : shrunk cols rs rs' -> shrunk cols (r :: rs) rs'
| shrunk_keep r r' rs rs' :
    nulled cols r r' -> shrunk cols rs rs' -> shrunk cols (r :: rs) (r' :: rs').

Definition table_shrunk (tb tb' : table) : Prop :=
  columns tb' = columns tb /\ nextId tb' = nextId tb
  /\ shrunk (columns tb) (rows tb) (rows tb').

Definition db_shrunk (db db' : database) : Prop :=
  Forall2 (fun p p' => fst p' = fst p /\ table_shrunk (snd p) (snd p')) db db'.

(** One statement run against the store. *)
Inductive step : database -> database -> Prop :=
| step_insert db t assigned db' r :
    table_insert db t assigned = inr (db', r) -> step db db'
| step_update db t k assigned db' :
    table_update db t k assigned = inr db' -> step db db'
| step_delete db t k db' :
    table_delete db t k = inr db' -> step db db'.

Inductive reachable (init : database) : database -> Prop :=
| reachable_init : reachable init init
| reachable_step db db' : reachable init db -> step db db' -> reachable init db'.

(** The store was set up by the migrations or by [sync]. *)
Definition starts (init : database) : Prop := init = migrated \/ init = synced.

(** The default a missing attribute gets. *)
Fixpoint declared_default (c : string) (attrs : schema) : option value :=
  match attrs with
  | [] => None
  | (c', a) :: attrs' =>
      match declared_default c attrs' with
      | Some d => Some d
      | None => if String.eqb c' c then attr_defaultValue a else None
      end
  end.

(** The four tables of the migrated layout, with their rows and counters. *)
Definition migrated_tables (users items versions leases : list row * Z)
    : database :=
  [ ("Users",
     {| columns := layout User.attributes;
        rows := fst users; nextId := snd users |});
    ("DataItems",
     {| columns := create_data_item.DataItems;
        rows := fst items; nextId := snd items |});
    ("DataItemVersions",
     {| columns := create_data_item_version.DataItemVersions;
        rows := fst versions; nextId := snd versions |});
    ("QueueItems",
     {| columns := create_queue_item.QueueItems;
        rows := fst leases; nextId := snd leases |}) ].

(** * The lease and version records *)

(** The three values of [ENUM('pending', 'leased', 'completed')]. *)
Definition statuses : list value :=
  [Str "pending"; Str "leased"; Str "completed"].

(** A statement that fails leaves the store as it was. *)
Definition commit {A : Type} (db : database) (x : result (database * A))
    : database * result A :=
  match x with
  | inr (db', a) => (db', inr a)
  | inl e => (db, inl e)
  end.

(** The rejection of a second lease record for a work item. *)
Definition DuplicateLease : error := UniqueConstraintError "dataItemId".

(** [QueueItem.create({ dataItemId: dataItem.id })], as the ingestion of a
    work item and the tests call it. *)
Definition CreateForItem (db : database) (workItem : Z) (now : Z)
    : database * result row :=
  commit db (create QueueItem.init db {[ "dataItemId" := Int workItem ]} now).

(** What that [create] sends to the table. *)
Definition lease_insert (d now : Z) : list (string * value) :=
  [ ("id", Null); ("dataItemId", Int d); ("status", Str "pending");
    ("createdAt", Date now); ("updatedAt", Date now) ].

(** A queue item without its references to user [k]. *)
Definition forget_user (k : Z) (q : row) : row :=
  let q' :=
    if value_eqb (get q "leasedById") (Int k)
    then <["leasedById" := Null]> q else q in
  if value_eqb (get q' "completedById") (Int k)
  then <["completedById" := Null]> q' else q'.

(** The corrected fields of a version record, and its sequence number. *)
Definition version_fields : list string :=
  ["version"; "accessionId"; "stain"; "blockNumber"; "isComplete"].

(** What [DataItemVersion.create({ dataItemId, version, changedByUserId })]
    sends to the table. *)
Definition version_insert (d n u now : Z) : list (string * value) :=
  [ ("id", Null); ("dataItemId", Int d); ("version", Int n);
    ("changedByUserId", Int u); ("createdAt", Date now);
    ("updatedAt", Date now) ].

(** * The lease queue *)

(** The identity the request layer resolves: a user id and the admin
    flag. *)
Record identity : Type := {
  user_id : Z;
  isAdmin : bool
}.

(** The error kinds of the lease queue. *)
Inductive lease_error : Type :=
| NoWorkAvailable
| NotLeased
| LeaseOwnershipMismatch
| StorageFailure (e : error).

Definition id_of (r : row) : Z :=
  match get r "id" with
  | Int k => k
  | _ => 0
  end.

Definition item_of (q : row) : Z :=
  match get q "dataItemId" with
  | Int d => d
  | _ => 0
  end.

Definition has_status (s : string) (q : row) : bool :=
  value_eqb (get q "status") (Str s).

(** The lease record of a work item. *)
Definition lease_of (db : database) (workItemId : Z) : option row :=
  findOne QueueItem.init db "dataItemId" (Int workItemId).

(** The caller holds the lease, or is an admin. *)
Definition may_act (user : identity) (q : row) : bool :=
  isAdmin user || value_eqb (get q "leasedById") (Int (user_id user)).

(** The pending record of the least work item id. *)
Fixpoint first_pending (rs : list row) (best : option row) : option row :=
  match rs with
  | [] => best
  | q :: rs' =>
      if has_status "pending" q then
        match best with
        | Some b =>
            if Z.ltb (item_of q) (item_of b)
            then first_pending rs' (Some q)
            else first_pending rs' best
        | None => first_pending rs' (Some q)
        end
      else first_pending rs' best
  end.

(** Modelled from the spec: [AcquireNext(requestingUser)] of the lease
    queue (the queue routes are not among the sources).  It finds the
    pending lease record of the least work item id and makes it leased,
    with the leasing user and the lease time; it returns the work item and
    its lease record, or [NoWorkAvailable]. *)
Definition AcquireNext (db : database) (user : identity) (now : Z)
    : database * (lease_error + (row * row)) :=
  match first_pending (findAll QueueItem.init db) None with
  | None => (db, inl NoWorkAvailable)
  | Some q =>
      match update QueueItem.init db (id_of q)
              (<["status" := Str "leased"]>
                 (<["leasedById" := Int (user_id user)]>
                    {[ "leasedAt" := Date now ]})) now with
      | inr db' =>
          (db', inr (default ∅ (findOne DataItem.init db' "id" (Int (item_of q))),
                     default q (lease_of db' (item_of q))))
      | inl e => (db, inl (StorageFailure e))
      end
  end.

(** Modelled from the spec: [Release(workItemId, requestingUser)].  It
    returns a leased item to pending, clearing the leasing user and time,
    if the caller holds the lease or is an admin; it fails with
    [NotLeased] if the status is not leased and with
    [LeaseOwnershipMismatch] if the caller may not act. *)
Definition Release (db : database) (workItemId : Z) (user : identity) (now : Z)
    : database * (lease_error + unit) :=
  match lease_of db workItemId with
  | None => (db, inl NotLeased)
  | Some q =>
      if negb (has_status "leased" q) then (db, inl NotLeased)
      else if negb (may_act user q) then (db, inl LeaseOwnershipMismatch)
      else
        match update QueueItem.init db (id_of q)
                (<["status" := Str "pending"]>
                   (<["leasedById" := Null]> {[ "leasedAt" := Null ]})) now with
        | inr db' => (db', inr tt)
        | inl e => (db, inl (StorageFailure e))
        end
  end.

Definition version_of (v : row) : Z :=
  match get v "version" with
  | Int n => n
  | _ => 0
  end.

(** The greatest sequence number recorded for a work item, 0 if none. *)
Definition last_sequence (db : database) (workItemId : Z) : Z :=
  fold_right Z.max 0
    (map version_of
       (List.filter (fun v => value_eqb (get v "dataItemId") (Int workItemId))
          (findAll DataItemVersion.init db))).

(** The corrected fields a version records. *)
Definition corrected (fields : row) : row :=
  list_to_map
    (omap (fun c => match fields !! c with
                    | Some v => Some (c, v)
                    | None => None
                    end)
       ["accessionId"; "stain"; "blockNumber"; "isComplete"]).

(** Modelled from the spec: [RecordVersion(workItem, actingUser, fields)]
    of the audit trail.  It appends a version record with the next
    sequence number of the work item, previous maximum + 1. *)
Definition RecordVersion (db : database) (workItemId : Z) (user : identity)
    (fields : row) (now : Z) : result (database * row) :=
  create DataItemVersion.init db
    (<["dataItemId" := Int workItemId]>
       (<["version" := Int (last_sequence db workItemId + 1)]>
          (<["changedByUserId" := Int (user_id user)]> (corrected fields))))
    now.

(** Modelled from the spec: [Complete(workItemId, requestingUser,
    correctedFields)].  Valid only from leased and only for the lease
    holder or an admin; as one unit it records a version, makes the lease
    record completed with the completing user and time, and returns the
    version record to the request layer.  It fails with [NotLeased] if the
    status is not leased, then with [LeaseOwnershipMismatch]; on any
    failure the store is as before. *)
Definition Complete (db : database) (workItemId : Z) (user : identity)
    (fields : row) (now : Z) : database * (lease_error + row) :=
  match lease_of db workItemId with
  | None => (db, inl NotLeased)
  | Some q =>
      if negb (has_status "leased" q) then (db, inl NotLeased)
      else if negb (may_act user q) then (db, inl LeaseOwnershipMismatch)
      else
        match RecordVersion db workItemId user fields now with
        | inl e => (db, inl (StorageFailure e))
        | inr (db1, v) =>
            match update QueueItem.init db1 (id_of q)
                    (<["status" := Str "completed"]>
                       (<["completedById" := Int (user_id user)]>
                          {[ "completedAt" := Date now ]})) now with
            | inr db2 => (db2, inr v)
            | inl e => (db, inl (StorageFailure e))
            end
        end
  end.

(** The operations of the lease queue, and the store each leaves. *)
Inductive operation : Type :=
| op_AcquireNext (user : identity) (now : Z)
| op_Release (workItemId : Z) (user : identity) (now : Z)
| op_Complete (workItemId : Z) (user : identity) (fields : row) (now : Z)
| op_CreateForItem (workItemId : Z) (now : Z).

Definition run (op : operation) (db : database) : database :=
  match op with
  | op_AcquireNext user now => fst (AcquireNext db user now)
  | op_Release workItemId user now => fst (Release db workItemId user now)
  | op_Complete workItemId user fields now =>
      fst (Complete db workItemId user fields now)
  | op_CreateForItem workItemId now => fst (CreateForItem db workItemId now)
  end.

(** * The scenario of the tests and of the specification *)

(** A [bcrypt] to run examples with: the hash marks the password, the
    comparison hashes again. *)
Definition marking_bcrypt : Bcrypt :=
  {| genSalt := fun _ => "$2b$10$";
     hash := fun password salt => ("$" ++ password)%string;
     compare := fun password h => String.eqb h ("$" ++ password)%string |}.

Definition store_after {A : Type} (x : result (database * A)) : database :=
  match x with
  | inr (db, _) => db
  | inl _ => []
  end.

Definition created {A : Type} (x : result (database * A)) : option A :=
  match x with
  | inr (_, a) => Some a
  | inl _ => None
  end.

Definition succeeded {A : Type} (x : result A) : bool :=
  match x with
  | inr _ => true
  | inl _ => false
  end.

Definition answer {E A : Type} (x : E + A) : option A :=
  match x with
  | inr a => Some a
  | inl _ => None
  end.

(** The store of the tests' scenario: a user, a data item, and the queue
    item of that data item, leased by that user. *)
Definition with_user : database :=
  store_after
    (create (User.init marking_bcrypt) migrated
       (<["username" := Str "assoc_user"]> {[ "password" := Str "password123" ]})
       1).

Definition with_item : database :=
  store_after
    (create DataItem.init with_user {[ "originalLine" := Str "test line" ]} 2).

Definition with_lease : database :=
  store_after
    (create QueueItem.init with_item
       (<["dataItemId" := Int 1]>
          (<["status" := Str "leased"]>
             (<["leasedById" := Int 1]> {[ "leasedAt" := Date 3 ]})))
       3).

Definition user_deleted : database :=
  match destroy (User.init marking_bcrypt) with_lease 1 with
  | inr db => db
  | inl _ => []
  end.

(** The tests' scenario again, in the migrated layout: the version a user
    recorded for a data item. *)
Definition with_version : database :=
  store_after
    (create DataItemVersion.init with_item
       (<["dataItemId" := Int 1]> {[ "changedByUserId" := Int 1 ]}) 3).

Definition version_author_deleted : database :=
  match destroy (User.init marking_bcrypt) with_version 1 with
  | inr db => db
  | inl _ => []
  end.

(** The version record the tests create. *)
Definition tested_version : row :=
  <["dataItemId" := Int 1]>
    (<["changedByUserId" := Int 1]>
       (<["version" := Int 1]> {[ "accessionId" := Str "ABC-123" ]})).

(** The tests' scenario in the layout of [sync]. *)
Definition synced_user : database :=
  store_after
    (create (User.init marking_bcrypt) synced
       (<["username" := Str "assoc_user"]> {[ "password" := Str "password123" ]})
       1).

Definition synced_item : database :=
  store_after
    (create DataItem.init synced_user {[ "originalLine" := Str "test line" ]} 2).

Definition synced_version : database :=
  store_after (create DataItemVersion.init synced_item tested_version 3).

Definition synced_version_again : database :=
  store_after (create DataItemVersion.init synced_version tested_version 4).

(** The lease of [with_lease] and the version of [with_version]. *)
Definition tested_lease : row := hd ∅ (findAll QueueItem.init with_lease).

Definition stored_version : row :=
  hd ∅ (findAll DataItemVersion.init with_version).

(** The store and the record after [CreateForItem] for data item 1. *)
Definition with_pending : database :=
  store_after (create QueueItem.init with_item {[ "dataItemId" := Int 1 ]} 3).

Definition pending_lease : row :=
  default ∅
    (created (create QueueItem.init with_item {[ "dataItemId" := Int 1 ]} 3)).

(** The user of [with_user], as [create] returned it. *)
Definition tested_user : row :=
  default ∅
    (created
       (create (User.init marking_bcrypt) migrated
          (<["username" := Str "assoc_user"]>
             {[ "password" := Str "password123" ]}) 1)).

Definition reviewer : identity := {| user_id := 1; isAdmin := false |}.

Definition bystander : identity := {| user_id := 2; isAdmin := false |}.

Definition supervisor : identity := {| user_id := 3; isAdmin := true |}.

Definition correction : row := {[ "accessionId" := Str "ABC-123" ]}.

(** Work item 1 gets its lease record, the reviewer acquires it, and
    completes it. *)
Definition synced_pending : database := run (op_CreateForItem 1 3) synced_item.

Definition synced_leased : database :=
  run (op_AcquireNext reviewer 4) synced_pending.

Definition synced_completed : database :=
  run (op_Complete 1 reviewer correction 5) synced_leased.

Definition completed_lease : row := default ∅ (lease_of synced_completed 1).

(** * What the models are given *)

(** What an attribute with [allowNull: false] and [notEmpty: true]
    refuses: no value, [null], or a string of white space. *)
Definition unusable (v : option value) : bool :=
  match v with
  | None | Some Null => true
  | Some (Str s) => blank s
  | Some _ => false
  end.

(** No value, [null], or a string. *)
Definition text (v : option value) : bool :=
  match v with
  | None | Some Null | Some (Str _) => true
  | Some _ => false
  end.

(** The text attributes of a data item that the model and the migration
    both declare. *)
Definition label_texts : list string :=
  [ "originalLine"; "identifier"; "originalLabelText"; "originalMacroText";
    "accessionId"; "imageIdentifier" ].

(** Every value given for a column has the type the column declares. *)
Definition typed_values (cols : schema) (values : row) : bool :=
  forallb
    (fun ca =>
       match values !! fst ca with
       | Some v => has_type (attr_type (snd ca)) v
       | None => true
       end)
    cols.

(** * The layouts on SQLite *)

(** SQLite has no [ENUM] type: there Sequelize declares an [ENUM] column
    [TEXT], and the column takes any string. *)
Definition sqlite_type (ty : data_type) : data_type :=
  match ty with
  | ENUM _ => TEXT
  | _ => ty
  end.

Definition with_type (a : attribute) (ty : data_type) : attribute :=
  {| attr_type := ty; attr_allowNull := attr_allowNull a;
     attr_autoIncrement := attr_autoIncrement a;
     attr_primaryKey := attr_primaryKey a; attr_unique := attr_unique a;
     attr_defaultValue := attr_defaultValue a;
     attr_references := attr_references a;
     attr_onDelete := attr_onDelete a; attr_notEmpty := attr_notEmpty a |}.

Definition on_sqlite (cols : schema) : schema :=
  map (fun ca => (fst ca, with_type (snd ca) (sqlite_type (attr_type (snd ca)))))
    cols.

(** The tables of [db] as SQLite has them. *)
Definition sqlite (db : database) : database :=
  map (fun p => (fst p, {| columns := on_sqlite (columns (snd p));
                           rows := rows (snd p);
                           nextId := nextId (snd p) |})) db.

(** The store was set up on SQLite, by the migrations or by [sync]. *)
Definition starts_on_sqlite (init : database) : Prop :=
  init = sqlite migrated \/ init = sqlite synced.

(** The tests' user and data item on SQLite, and a queue item created
    there with a status that is none of the three. *)
Definition sqlite_user : database :=
  store_after
    (create (User.init marking_bcrypt) (sqlite migrated)
       (<["username" := Str "assoc_user"]> {[ "password" := Str "password123" ]})
       1).

Definition sqlite_item : database :=
  store_after
    (create DataItem.init sqlite_user {[ "originalLine" := Str "test line" ]} 2).

Definition sqlite_done : database :=
  store_after
    (create QueueItem.init sqlite_item
       (<["status" := Str "done"]> {[ "dataItemId" := Int 1 ]}) 3).

(** The same status, given by an update to a queue item created pending. *)
Definition sqlite_pending : database :=
  store_after (create QueueItem.init sqlite_item {[ "dataItemId" := Int 1 ]} 3).

Definition sqlite_updated : database :=
  match update QueueItem.init sqlite_pending 1 {[ "status" := Str "done" ]} 4 with
  | inr db => db
  | inl _ => []
  end.

(** * Invariants of the store *)

(** ** Tables and layouts *)

Lemma find_table_In db t tb : find_table db t = Some tb -> In (t, tb) db.
Proof.
  induction db as [|[t' tb'] db IH]; simpl; [discriminate|].
  destruct (String.eqb_spec t' t) as [->|Hne].
  - intros [= ->]. now left.
  - intros H. right. auto.
Qed.

Lemma In_find_table db t tb :
  NoDup (map fst db) -> In (t, tb) db -> find_table db t = Some tb.
Proof.
  induction db as [|[t' tb'] db IH]; simpl; [tauto|].
  intros Hnd [Heq|Hin].
  - injection Heq as -> ->. now rewrite String.eqb_refl.
  - inversion Hnd as [|? ? Hnotin Hnd']; subst.
    destruct (String.eqb_spec t' t) as [->|Hne]; [|auto].
    exfalso. apply Hnotin. apply list_elem_of_In.
    apply (in_map fst) in Hin. exact Hin.
Qed.

Lemma find_table_set_eq db t tb tb' :
  find_table db t = Some tb -> find_table (set_table db t tb') t = Some tb'.
Proof.
  induction db as [|[t0 tb0] db IH]; simpl; [discriminate|].
  destruct (String.eqb_spec t0 t) as [->|Hne]; simpl.
  - now rewrite String.eqb_refl.
  - intros H. destruct (String.eqb_spec t0 t); [contradiction|auto].
Qed.

Lemma find_table_set_ne db t t' tb' :
  t <> t' -> find_table (set_table db t tb') t' = find_table db t'.
Proof.
  intros Hne. induction db as [|[t0 tb0] db IH]; simpl; [reflexivity|].
  destruct (String.eqb_spec t0 t) as [->|Hne0]; simpl.
  - destruct (String.eqb_spec t t'); [contradiction|reflexivity].
  - now rewrite IH.
Qed.

Lemma names_set_table db t tb : map fst (set_table db t tb) = map fst db.
Proof.
  induction db as [|[t0 tb0] db IH]; simpl; [reflexivity|].
  destruct (String.eqb t0 t); simpl; [reflexivity|now rewrite IH].
Qed.

Lemma layout_set_table db t tb tb' :
  find_table db t = Some tb -> columns tb' = columns tb ->
  layout_of (set_table db t tb') = layout_of db.
Proof.
  intros Hfind Hcols. induction db as [|[t0 tb0] db IH]; simpl in *; [reflexivity|].
  destruct (String.eqb_spec t0 t) as [->|Hne]; simpl.
  - injection Hfind as ->. unfold layout_of. simpl. now rewrite Hcols.
  - unfold layout_of in *. simpl. now rewrite IH.
Qed.

Lemma In_set_table db t tb p :
  In p (set_table db t tb) -> In p db \/ p = (t, tb).
Proof.
  induction db as [|[t0 tb0] db IH]; simpl; [tauto|].
  destruct (String.eqb_spec t0 t) as [->|Hne]; simpl.
  - intros [<-|H]; auto.
  - intros [<-|H]; auto. destruct (IH H); auto.
Qed.

Lemma names_layout db db' :
  layout_of db' = layout_of db -> map fst db' = map fst db.
Proof.
  intros H. apply (f_equal (map fst)) in H. unfold layout_of in H.
  rewrite !map_map in H. exact H.
Qed.

Lemma find_table_layout db db' t :
  layout_of db' = layout_of db ->
  option_map columns (find_table db' t) = option_map columns (find_table db t).
Proof.
  revert db'. induction db as [|[t0 tb0] db IH]; intros [|[t1 tb1] db'];
    simpl; try discriminate; [reflexivity|].
  intros [= -> Hc Hl]. destruct (String.eqb t0 t); simpl; [now rewrite Hc|auto].
Qed.

Lemma find_table_columns db db' t tb' :
  layout_of db' = layout_of db -> find_table db' t = Some tb' ->
  exists tb, find_table db t = Some tb /\ columns tb = columns tb'.
Proof.
  intros Hl Hf. pose proof (find_table_layout db db' t Hl) as H.
  rewrite Hf in H. simpl in H.
  destruct (find_table db t) as [tb|]; [|discriminate].
  injection H as H. eauto.
Qed.

(** ** What a well-formed table satisfies *)

Lemma attribute_of_In c cols a : attribute_of c cols = Some a -> In (c, a) cols.
Proof.
  induction cols as [|[c' a'] cols IH]; simpl; [discriminate|].
  destruct (String.eqb_spec c' c) as [->|Hne].
  - intros [= ->]. now left.
  - auto.
Qed.

Lemma holds_spec rs c v : holds rs c v = true <-> In v (column_values c rs).
Proof.
  unfold holds, column_values. rewrite existsb_exists, in_map_iff.
  split; intros [r [H1 H2]]; exists r.
  - unfold value_eqb in H2. apply bool_decide_eq_true in H2. auto.
  - split; [auto|]. unfold value_eqb. now apply bool_decide_eq_true.
Qed.

Lemma holds_false rs c v : holds rs c v = false -> ~ In v (column_values c rs).
Proof.
  intros H Hin. apply holds_spec in Hin. congruence.
Qed.

Lemma is_null_spec v : is_null v = true <-> v = Null.
Proof. destruct v; simpl; split; congruence. Qed.

Lemma In_nonnull v vs : In v (nonnull vs) <-> In v vs /\ v <> Null.
Proof.
  unfold nonnull. rewrite filter_In. rewrite negb_true_iff.
  split; intros [H1 H2]; split; auto.
  - intros ->. discriminate.
  - destruct v; simpl; congruence.
Qed.

(** What a passed check gives. *)
Lemma check_column_ok db others c a v :
  check_column db others c a v = inr tt ->
  has_type (attr_type a) v = true
  /\ (attr_allowNull a = false -> v <> Null)
  /\ (attr_primaryKey a = true -> v <> Null)
  /\ (attr_unique a || attr_primaryKey a = true ->
      ~ In v (nonnull (column_values c others))).
Proof.
  unfold check_column.
  destruct (has_type (attr_type a) v); simpl; [|discriminate].
  destruct (is_null v) eqn:Hnull.
  - apply is_null_spec in Hnull. subst v.
    destruct (attr_allowNull a), (attr_primaryKey a); simpl; try discriminate.
    intros _. repeat split; try congruence.
    intros _ Hin. apply In_nonnull in Hin. tauto.
  - assert (v <> Null) by (intros ->; discriminate).
    destruct (attr_unique a || attr_primaryKey a) eqn:Hu; simpl.
    + destruct (holds others c v) eqn:Hh; [discriminate|].
      intros _. repeat split; auto.
      intros _ Hin. apply In_nonnull in Hin. apply holds_false in Hh. tauto.
    + intros _. repeat split; auto. discriminate.
Qed.

Lemma check_row_In db others cols r c a :
  check_row db others cols r = inr tt -> In (c, a) cols ->
  check_column db others c a (get r c) = inr tt.
Proof.
  induction cols as [|[c' a'] cols IH]; simpl; [tauto|].
  destruct (check_column db others c' a' (get r c')) as [e|[]] eqn:E; simpl;
    [discriminate|].
  intros H [[= -> ->]|Hin]; auto.
Qed.

(** ** INSERT keeps tables well formed *)

Lemma nonnull_app vs ws : nonnull (vs ++ ws) = nonnull vs ++ nonnull ws.
Proof. unfold nonnull. apply List.filter_app. Qed.

Lemma nonnull_cons v vs : nonnull (v :: vs) = nonnull [v] ++ nonnull vs.
Proof. change (v :: vs) with ([v] ++ vs). apply nonnull_app. Qed.

Lemma NoDup_nonnull_replace vs1 v v' vs2 :
  NoDup (nonnull (vs1 ++ v :: vs2)) ->
  ~ In v' (nonnull (vs1 ++ vs2)) ->
  NoDup (nonnull (vs1 ++ v' :: vs2)).
Proof.
  rewrite !nonnull_app, (nonnull_cons v), (nonnull_cons v').
  rewrite !NoDup_app. intros (H1 & H12 & _ & _ & H2) Hnot.
  rewrite in_app_iff in Hnot.
  split; [exact H1|]. split.
  - intros x Hx Hx'. apply elem_of_app in Hx' as [Hx'|Hx'].
    + destruct (is_null v') eqn:E; simpl in Hx'; rewrite E in Hx'; simpl in Hx'.
      * inversion Hx'.
      * apply list_elem_of_singleton in Hx'. subst x.
        apply Hnot. left. now apply list_elem_of_In.
    + apply (H12 x Hx). apply elem_of_app. now right.
  - split.
    + destruct (is_null v') eqn:E; simpl; rewrite E; simpl.
      * constructor.
      * apply NoDup_singleton.
    + split; [|exact H2].
      intros x Hx Hx'. destruct (is_null v') eqn:E; simpl in Hx; rewrite E in Hx;
        simpl in Hx; [inversion Hx|].
      apply list_elem_of_singleton in Hx. subst x.
      apply Hnot. right. now apply list_elem_of_In.
Qed.

Lemma NoDup_nonnull_snoc vs v :
  NoDup (nonnull vs) -> ~ In v (nonnull vs) -> NoDup (nonnull (vs ++ [v])).
Proof.
  intros Hnd Hnot. rewrite nonnull_app. apply NoDup_app.
  split; [exact Hnd|]. split.
  - intros x Hx Hx'. destruct (is_null v) eqn:E; simpl in Hx'; rewrite E in Hx';
      simpl in Hx'; [inversion Hx'|].
    apply list_elem_of_singleton in Hx'. subst x.
    apply Hnot. now apply list_elem_of_In.
  - destruct (is_null v) eqn:E; simpl; rewrite E; simpl.
    + constructor.
    + apply NoDup_singleton.
Qed.

Lemma bump_le next r : next <= bump next r.
Proof. unfold bump. destruct (get r "id"); lia. Qed.

Lemma bump_id next r k : get r "id" = Int k -> k < bump next r.
Proof. unfold bump. intros ->. lia. Qed.

Lemma table_insert_inr db t assigned db' r :
  table_insert db t assigned = inr (db', r) ->
  exists tb,
    find_table db t = Some tb
    /\ check_known (columns tb) assigned = inr tt
    /\ r = new_row (columns tb) (nextId tb) assigned
    /\ check_row db (rows tb) (columns tb) r = inr tt
    /\ db' = set_table db t
               {| columns := columns tb; rows := rows tb ++ [r];
                  nextId := bump (nextId tb) r |}.
Proof.
  unfold table_insert. destruct (find_table db t) as [tb|]; [|discriminate].
  destruct (check_known (columns tb) assigned) as [e|[]] eqn:K; simpl;
    [discriminate|].
  destruct (check_row db (rows tb) (columns tb)
              (new_row (columns tb) (nextId tb) assigned)) as [e|[]] eqn:E;
    simpl; [discriminate|].
  intros [= <- <-]. exists tb. repeat split; auto.
Qed.

Lemma table_ok_insert db tb r :
  table_ok tb ->
  check_row db (rows tb) (columns tb) r = inr tt ->
  table_ok {| columns := columns tb; rows := rows tb ++ [r];
              nextId := bump (nextId tb) r |}.
Proof.
  intros [Hk Ht Hn Hu Hx] Hcheck. constructor; simpl.
  - exact Hk.
  - intros c a r0 Hc Hr. apply in_app_iff in Hr as [Hr|[<-|[]]]; [eauto|].
    apply (check_row_In _ _ _ _ c a) in Hcheck; [|exact Hc].
    now apply check_column_ok in Hcheck.
  - intros c a r0 Hc Hr Hnn Hp. apply in_app_iff in Hr as [Hr|[<-|[]]]; [eauto|].
    apply (check_row_In _ _ _ _ c a) in Hcheck; [|exact Hc].
    apply check_column_ok in Hcheck. tauto.
  - intros c a Hc Hua. unfold column_values. rewrite map_app. simpl.
    apply NoDup_nonnull_snoc; [now apply (Hu c a)|].
    apply (check_row_In _ _ _ _ c a) in Hcheck; [|exact Hc].
    apply check_column_ok in Hcheck. tauto.
  - intros r0 k Hr Hid. apply in_app_iff in Hr as [Hr|[<-|[]]].
    + pose proof (Hx r0 k Hr Hid). pose proof (bump_le (nextId tb) r). lia.
    + now apply bump_id.
Qed.

Lemma db_ok_set_table db t tb tb' :
  db_ok db -> find_table db t = Some tb -> table_ok tb' ->
  db_ok (set_table db t tb').
Proof.
  intros [Hnd Hall] Hf Hok. split.
  - now rewrite names_set_table.
  - intros t0 tb0 Hin. apply In_set_table in Hin as [Hin|[= -> ->]]; eauto.
Qed.

Lemma db_ok_find db t tb : db_ok db -> find_table db t = Some tb -> table_ok tb.
Proof. intros [_ H] Hf. apply find_table_In in Hf. eauto. Qed.

Lemma table_insert_ok db t assigned db' r :
  db_ok db -> table_insert db t assigned = inr (db', r) -> db_ok db'.
Proof.
  intros Hok H. apply table_insert_inr in H as (tb & Hf & _ & _ & Hc & ->).
  eapply db_ok_set_table; eauto.
  apply table_ok_insert with (db := db); eauto using db_ok_find.
Qed.

Lemma table_insert_layout db t assigned db' r :
  table_insert db t assigned = inr (db', r) -> layout_of db' = layout_of db.
Proof.
  intros H. apply table_insert_inr in H as (tb & Hf & _ & _ & _ & ->).
  eapply layout_set_table; eauto.
Qed.

(** ** UPDATE keeps tables well formed *)

Lemma find_split {A} (p : A -> bool) l x :
  List.find p l = Some x ->
  exists l1 l2, l = l1 ++ x :: l2 /\ p x = true
                /\ forall y, In y l1 -> p y = false.
Proof.
  induction l as [|y l IH]; simpl; [discriminate|].
  destruct (p y) eqn:E.
  - intros [= ->]. exists [], l. simpl. tauto.
  - intros H. destruct (IH H) as (l1 & l2 & -> & Hx & Hl1).
    exists (y :: l1), l2. simpl. repeat split; auto.
    intros z [<-|Hz]; auto.
Qed.

Lemma replace_row_split k r' l1 r l2 :
  (forall y, In y l1 -> has_id k y = false) -> has_id k r = true ->
  replace_row k r' (l1 ++ r :: l2) = l1 ++ r' :: l2.
Proof.
  intros Hl1 Hr. induction l1 as [|y l1 IH]; simpl.
  - now rewrite Hr.
  - rewrite (Hl1 y) by now left. rewrite IH; [reflexivity|].
    intros z Hz. apply Hl1. now right.
Qed.

Lemma filter_none {A} (p : A -> bool) l :
  (forall y, In y l -> p y = false) -> List.filter (fun x => negb (p x)) l = l.
Proof.
  induction l as [|y l IH]; simpl; [reflexivity|].
  intros H. rewrite (H y) by now left. simpl. rewrite IH; [reflexivity|].
  intros z Hz. apply H. now right.
Qed.

Lemma In_middle {A} (x y z : A) l1 l2 :
  In x (l1 ++ y :: l2) -> x = y \/ In x (l1 ++ z :: l2).
Proof.
  rewrite !in_app_iff. simpl. intros [H|[H|H]]; auto.
Qed.

Lemma has_id_spec k r : has_id k r = true <-> get r "id" = Int k.
Proof. unfold has_id, value_eqb. apply bool_decide_eq_true. Qed.

(** Under a primary key, at most one row has a given id. *)
Lemma unique_id_split tb k l1 r l2 :
  table_ok tb -> rows tb = l1 ++ r :: l2 -> has_id k r = true ->
  forall y, In y l2 -> has_id k y = false.
Proof.
  intros Hok Hrows Hr y Hy.
  destruct (has_id k y) eqn:E; [|reflexivity]. exfalso.
  pose proof (ok_keyed _ Hok) as Hk. unfold keyed in Hk.
  destruct (attribute_of "id" (columns tb)) as [a|] eqn:Ha; [|discriminate].
  apply attribute_of_In in Ha.
  pose proof (ok_unique _ Hok "id" a Ha) as Hu.
  rewrite Hk, orb_true_r in Hu. specialize (Hu eq_refl).
  rewrite Hrows in Hu. unfold column_values in Hu.
  rewrite map_app, nonnull_app in Hu. simpl in Hu.
  apply has_id_spec in Hr, E. rewrite Hr in Hu. simpl in Hu.
  apply NoDup_app in Hu as (_ & _ & Hu). apply NoDup_cons in Hu as [Hu _].
  apply Hu. apply list_elem_of_In. apply In_nonnull. split; [|discriminate].
  apply in_map_iff. exists y. auto.
Qed.

Lemma table_update_inr db t k assigned db' :
  table_update db t k assigned = inr db' ->
  db' = db \/
  exists tb r,
    find_table db t = Some tb
    /\ List.find (has_id k) (rows tb) = Some r
    /\ check_row db (List.filter (fun x => negb (has_id k x)) (rows tb))
         (columns tb) (assign r assigned) = inr tt
    /\ db' = set_table db t
               {| columns := columns tb;
                  rows := replace_row k (assign r assigned) (rows tb);
                  nextId := bump (nextId tb) (assign r assigned) |}.
Proof.
  unfold table_update. destruct (find_table db t) as [tb|]; [|discriminate].
  destruct (check_known (columns tb) assigned) as [e|[]]; simpl; [discriminate|].
  destruct (List.find (has_id k) (rows tb)) as [r|] eqn:Hfind.
  - destruct (check_row db _ (columns tb) (assign r assigned)) as [e|[]] eqn:E;
      simpl; [discriminate|].
    intros [= <-]. right. exists tb, r. repeat split; auto.
  - intros [= <-]. now left.
Qed.

Lemma table_ok_update db tb k r r' :
  table_ok tb ->
  List.find (has_id k) (rows tb) = Some r ->
  check_row db (List.filter (fun x => negb (has_id k x)) (rows tb))
    (columns tb) r' = inr tt ->
  table_ok {| columns := columns tb; rows := replace_row k r' (rows tb);
              nextId := bump (nextId tb) r' |}.
Proof.
  intros Hok Hfind Hcheck.
  destruct (find_split _ _ _ Hfind) as (l1 & l2 & Hrows & Hr & Hl1).
  pose proof (unique_id_split tb k l1 r l2 Hok Hrows Hr) as Hl2.
  assert (Hothers : List.filter (fun x => negb (has_id k x)) (rows tb) = l1 ++ l2).
  { rewrite Hrows, List.filter_app. simpl. rewrite Hr. simpl.
    now rewrite !filter_none. }
  rewrite Hothers in Hcheck.
  assert (Hnew : replace_row k r' (rows tb) = l1 ++ r' :: l2).
  { rewrite Hrows. now apply replace_row_split. }
  destruct Hok as [Hk Ht Hn Hu Hx]. constructor; simpl; rewrite ?Hnew.
  - exact Hk.
  - intros c a r0 Hc Hin.
    assert (r0 = r' \/ In r0 (rows tb)) as [->|Hold].
    { rewrite Hrows. eapply In_middle; eauto. }
    + apply (check_row_In _ _ _ _ c a) in Hcheck; [|exact Hc].
      now apply check_column_ok in Hcheck.
    + eauto.
  - intros c a r0 Hc Hin Hnn Hp.
    assert (r0 = r' \/ In r0 (rows tb)) as [->|Hold].
    { rewrite Hrows. eapply In_middle; eauto. }
    + apply (check_row_In _ _ _ _ c a) in Hcheck; [|exact Hc].
      apply check_column_ok in Hcheck. tauto.
    + eauto.
  - intros c a Hc Hua. unfold column_values. rewrite map_app. simpl.
    apply NoDup_nonnull_replace with (v := get r c).
    + specialize (Hu c a Hc Hua). rewrite Hrows in Hu.
      unfold column_values in Hu. now rewrite map_app in Hu.
    + apply (check_row_In _ _ _ _ c a) in Hcheck; [|exact Hc].
      apply check_column_ok in Hcheck. unfold column_values in Hcheck.
      rewrite map_app in Hcheck. tauto.
  - intros r0 j Hin Hid.
    assert (r0 = r' \/ In r0 (rows tb)) as [->|Hold].
    { rewrite Hrows. eapply In_middle; eauto. }
    + now apply bump_id.
    + pose proof (Hx r0 j Hold Hid). pose proof (bump_le (nextId tb) r'). lia.
Qed.

Lemma table_update_ok db t k assigned db' :
  db_ok db -> table_update db t k assigned = inr db' -> db_ok db'.
Proof.
  intros Hok H.
  apply table_update_inr in H as [->|(tb & r & Hf & Hfind & Hc & ->)]; [exact Hok|].
  eapply db_ok_set_table; eauto.
  eapply table_ok_update; eauto using db_ok_find.
Qed.

Lemma table_update_layout db t k assigned db' :
  table_update db t k assigned = inr db' -> layout_of db' = layout_of db.
Proof.
  intros H.
  apply table_update_inr in H as [->|(tb & r & Hf & _ & _ & ->)]; [reflexivity|].
  eapply layout_set_table; eauto.
Qed.

(** ** DELETE only removes rows and nulls [SET NULL] references *)

Lemma nulled_refl cols r : nulled cols r r.
Proof. intros c. now left. Qed.

Lemma nulled_trans cols r1 r2 r3 :
  nulled cols r1 r2 -> nulled cols r2 r3 -> nulled cols r1 r3.
Proof.
  intros H12 H23 c. destruct (H23 c) as [E|E]; [|now right].
  rewrite E. apply H12.
Qed.

Lemma shrunk_refl cols rs : shrunk cols rs rs.
Proof.
  induction rs; [apply shrunk_nil|apply shrunk_keep]; auto using nulled_refl.
Qed.

Lemma shrunk_trans cols rs1 rs2 rs3 :
  shrunk cols rs1 rs2 -> shrunk cols rs2 rs3 -> shrunk cols rs1 rs3.
Proof.
  intros H. revert rs3. induction H as [|r rs rs' H IH|r r' rs rs' Hn H IH];
    intros rs3 H23.
  - exact H23.
  - apply shrunk_drop. auto.
  - inversion H23; subst.
    + apply shrunk_drop. auto.
    + apply shrunk_keep; eauto using nulled_trans.
Qed.

Lemma shrunk_filter cols p rs : shrunk cols rs (List.filter p rs).
Proof.
  induction rs as [|r rs IH]; simpl; [constructor|].
  destruct (p r); [apply shrunk_keep|apply shrunk_drop]; auto using nulled_refl.
Qed.

Lemma shrunk_map cols f rs :
  (forall r, nulled cols r (f r)) -> shrunk cols rs (map f rs).
Proof.
  intros Hf. induction rs as [|r rs IH]; simpl;
    [apply shrunk_nil|apply shrunk_keep]; auto.
Qed.

Lemma get_insert (r : row) c c' v :
  get (<[c := v]> r) c' = if String.eqb c c' then v else get r c'.
Proof.
  unfold get. destruct (String.eqb_spec c c') as [->|Hne].
  - now rewrite lookup_insert_eq.
  - now rewrite lookup_insert_ne.
Qed.

Lemma nulled_set_null cols dead c k r :
  pinned cols c = false -> nulled cols r (set_null dead c k r).
Proof.
  intros Hp c'. unfold set_null. destruct (refers_to dead c k r); [|now left].
  rewrite get_insert. destruct (String.eqb_spec c c') as [<-|Hne]; auto.
Qed.

Lemma shrunk_In cols rs rs' r' :
  shrunk cols rs rs' -> In r' rs' -> exists r, In r rs /\ nulled cols r r'.
Proof.
  induction 1 as [|r rs rs' H IH|r r0 rs rs' Hn H IH]; simpl.
  - tauto.
  - intros Hin. destruct (IH Hin) as (x & Hx & Hnx). eauto.
  - intros [<-|Hin]; [eauto|].
    destruct (IH Hin) as (x & Hx & Hnx). eauto.
Qed.

Lemma shrunk_values cols c rs rs' :
  shrunk cols rs rs' ->
  sublist (nonnull (column_values c rs')) (nonnull (column_values c rs)).
Proof.
  induction 1 as [|r rs rs' H IH|r r' rs rs' Hn H IH]; simpl.
  - constructor.
  - destruct (negb (is_null (get r c))); [now apply sublist_cons|exact IH].
  - destruct (Hn c) as [E|[E _]]; rewrite E.
    + destruct (negb (is_null (get r c))); [now apply sublist_skip|exact IH].
    + simpl. destruct (negb (is_null (get r c))); [now apply sublist_cons|exact IH].
Qed.

Lemma table_shrunk_refl tb : table_shrunk tb tb.
Proof. repeat split. apply shrunk_refl. Qed.

Lemma table_shrunk_trans tb1 tb2 tb3 :
  table_shrunk tb1 tb2 -> table_shrunk tb2 tb3 -> table_shrunk tb1 tb3.
Proof.
  intros (Hc & Hn & Hs) (Hc' & Hn' & Hs'). repeat split; try congruence.
  rewrite Hc in Hs'. eauto using shrunk_trans.
Qed.

Lemma table_ok_shrunk tb tb' : table_ok tb -> table_shrunk tb tb' -> table_ok tb'.
Proof.
  intros [Hk Ht Hnn Hu Hx] (Hc & Hn & Hs). constructor; rewrite ?Hc, ?Hn.
  - exact Hk.
  - intros c a r' Hca Hin.
    destruct (shrunk_In _ _ _ _ Hs Hin) as (r & Hr & Hnul).
    destruct (Hnul c) as [E|[E _]]; rewrite E; [eauto|].
    now destruct (attr_type a).
  - intros c a r' Hca Hin Hnull Hp.
    destruct (shrunk_In _ _ _ _ Hs Hin) as (r & Hr & Hnul).
    destruct (Hnul c) as [E|[_ E]]; [rewrite E; eauto|congruence].
  - intros c a Hca Hua.
    eapply sublist_NoDup; [eauto|]. apply (shrunk_values _ c _ _ Hs).
  - intros r' k Hin Hid.
    destruct (shrunk_In _ _ _ _ Hs Hin) as (r & Hr & Hnul).
    destruct (Hnul "id") as [E|[E _]]; [|congruence].
    apply (Hx r); congruence.
Qed.

Lemma db_shrunk_refl db : db_shrunk db db.
Proof.
  induction db; constructor; auto using table_shrunk_refl.
Qed.

Lemma db_shrunk_trans db1 db2 db3 :
  db_shrunk db1 db2 -> db_shrunk db2 db3 -> db_shrunk db1 db3.
Proof.
  intros H. revert db3. induction H as [|p p' db db' [Hn Hs] H IH]; intros db3 H23.
  - exact H23.
  - inversion H23 as [|? p'' ? db'' [Hn' Hs'] H']; subst.
    constructor; [|apply IH; assumption].
    split; [congruence|eauto using table_shrunk_trans].
Qed.

Lemma db_shrunk_set_table db t tb tb' :
  find_table db t = Some tb -> table_shrunk tb tb' ->
  db_shrunk db (set_table db t tb').
Proof.
  intros Hf Hs. induction db as [|[t0 tb0] db IH]; simpl in *; [constructor|].
  destruct (String.eqb_spec t0 t) as [->|Hne].
  - injection Hf as ->. constructor; [now split|apply db_shrunk_refl].
  - constructor; [split; [reflexivity|apply table_shrunk_refl]|].
    apply IH. exact Hf.
Qed.

Lemma db_shrunk_layout db db' : db_shrunk db db' -> layout_of db' = layout_of db.
Proof.
  induction 1 as [|[t tb] [t' tb'] db db' [Hn (Hc & _)] H IH]; [reflexivity|].
  unfold layout_of in *. simpl in *. congruence.
Qed.

Lemma db_shrunk_find db db' t tb' :
  db_shrunk db db' -> find_table db' t = Some tb' ->
  exists tb, find_table db t = Some tb /\ table_shrunk tb tb'.
Proof.
  induction 1 as [|[t0 tb0] [t1 tb1] db db' [Hn Hs] H IH]; simpl in *;
    [discriminate|].
  subst t1. destruct (String.eqb t0 t); [|exact IH].
  intros [= <-]. eauto.
Qed.

Lemma db_ok_shrunk db db' : db_ok db -> db_shrunk db db' -> db_ok db'.
Proof.
  intros [Hnd Hall] Hs. split.
  - rewrite (names_layout db db'); [exact Hnd|now apply db_shrunk_layout].
  - intros t tb' Hin.
    assert (Hnd' : NoDup (map fst db')).
    { rewrite (names_layout db db'); [exact Hnd|now apply db_shrunk_layout]. }
    apply In_find_table in Hin; [|exact Hnd'].
    destruct (db_shrunk_find _ _ _ _ Hs Hin) as (tb & Hf & Hts).
    eapply table_ok_shrunk; [|exact Hts]. apply find_table_In in Hf. eauto.
Qed.

Lemma references_in_spec child t cols fk :
  In fk (references_in child t cols) ->
  fk_table fk = child
  /\ exists a, In (fk_column fk, a) cols
               /\ attr_references a = Some (t, fk_key fk)
               /\ attr_onDelete a = fk_action fk.
Proof.
  induction cols as [|[c a] cols IH]; simpl; [tauto|].
  destruct (attr_references a) as [[t' k]|] eqn:Hr.
  - destruct (String.eqb_spec t' t) as [->|Hne].
    + intros [<-|Hin]; simpl.
      * split; [reflexivity|]. exists a. auto.
      * destruct (IH Hin) as (H1 & a' & H2 & H3). split; [exact H1|]. eauto.
    + intros Hin. destruct (IH Hin) as (H1 & a' & H2 & H3). split; [exact H1|]. eauto.
  - intros Hin. destruct (IH Hin) as (H1 & a' & H2 & H3). split; [exact H1|]. eauto.
Qed.

Lemma foreign_keys_spec db t fk :
  In fk (foreign_keys db t) ->
  exists tb a, In (fk_table fk, tb) db
               /\ In (fk_column fk, a) (columns tb)
               /\ attr_references a = Some (t, fk_key fk)
               /\ attr_onDelete a = fk_action fk.
Proof.
  unfold foreign_keys. rewrite in_flat_map. intros ([n tb] & Hin & Hfk).
  simpl in Hfk. apply references_in_spec in Hfk as (<- & a & H).
  exists tb, a. tauto.
Qed.

Lemma pinned_false cols c a :
  In (c, a) cols -> nullable_by_delete a = true -> pinned cols c = false.
Proof.
  intros Hin Hn. destruct (pinned cols c) eqn:E; [|reflexivity].
  unfold pinned in E. rewrite forallb_forall in E. specialize (E _ Hin).
  simpl in E. rewrite String.eqb_refl, Hn in E. discriminate.
Qed.

Lemma fold_left_inl {A} (f : database -> A -> result database) l e :
  fold_left (fun acc x => let* db := acc in f db x) l (inl e) = inl e.
Proof. induction l; simpl; auto. Qed.

Lemma on_delete_shrunk cascade dead db0 t db fk db' :
  (forall t' dead' db1 db2,
      NoDup (map fst db1) -> cascade t' dead' db1 = inr db2 -> db_shrunk db1 db2) ->
  NoDup (map fst db0) -> In fk (foreign_keys db0 t) ->
  layout_of db = layout_of db0 ->
  on_delete cascade dead db fk = inr db' -> db_shrunk db db'.
Proof.
  intros Hcascade Hnd Hfk Hl. unfold on_delete.
  assert (Hnd' : NoDup (map fst db)) by now rewrite (names_layout db0 db).
  destruct (find_table db (fk_table fk)) as [child|] eqn:Hchild.
  2:{ intros [= <-]. apply db_shrunk_refl. }
  destruct (fk_action fk) eqn:Hact.
  - apply Hcascade. exact Hnd'.
  - intros [= <-]. eapply db_shrunk_set_table; [exact Hchild|].
    repeat split. simpl. apply shrunk_map. intros r.
    apply nulled_set_null.
    apply foreign_keys_spec in Hfk as (tb0 & a & Hin & Hcol & Href & Hdel).
    apply In_find_table in Hin; [|exact Hnd].
    destruct (find_table_columns db0 db (fk_table fk) child Hl Hchild)
      as (tb1 & Hf1 & Hc1).
    rewrite Hin in Hf1. injection Hf1 as <-. rewrite <- Hc1.
    apply (pinned_false _ _ a Hcol). unfold nullable_by_delete.
    now rewrite Href, Hdel, Hact.
  - destruct (existsb _ _); [discriminate|]. intros [= <-]. apply db_shrunk_refl.
Qed.

Lemma delete_rows_shrunk fuel : forall t dead db db',
  NoDup (map fst db) -> delete_rows fuel t dead db = inr db' -> db_shrunk db db'.
Proof.
  induction fuel as [|fuel IH]; intros t dead db db' Hnd; simpl; [discriminate|].
  destruct (find_table db t) as [tb|] eqn:Hf; [|discriminate].
  assert (Hstart : db_shrunk db
            (set_table db t (with_rows tb (without dead (rows tb))))).
  { eapply db_shrunk_set_table; [exact Hf|]. repeat split. simpl.
    apply shrunk_filter. }
  revert Hstart. generalize (set_table db t (with_rows tb (without dead (rows tb)))).
  assert (Hsub : forall fk, In fk (foreign_keys db t) -> In fk (foreign_keys db t))
    by auto.
  revert Hsub. generalize (foreign_keys db t) at 1 3 as fks.
  induction fks as [|fk fks IHf]; intros Hsub db1 H1; simpl.
  - intros [= <-]. exact H1.
  - destruct (on_delete (delete_rows fuel) dead db1 fk) as [e|db2] eqn:Hstep.
    + rewrite fold_left_inl. discriminate.
    + apply IHf; [intros; apply Hsub; now right|].
      eapply db_shrunk_trans; [exact H1|].
      eapply on_delete_shrunk; eauto.
      * apply Hsub. now left.
      * now apply db_shrunk_layout.
Qed.

Lemma table_delete_shrunk db t k db' :
  NoDup (map fst db) -> table_delete db t k = inr db' -> db_shrunk db db'.
Proof.
  unfold table_delete. destruct (find_table db t); [|discriminate].
  apply delete_rows_shrunk.
Qed.

Lemma table_delete_ok db t k db' :
  db_ok db -> table_delete db t k = inr db' -> db_ok db'.
Proof.
  intros Hok H. eapply db_ok_shrunk; [exact Hok|].
  eapply table_delete_shrunk; [apply Hok|exact H].
Qed.

(** ** Reachable states *)

Lemma step_ok db db' : db_ok db -> step db db' -> db_ok db'.
Proof.
  intros Hok Hstep. destruct Hstep as [? ? ? ? ? H|? ? ? ? ? H|? ? ? ? H].
  - eapply table_insert_ok; eauto.
  - eapply table_update_ok; eauto.
  - eapply table_delete_ok; eauto.
Qed.

Lemma step_layout db db' : db_ok db -> step db db' -> layout_of db' = layout_of db.
Proof.
  intros Hok Hstep. destruct Hstep as [? ? ? ? ? H|? ? ? ? ? H|? ? ? ? H].
  - eapply table_insert_layout; eauto.
  - eapply table_update_layout; eauto.
  - apply db_shrunk_layout. eapply table_delete_shrunk; [apply Hok|eauto].
Qed.

Lemma reachable_ok init db :
  db_ok init -> reachable init db -> db_ok db /\ layout_of db = layout_of init.
Proof.
  intros Hinit. induction 1 as [|db db' Hr [IHok IHl] Hstep].
  - auto.
  - split; [eauto using step_ok|].
    rewrite <- IHl. now apply step_layout.
Qed.

(** Both layouts start well formed. *)
Lemma db_ok_empty db :
  NoDup (map fst db) ->
  (forall t tb, In (t, tb) db -> keyed (columns tb) = true /\ rows tb = []) ->
  db_ok db.
Proof.
  intros Hnd Hall. split; [exact Hnd|].
  intros t tb Hin. destruct (Hall t tb Hin) as [Hk Hrows].
  constructor; rewrite ?Hrows; simpl; try tauto.
  intros. constructor.
Qed.

Lemma migrated_ok : db_ok migrated.
Proof.
  apply db_ok_empty.
  - apply (bool_decide_unpack _). vm_compute. exact I.
  - intros t tb Hin. vm_compute in Hin.
    repeat (destruct Hin as [Heq|Hin];
            [injection Heq as <- <-; split; reflexivity|]).
    destruct Hin.
Qed.

Lemma synced_ok : db_ok synced.
Proof.
  apply db_ok_empty.
  - apply (bool_decide_unpack _). vm_compute. exact I.
  - intros t tb Hin. vm_compute in Hin.
    repeat (destruct Hin as [Heq|Hin];
            [injection Heq as <- <-; split; reflexivity|]).
    destruct Hin.
Qed.

Lemma starts_ok init : starts init -> db_ok init.
Proof. intros [->| ->]; [apply migrated_ok|apply synced_ok]. Qed.

Lemma reachable_table init db t cols :
  db_ok init -> reachable init db ->
  option_map columns (find_table init t) = Some cols ->
  exists tb, find_table db t = Some tb /\ columns tb = cols /\ table_ok tb.
Proof.
  intros Hinit Hr Hcols. destruct (reachable_ok init db Hinit Hr) as [Hok Hl].
  pose proof (find_table_layout init db t Hl) as H. rewrite Hcols in H.
  destruct (find_table db t) as [tb|] eqn:Hf; [|discriminate].
  injection H as H. exists tb. split; [reflexivity|]. split; [exact H|].
  eapply db_ok_find; eauto.
Qed.

(** The table of a model, in a reachable store. *)
Lemma QueueItems_table init db :
  starts init -> reachable init db ->
  exists tb, find_table db "QueueItems" = Some tb /\ table_ok tb
             /\ (columns tb = create_queue_item.QueueItems
                 \/ columns tb = sync QueueItem.init).
Proof.
  intros Hs Hr. pose proof (starts_ok init Hs) as Hok. destruct Hs as [->| ->].
  - destruct (reachable_table migrated db "QueueItems"
                create_queue_item.QueueItems Hok Hr eq_refl) as (tb & ? & ? & ?).
    exists tb. auto.
  - destruct (reachable_table synced db "QueueItems"
                (sync QueueItem.init) Hok Hr eq_refl) as (tb & ? & ? & ?).
    exists tb. auto.
Qed.

(** ** What [create] sends to the table *)

Lemma new_row_get cols next assigned c :
  get (new_row cols next assigned) c =
  match attribute_of c cols with
  | Some a => initial_value a next (assigned_value c assigned)
  | None => Null
  end.
Proof.
  induction cols as [|[c' a'] cols IH]; simpl; [reflexivity|].
  rewrite get_insert. destruct (String.eqb_spec c' c) as [->|Hne]; auto.
Qed.

Lemma mapValueFieldNames_none dataValues fs c :
  dataValues !! c = None ->
  assigned_value c (mapValueFieldNames dataValues fs) = None.
Proof.
  intros Hnone. induction fs as [|[c' a'] fs IH]; simpl; [reflexivity|].
  destruct (dataValues !! c') as [v|] eqn:E; [|exact IH].
  destruct (is_virtual a'); [exact IH|]. simpl.
  destruct (String.eqb_spec c' c) as [->|Hne]; [congruence|exact IH].
Qed.

Lemma mapValueFieldNames_value dataValues fs c a :
  attribute_of c fs = Some a -> is_virtual a = false ->
  assigned_value c (mapValueFieldNames dataValues fs) = dataValues !! c.
Proof.
  induction fs as [|[c' a'] fs IH]; simpl; [discriminate|].
  destruct (String.eqb_spec c' c) as [->|Hne].
  - intros [= ->] Hv. destruct (dataValues !! c) as [v|] eqn:E.
    + rewrite Hv. simpl. now rewrite String.eqb_refl.
    + now apply mapValueFieldNames_none.
  - intros Ha Hv. destruct (dataValues !! c') as [v|] eqn:E; [|auto].
    destruct (is_virtual a'); [auto|]. simpl.
    destruct (String.eqb_spec c' c); [contradiction|auto].
Qed.

Lemma with_defaults_given attrs (values : row) c v :
  values !! c = Some v -> with_defaults attrs values !! c = Some v.
Proof.
  intros Hv. induction attrs as [|[c' a'] attrs IH]; simpl; [exact Hv|].
  destruct (attr_defaultValue a'); [|exact IH].
  destruct (with_defaults attrs values !! c') eqn:E; [exact IH|].
  rewrite lookup_insert_ne; [exact IH|]. intros ->. congruence.
Qed.

Lemma with_defaults_missing attrs (values : row) c :
  values !! c = None ->
  with_defaults attrs values !! c = declared_default c attrs.
Proof.
  intros Hv. induction attrs as [|[c' a'] attrs IH]; simpl; [exact Hv|].
  destruct (attr_defaultValue a') as [d|] eqn:Hd.
  - destruct (with_defaults attrs values !! c') eqn:E.
    + rewrite IH. destruct (declared_default c attrs); [reflexivity|].
      destruct (String.eqb_spec c' c) as [->|Hne]; [congruence|reflexivity].
    + destruct (String.eqb_spec c' c) as [->|Hne].
      * rewrite lookup_insert_eq. rewrite <- IH, E. reflexivity.
      * rewrite lookup_insert_ne by exact Hne. rewrite IH.
        now destruct (declared_default c attrs).
  - rewrite IH. destruct (declared_default c attrs); [reflexivity|].
    now destruct (String.eqb c' c).
Qed.

Lemma build_missing m (values : row) now c :
  c <> "id" -> c <> "createdAt" -> c <> "updatedAt" ->
  values !! c = None ->
  build m values now !! c = declared_default c (rawAttributes m).
Proof.
  intros H1 H2 H3 Hv. unfold build.
  rewrite !lookup_insert_ne by congruence.
  apply with_defaults_missing.
  destruct (values !! "id"); [exact Hv|].
  rewrite lookup_insert_ne by congruence. exact Hv.
Qed.

(** [build] keeps every value given for a declared attribute. *)
Lemma build_given m (values : row) now c v :
  c <> "id" -> c <> "createdAt" -> c <> "updatedAt" ->
  values !! c = Some v -> build m values now !! c = Some v.
Proof.
  intros H1 H2 H3 Hv. unfold build.
  rewrite !lookup_insert_ne by congruence.
  apply with_defaults_given.
  destruct (values !! "id"); [exact Hv|].
  rewrite lookup_insert_ne by congruence. exact Hv.
Qed.

Lemma check_row_fails db others cols r c a e :
  In (c, a) cols -> check_column db others c a (get r c) = inl e ->
  exists e', check_row db others cols r = inl e'.
Proof.
  induction cols as [|[c' a'] cols IH]; simpl; [tauto|].
  intros [[= -> ->]|Hin] He.
  - rewrite He. simpl. eauto.
  - destruct (check_column db others c' a' (get r c')) as [e0|[]]; simpl; eauto.
Qed.

Lemma nonnull_all vs : (forall v, In v vs -> v <> Null) -> nonnull vs = vs.
Proof.
  induction vs as [|v vs IH]; simpl; [reflexivity|].
  intros H. destruct v; simpl; try (rewrite IH; [reflexivity|]; intros; apply H; now right).
  exfalso. now apply (H Null); [left|].
Qed.

(** An [INSERT] that repeats a stored value of a unique column fails. *)
Lemma insert_duplicate_fails db t tb assigned c a q :
  find_table db t = Some tb ->
  attribute_of c (columns tb) = Some a ->
  attr_unique a = true -> attr_autoIncrement a = false ->
  In q (rows tb) -> get q c <> Null ->
  assigned_value c assigned = Some (get q c) ->
  exists e, table_insert db t assigned = inl e.
Proof.
  intros Hf Ha Hu Hauto Hq Hnn Hv. unfold table_insert. rewrite Hf.
  destruct (check_known (columns tb) assigned) as [e|[]]; simpl; [eauto|].
  destruct (check_row_fails db (rows tb) (columns tb)
              (new_row (columns tb) (nextId tb) assigned) c a
              (match has_type (attr_type a) (get q c) with
               | true => UniqueConstraintError c
               | false => InvalidValue c
               end)) as [e He].
  - now apply attribute_of_In.
  - rewrite new_row_get, Ha, Hv. unfold initial_value. rewrite Hauto. simpl.
    unfold check_column. destruct (has_type (attr_type a) (get q c)); simpl;
      [|reflexivity].
    destruct (is_null (get q c)) eqn:E; [apply is_null_spec in E; contradiction|].
    rewrite Hu. simpl.
    assert (holds (rows tb) c (get q c) = true) as ->; [|reflexivity].
    apply holds_spec. unfold column_values. apply in_map_iff. eauto.
  - rewrite He. simpl. eauto.
Qed.

Lemma assign_get r assigned c :
  get (assign r assigned) c =
  match assigned_value c assigned with
  | Some v => v
  | None => get r c
  end.
Proof.
  induction assigned as [|[c' v'] assigned IH]; simpl; [reflexivity|].
  rewrite get_insert. simpl. now destruct (String.eqb c' c).
Qed.

(** An [UPDATE] that would store a value a column refuses changes nothing. *)
Lemma update_refused db t tb k assigned c a v db' :
  find_table db t = Some tb ->
  In (c, a) (columns tb) ->
  assigned_value c assigned = Some v ->
  (exists e, check_column db (List.filter (fun x => negb (has_id k x)) (rows tb))
               c a v = inl e) ->
  table_update db t k assigned = inr db' -> db' = db.
Proof.
  intros Hf Hc Hv [e He] H.
  apply table_update_inr in H as [->|(tb' & r & Hf' & _ & Hcheck & _)];
    [reflexivity|].
  rewrite Hf in Hf'. injection Hf' as <-.
  apply (check_row_In _ _ _ _ c a) in Hcheck; [|exact Hc].
  rewrite assign_get, Hv in Hcheck. congruence.
Qed.

(** * The lease records: [QueueItems] *)

Lemma QueueItem_findAll db tb :
  find_table db "QueueItems" = Some tb -> findAll QueueItem.init db = rows tb.
Proof.
  intros H. unfold findAll.
  change (tableName QueueItem.init) with "QueueItems". now rewrite H.
Qed.

(** What both layouts say of [dataItemId]. *)
Lemma QueueItems_dataItemId cols :
  cols = create_queue_item.QueueItems \/ cols = sync QueueItem.init ->
  exists a, attribute_of "dataItemId" cols = Some a
            /\ attr_unique a = true /\ attr_allowNull a = false
            /\ attr_autoIncrement a = false
            /\ pinned cols "dataItemId" = true.
Proof.
  intros [->| ->]; eexists; (split; [reflexivity|]); repeat split; reflexivity.
Qed.

Lemma QueueItem_dataItemId_not_null tb q :
  table_ok tb ->
  columns tb = create_queue_item.QueueItems \/ columns tb = sync QueueItem.init ->
  In q (rows tb) -> get q "dataItemId" <> Null.
Proof.
  intros Hok Hcols Hq.
  destruct (QueueItems_dataItemId _ Hcols) as (a & Ha & _ & Hnn & _ & Hp).
  eapply (ok_not_null _ Hok); eauto using attribute_of_In.
Qed.

(** A [create] of a model without hook validates and inserts. *)
Lemma create_fails m db values now :
  beforeValidate m = None ->
  (exists e, table_insert db (tableName m)
               (mapValueFieldNames (build m values now) (fields m)) = inl e) ->
  exists e, create m db values now = inl e.
Proof.
  intros Hh [e He]. unfold create. rewrite Hh. simpl.
  destruct (validate (rawAttributes m) (build m values now)) as [e'|[]];
    simpl; eauto.
Qed.

Lemma create_inr m db values now db' r :
  beforeValidate m = None ->
  create m db values now = inr (db', r) ->
  table_insert db (tableName m)
    (mapValueFieldNames (build m values now) (fields m)) = inr (db', r).
Proof.
  intros Hh. unfold create. rewrite Hh. simpl.
  destruct (validate (rawAttributes m) (build m values now)) as [e'|[]];
    simpl; [discriminate|auto].
Qed.

Lemma QueueItem_create_fails db values now :
  (exists e, table_insert db "QueueItems"
               (mapValueFieldNames (build QueueItem.init values now)
                  (fields QueueItem.init)) = inl e) ->
  exists e, create QueueItem.init db values now = inl e.
Proof. apply (create_fails QueueItem.init). reflexivity. Qed.

(** C1.  In every state of the store, whichever statements led to it,
    no two queue items refer to the same data item; and as long as a
    queue item refers to a data item, every attempt to create another
    one for it fails, be it by [QueueItem.create] or by a plain
    [INSERT]. *)
Theorem one_queue_item_per_data_item init db :
  starts init -> reachable init db ->
  NoDup (column_values "dataItemId" (findAll QueueItem.init db))
  /\ (forall q values now,
        In q (findAll QueueItem.init db) ->
        values !! "dataItemId" = Some (get q "dataItemId") ->
        exists e, create QueueItem.init db values now = inl e)
  /\ (forall q assigned,
        In q (findAll QueueItem.init db) ->
        assigned_value "dataItemId" assigned = Some (get q "dataItemId") ->
        exists e, table_insert db "QueueItems" assigned = inl e).
Proof.
  intros Hs Hr.
  destruct (QueueItems_table init db Hs Hr) as (tb & Hf & Hok & Hcols).
  rewrite (QueueItem_findAll db tb Hf).
  destruct (QueueItems_dataItemId _ Hcols) as (a & Ha & Hu & Hnn & Hauto & Hp).
  assert (Hinsert : forall q assigned,
             In q (rows tb) ->
             assigned_value "dataItemId" assigned = Some (get q "dataItemId") ->
             exists e, table_insert db "QueueItems" assigned = inl e).
  { intros q assigned Hq Hv.
    eapply insert_duplicate_fails; eauto.
    eapply QueueItem_dataItemId_not_null; eauto. }
  split; [|split].
  - rewrite <- (nonnull_all (column_values "dataItemId" (rows tb))).
    + apply (ok_unique _ Hok "dataItemId" a); [now apply attribute_of_In|].
      now rewrite Hu.
    + intros v Hv. unfold column_values in Hv. apply in_map_iff in Hv as (q & <- & Hq).
      eapply QueueItem_dataItemId_not_null; eauto.
  - intros q values now Hq Hv. apply QueueItem_create_fails.
    apply (Hinsert q); [exact Hq|].
    rewrite (mapValueFieldNames_value _ _ "dataItemId"
               (define INTEGER [allowNull false; unique true]));
      [|reflexivity|reflexivity].
    apply build_given; congruence.
  - exact Hinsert.
Qed.

Lemma QueueItems_status cols :
  cols = create_queue_item.QueueItems \/ cols = sync QueueItem.init ->
  exists a, attribute_of "status" cols = Some a
            /\ attr_type a = ENUM ["pending"; "leased"; "completed"]
            /\ attr_allowNull a = false
            /\ attr_autoIncrement a = false
            /\ pinned cols "status" = true.
Proof.
  intros [->| ->]; eexists; (split; [reflexivity|]); repeat split; reflexivity.
Qed.

Lemma status_refused db others a v :
  attr_type a = ENUM ["pending"; "leased"; "completed"] ->
  attr_allowNull a = false ->
  ~ In v statuses ->
  exists e, check_column db others "status" a v = inl e.
Proof.
  intros Ht Hnn Hv. unfold check_column. rewrite Ht, Hnn.
  destruct v as [|n|s|b|d]; simpl; eauto.
  destruct (bool_decide_reflect (s ∈ ["pending"; "leased"; "completed"]))
    as [Hin|Hout]; simpl; eauto.
  exfalso. apply Hv. unfold statuses.
  apply list_elem_of_In in Hin. simpl in *.
  destruct Hin as [<-|[<-|[<-|[]]]]; auto.
Qed.

Lemma status_valid a v :
  attr_type a = ENUM ["pending"; "leased"; "completed"] ->
  has_type (attr_type a) v = true -> v <> Null -> In v statuses.
Proof.
  intros Ht Hty Hnn. rewrite Ht in Hty.
  destruct v as [|n|s|b|d]; simpl in Hty; try discriminate; [contradiction|].
  apply bool_decide_eq_true in Hty. apply list_elem_of_In in Hty.
  unfold statuses. simpl in *. destruct Hty as [<-|[<-|[<-|[]]]]; auto.
Qed.

(** An [INSERT] that assigns a value its column refuses fails. *)
Lemma insert_refused db t tb assigned c a v :
  find_table db t = Some tb ->
  attribute_of c (columns tb) = Some a ->
  attr_autoIncrement a = false ->
  assigned_value c assigned = Some v ->
  (exists e, check_column db (rows tb) c a v = inl e) ->
  exists e, table_insert db t assigned = inl e.
Proof.
  intros Hf Ha Hauto Hv [e He]. unfold table_insert. rewrite Hf.
  destruct (check_known (columns tb) assigned) as [e0|[]]; simpl; [eauto|].
  destruct (check_row_fails db (rows tb) (columns tb)
              (new_row (columns tb) (nextId tb) assigned) c a e) as [e' He'].
  - now apply attribute_of_In.
  - rewrite new_row_get, Ha, Hv. unfold initial_value. now rewrite Hauto.
  - rewrite He'. simpl. eauto.
Qed.

(** Where the status column has the [ENUM] type: in every state of the
    store the status of a queue item is one of ['pending'], ['leased'],
    ['completed'].  A [QueueItem.create] or an [INSERT] that gives any
    other status fails, and an [UPDATE] that assigns one changes
    nothing. *)
Lemma status_closed_where_enforced init db :
  starts init -> reachable init db ->
  (forall q, In q (findAll QueueItem.init db) -> In (get q "status") statuses)
  /\ (forall values now v,
        values !! "status" = Some v -> ~ In v statuses ->
        exists e, create QueueItem.init db values now = inl e)
  /\ (forall assigned v,
        assigned_value "status" assigned = Some v -> ~ In v statuses ->
        exists e, table_insert db "QueueItems" assigned = inl e)
  /\ (forall k assigned v db',
        assigned_value "status" assigned = Some v -> ~ In v statuses ->
        table_update db "QueueItems" k assigned = inr db' -> db' = db).
Proof.
  intros Hs Hr.
  destruct (QueueItems_table init db Hs Hr) as (tb & Hf & Hok & Hcols).
  rewrite (QueueItem_findAll db tb Hf).
  destruct (QueueItems_status _ Hcols) as (a & Ha & Hty & Hnn & Hauto & Hp).
  pose proof (attribute_of_In _ _ _ Ha) as Hin.
  assert (Hinsert : forall assigned v,
             assigned_value "status" assigned = Some v -> ~ In v statuses ->
             exists e, table_insert db "QueueItems" assigned = inl e).
  { intros assigned v Hv Hbad.
    eapply insert_refused; eauto using status_refused. }
  repeat split.
  - intros q Hq. apply (status_valid a); [exact Hty| |].
    + eapply (ok_typed _ Hok); eauto.
    + eapply (ok_not_null _ Hok); eauto.
  - intros values now v Hv Hbad. apply QueueItem_create_fails.
    apply (Hinsert _ v); [|exact Hbad].
    rewrite (mapValueFieldNames_value _ _ "status"
               (define (ENUM ["pending"; "leased"; "completed"])
                  [allowNull false; defaultValue (Str "pending")]));
      [|reflexivity|reflexivity].
    apply build_given; congruence.
  - exact Hinsert.
  - intros k assigned v db' Hv Hbad Hup.
    eapply update_refused; eauto using status_refused.
Qed.

(** ** Creating the lease record of a work item *)

Lemma CreateForItem_eq db d now :
  CreateForItem db d now =
  commit db (table_insert db "QueueItems" (lease_insert d now)).
Proof. reflexivity. Qed.

Lemma check_column_pass db others c a v :
  has_type (attr_type a) v = true ->
  (is_null v = true -> attr_allowNull a && negb (attr_primaryKey a) = true) ->
  (is_null v = false -> attr_unique a || attr_primaryKey a = true ->
   holds others c v = false) ->
  (is_null v = false -> forall t k,
     attr_references a = Some (t, k) -> key_exists db t k v = true) ->
  check_column db others c a v = inr tt.
Proof.
  intros Hty Hnull Huniq Href. unfold check_column. rewrite Hty. simpl.
  destruct (is_null v).
  - now rewrite Hnull.
  - destruct (attr_unique a || attr_primaryKey a).
    + rewrite Huniq by reflexivity. simpl.
      destruct (attr_references a) as [[t k]|]; [|reflexivity].
      now rewrite (Href eq_refl t k).
    + simpl. destruct (attr_references a) as [[t k]|]; [|reflexivity].
      now rewrite (Href eq_refl t k).
Qed.

Lemma check_column_duplicate db others c a v :
  has_type (attr_type a) v = true -> is_null v = false ->
  attr_unique a = true -> holds others c v = true ->
  check_column db others c a v = inl (UniqueConstraintError c).
Proof.
  intros Hty Hnull Hu Hh. unfold check_column.
  now rewrite Hty, Hnull, Hu, Hh.
Qed.

(** The next id of a table is not in use. *)
Lemma fresh_id tb : table_ok tb -> holds (rows tb) "id" (Int (nextId tb)) = false.
Proof.
  intros Hok. destruct (holds (rows tb) "id" (Int (nextId tb))) eqn:E;
    [|reflexivity].
  apply holds_spec in E. unfold column_values in E.
  apply in_map_iff in E as (r & Hid & Hr).
  pose proof (ok_next _ Hok r _ Hr Hid). lia.
Qed.

Lemma check_row_all db others cols r :
  (forall c a, In (c, a) cols -> check_column db others c a (get r c) = inr tt) ->
  check_row db others cols r = inr tt.
Proof.
  induction cols as [|[c a] cols IH]; simpl; [reflexivity|].
  intros H. rewrite (H c a) by now left. simpl. apply IH.
  intros c' a' Hin. apply H. now right.
Qed.

(** Checks a column of a concrete layout, given the facts at hand. *)
Ltac column_passes :=
  apply check_column_pass; simpl;
  try reflexivity; try (intros; discriminate); try (intros; assumption);
  try (intros ? ? ? [= <- <-]; assumption).

Ltac each_column Hin :=
  simpl in Hin;
  repeat (destruct Hin as [Hin|Hin];
          [injection Hin as <- <-; rewrite new_row_get; column_passes|]);
  try destruct Hin.

Lemma lease_insert_checks db tb d now :
  table_ok tb ->
  columns tb = create_queue_item.QueueItems \/ columns tb = sync QueueItem.init ->
  holds (rows tb) "dataItemId" (Int d) = false ->
  (columns tb = create_queue_item.QueueItems ->
   key_exists db "DataItems" "id" (Int d) = true) ->
  check_row db (rows tb) (columns tb)
    (new_row (columns tb) (nextId tb) (lease_insert d now)) = inr tt.
Proof.
  intros Hok Hcols Hfree Hitem. pose proof (fresh_id tb Hok) as Hid.
  apply check_row_all. intros c a Hin.
  destruct Hcols as [Hc|Hc]; rewrite Hc in *.
  - specialize (Hitem eq_refl). each_column Hin.
  - clear Hitem. each_column Hin.
Qed.

Lemma commit_inr {A} db (x : result (database * A)) db' a :
  commit db x = (db', inr a) <-> x = inr (db', a).
Proof.
  unfold commit. destruct x as [e|[db0 a0]]; split; intros H;
    try discriminate; congruence.
Qed.

Lemma QueueItem_create_inr db values now db' q :
  create QueueItem.init db values now = inr (db', q) ->
  table_insert db "QueueItems"
    (mapValueFieldNames (build QueueItem.init values now)
       (fields QueueItem.init)) = inr (db', q).
Proof. apply (create_inr QueueItem.init). reflexivity. Qed.

Lemma QueueItem_created_attribute values now c a :
  attribute_of c (fields QueueItem.init) = Some a -> is_virtual a = false ->
  c <> "id" -> c <> "createdAt" -> c <> "updatedAt" ->
  values !! c = None ->
  assigned_value c
    (mapValueFieldNames (build QueueItem.init values now) (fields QueueItem.init))
  = declared_default c (rawAttributes QueueItem.init).
Proof.
  intros Ha Hv H1 H2 H3 Hnone.
  rewrite (mapValueFieldNames_value _ _ c a Ha Hv).
  now apply build_missing.
Qed.

(** C7.  A queue item created without a status is stored with status
    ['pending'], and every lease or completion field the caller left out
    is null.  In particular the record made for a work item that has none
    yet, [QueueItem.create({ dataItemId })], is created and reads
    ['pending'] with no leasing or completing user and no timestamps. *)
Theorem queue_item_created_pending init db :
  starts init -> reachable init db ->
  (forall values now db' q,
      values !! "status" = None ->
      create QueueItem.init db values now = inr (db', q) ->
      In q (findAll QueueItem.init db')
      /\ get q "status" = Str "pending"
      /\ forall c,
           In c ["leasedById"; "leasedAt"; "completedById"; "completedAt"] ->
           values !! c = None -> get q c = Null)
  /\ (forall d now,
        key_exists db "DataItems" "id" (Int d) = true ->
        ~ In (Int d) (column_values "dataItemId" (findAll QueueItem.init db)) ->
        exists db' q,
          CreateForItem db d now = (db', inr q)
          /\ findAll QueueItem.init db' = findAll QueueItem.init db ++ [q]
          /\ get q "dataItemId" = Int d
          /\ get q "status" = Str "pending"
          /\ get q "leasedById" = Null /\ get q "leasedAt" = Null
          /\ get q "completedById" = Null /\ get q "completedAt" = Null).
Proof.
  intros Hs Hr.
  destruct (QueueItems_table init db Hs Hr) as (tb & Hf & Hok & Hcols).
  split.
  - intros values now db' q Hstatus Hcreate.
    apply QueueItem_create_inr in Hcreate.
    apply table_insert_inr in Hcreate as (tb' & Hf' & _ & Hq & _ & ->).
    rewrite Hf in Hf'. injection Hf' as <-.
    split; [|split].
    + rewrite (QueueItem_findAll _ _ (find_table_set_eq _ _ _ _ Hf)). simpl.
      apply in_app_iff. right. now left.
    + rewrite Hq, new_row_get.
      destruct (QueueItems_status _ Hcols) as (a & -> & _ & _ & Hauto & _).
      rewrite (QueueItem_created_attribute values now "status"
                 (define (ENUM ["pending"; "leased"; "completed"])
                    [allowNull false; defaultValue (Str "pending")]))
        by (reflexivity || congruence).
      simpl. now rewrite Hauto.
    + intros c Hc Hnone. rewrite Hq, new_row_get.
      simpl in Hc.
      destruct Hc as [<-|[<-|[<-|[<-|[]]]]];
        (erewrite QueueItem_created_attribute;
         [|reflexivity|reflexivity|congruence|congruence|congruence|exact Hnone]);
        destruct Hcols as [-> | ->]; reflexivity.
  - intros d now Hitem Hfree.
    rewrite (QueueItem_findAll db tb Hf) in *.
    assert (Hholds : holds (rows tb) "dataItemId" (Int d) = false).
    { destruct (holds (rows tb) "dataItemId" (Int d)) eqn:E; [|reflexivity].
      apply holds_spec in E. contradiction. }
    pose proof (lease_insert_checks db tb d now Hok Hcols Hholds (fun _ => Hitem))
      as Hcheck.
    set (q := new_row (columns tb) (nextId tb) (lease_insert d now)) in *.
    exists (set_table db "QueueItems"
              {| columns := columns tb; rows := rows tb ++ [q];
                 nextId := bump (nextId tb) q |}), q.
    split; [|split].
    + rewrite CreateForItem_eq. apply commit_inr.
      unfold table_insert. rewrite Hf.
      assert (check_known (columns tb) (lease_insert d now) = inr tt) as ->
        by (destruct Hcols as [-> | ->]; reflexivity).
      simpl. fold q. now rewrite Hcheck.
    + now rewrite (QueueItem_findAll _ _ (find_table_set_eq _ _ _ _ Hf)).
    + unfold q. rewrite !new_row_get.
      destruct Hcols as [-> | ->]; repeat split; reflexivity.
Qed.

Lemma check_row_second db others c1 a1 c2 a2 cols r e :
  check_column db others c1 a1 (get r c1) = inr tt ->
  check_column db others c2 a2 (get r c2) = inl e ->
  check_row db others ((c1, a1) :: (c2, a2) :: cols) r = inl e.
Proof. intros H1 H2. simpl. now rewrite H1, H2. Qed.

(** With a queue item stored for the data item, the [INSERT] of another
    one gets as far as the unique column and no further. *)
Lemma lease_insert_duplicate db tb d now :
  table_ok tb ->
  columns tb = create_queue_item.QueueItems \/ columns tb = sync QueueItem.init ->
  holds (rows tb) "dataItemId" (Int d) = true ->
  check_row db (rows tb) (columns tb)
    (new_row (columns tb) (nextId tb) (lease_insert d now))
  = inl DuplicateLease.
Proof.
  intros Hok Hcols Hdup. pose proof (fresh_id tb Hok) as Hid.
  destruct Hcols as [Hc|Hc]; rewrite Hc.
  - apply check_row_second; rewrite new_row_get.
    + column_passes.
    + now apply check_column_duplicate.
  - apply check_row_second; rewrite new_row_get.
    + column_passes.
    + now apply check_column_duplicate.
Qed.

Lemma find_last {A} (p : A -> bool) l x :
  (forall y, In y l -> p y = false) -> p x = true ->
  List.find p (l ++ [x]) = Some x.
Proof.
  intros Hl Hx. induction l as [|y l IH]; simpl.
  - now rewrite Hx.
  - rewrite (Hl y) by now left. apply IH. intros z Hz. apply Hl. now right.
Qed.

(** C5.  Once [CreateForItem] has made the lease record of a work item,
    a second call for the same work item fails with [DuplicateLease] and
    leaves the store exactly as it was: the record made by the first call
    is still the one found for the work item, with the status it was
    created with. *)
Theorem CreateForItem_twice init db item now now' db1 q :
  starts init -> reachable init db ->
  CreateForItem db item now = (db1, inr q) ->
  CreateForItem db1 item now' = (db1, inl DuplicateLease)
  /\ findOne QueueItem.init db1 "dataItemId" (Int item) = Some q
  /\ get q "status" = Str "pending".
Proof.
  intros Hs Hr Hfirst.
  destruct (QueueItems_table init db Hs Hr) as (tb & Hf & Hok & Hcols).
  rewrite CreateForItem_eq in Hfirst. apply commit_inr in Hfirst.
  assert (Hr1 : reachable init db1).
  { eapply reachable_step; [exact Hr|]. eapply step_insert; eauto. }
  destruct (QueueItems_table init db1 Hs Hr1) as (tb1 & Hf1 & Hok1 & Hcols1).
  apply table_insert_inr in Hfirst as (tb' & Hf' & _ & Hq & Hcheck & Hdb1).
  rewrite Hf in Hf'. injection Hf' as <-.
  assert (Hrows1 : rows tb1 = rows tb ++ [q]).
  { rewrite Hdb1 in Hf1. rewrite (find_table_set_eq _ _ _ _ Hf) in Hf1.
    injection Hf1 as <-. reflexivity. }
  assert (Hitem : get q "dataItemId" = Int item).
  { rewrite Hq, new_row_get. destruct Hcols as [-> | ->]; reflexivity. }
  assert (Hstatus : get q "status" = Str "pending").
  { rewrite Hq, new_row_get. destruct Hcols as [-> | ->]; reflexivity. }
  assert (Hfree : forall y, In y (rows tb) ->
             value_eqb (get y "dataItemId") (Int item) = false).
  { destruct (QueueItems_dataItemId _ Hcols) as (a & Ha & Hu & _ & _ & _).
    apply (check_row_In _ _ _ _ "dataItemId" a) in Hcheck;
      [|now apply attribute_of_In].
    apply check_column_ok in Hcheck as (_ & _ & _ & Hnot).
    rewrite Hu in Hnot. specialize (Hnot eq_refl). rewrite Hitem in Hnot.
    intros y Hy. unfold value_eqb. apply bool_decide_eq_false. intros E.
    apply Hnot. apply In_nonnull. split; [|discriminate].
    unfold column_values. apply in_map_iff. eauto. }
  split; [|split].
  - rewrite CreateForItem_eq. unfold table_insert. rewrite Hf1.
    assert (check_known (columns tb1) (lease_insert item now') = inr tt) as ->
      by (destruct Hcols1 as [-> | ->]; reflexivity).
    simpl. rewrite (lease_insert_duplicate db1 tb1 item now' Hok1 Hcols1);
      [reflexivity|].
    apply holds_spec. rewrite Hrows1. unfold column_values.
    apply in_map_iff. exists q. split; [exact Hitem|].
    apply in_app_iff. right. now left.
  - unfold findOne. rewrite (QueueItem_findAll db1 tb1 Hf1), Hrows1.
    apply find_last; [exact Hfree|].
    unfold value_eqb. now apply bool_decide_eq_true.
  - exact Hstatus.
Qed.

(** * Deletion in the migrated layout *)

Lemma migrated_shape db :
  layout_of db = layout_of migrated ->
  exists users items versions leases,
    db = migrated_tables users items versions leases.
Proof.
  intros H.
  destruct db as [|[t1 [c1 r1 n1]] [|[t2 [c2 r2 n2]] [|[t3 [c3 r3 n3]]
    [|[t4 [c4 r4 n4]] [|]]]]]; try discriminate H.
  injection H as -> -> -> -> -> -> -> ->.
  exists (r1, n1), (r2, n2), (r3, n3), (r4, n4). reflexivity.
Qed.

Lemma reachable_migrated_shape db :
  reachable migrated db ->
  exists users items versions leases,
    db = migrated_tables users items versions leases.
Proof.
  intros Hr. apply migrated_shape.
  now apply (reachable_ok migrated db migrated_ok).
Qed.

(** [DELETE FROM Users WHERE id = k]: the user's versions go with the
    user, the queue items stay and lose their references to the user. *)
Lemma delete_user_eq users items versions leases k :
  let dead := List.filter (has_id k) (fst users) in
  table_delete (migrated_tables users items versions leases) "Users" k =
  inr (migrated_tables
         (without dead (fst users), snd users)
         items
         (without
            (List.filter (refers_to dead "changedByUserId" "id") (fst versions))
            (fst versions), snd versions)
         (map (set_null dead "completedById" "id")
            (map (set_null dead "leasedById" "id") (fst leases)), snd leases)).
Proof. reflexivity. Qed.

(** [DELETE FROM DataItems WHERE id = k]: the item's versions and its
    queue item go with it. *)
Lemma delete_item_eq users items versions leases k :
  let dead := List.filter (has_id k) (fst items) in
  table_delete (migrated_tables users items versions leases) "DataItems" k =
  inr (migrated_tables
         users
         (without dead (fst items), snd items)
         (without
            (List.filter (refers_to dead "dataItemId" "id") (fst versions))
            (fst versions), snd versions)
         (without
            (List.filter (refers_to dead "dataItemId" "id") (fst leases))
            (fst leases), snd leases)).
Proof. reflexivity. Qed.

Lemma delete_version_eq users items versions leases k :
  table_delete (migrated_tables users items versions leases)
    "DataItemVersions" k =
  inr (migrated_tables users items
         (without (List.filter (has_id k) (fst versions)) (fst versions),
          snd versions)
         leases).
Proof. reflexivity. Qed.

Lemma delete_lease_eq users items versions leases k :
  table_delete (migrated_tables users items versions leases) "QueueItems" k =
  inr (migrated_tables users items versions
         (without (List.filter (has_id k) (fst leases)) (fst leases),
          snd leases)).
Proof. reflexivity. Qed.

(** The rows a deletion by id hits are the rows referring to that id. *)
Lemma refers_to_id rs k c r :
  (exists u, In u rs /\ has_id k u = true) ->
  refers_to (List.filter (has_id k) rs) c "id" r = value_eqb (get r c) (Int k).
Proof.
  intros (u & Hu & Hk). unfold refers_to.
  destruct (value_eqb (get r c) (Int k)) eqn:E.
  - unfold value_eqb in E. apply bool_decide_eq_true in E. rewrite E. simpl.
    apply holds_spec. unfold column_values. apply in_map_iff.
    exists u. split; [now apply has_id_spec|]. apply filter_In. auto.
  - destruct (is_null (get r c)); [reflexivity|]. simpl.
    destruct (holds _ "id" (get r c)) eqn:Hh; [|reflexivity].
    apply holds_spec in Hh. unfold column_values in Hh.
    apply in_map_iff in Hh as (u' & Hid & Hin). apply filter_In in Hin as [_ Hk'].
    apply has_id_spec in Hk'. unfold value_eqb in E.
    apply bool_decide_eq_false in E. congruence.
Qed.

Lemma without_filter p (rs : list row) :
  without (List.filter p rs) rs = List.filter (fun r => negb (p r)) rs.
Proof.
  unfold without. apply filter_ext_in. intros r Hr. f_equal.
  destruct (p r) eqn:E.
  - apply bool_decide_eq_true. apply list_elem_of_In. apply filter_In. auto.
  - apply bool_decide_eq_false. intros Hin. apply list_elem_of_In in Hin.
    apply filter_In in Hin. destruct Hin. congruence.
Qed.

(** ** Deleting a user *)

(** Decides the comparisons of column names in the goal. *)
Ltac column_names :=
  repeat match goal with
         | |- context [String.eqb ?a ?b] =>
             destruct (String.eqb_spec a b); try congruence; subst
         end.

Lemma forget_user_get k q c :
  get (forget_user k q) c =
  if (String.eqb c "leasedById" || String.eqb c "completedById")
     && value_eqb (get q c) (Int k)
  then Null else get q c.
Proof.
  unfold forget_user.
  destruct (value_eqb (get q "leasedById") (Int k)) eqn:E1; cbn zeta;
    rewrite ?get_insert; cbn [String.eqb Ascii.eqb Bool.eqb];
    destruct (value_eqb (get q "completedById") (Int k)) eqn:E2;
    rewrite ?get_insert; column_names; cbn [orb andb];
    rewrite ?E1, ?E2; reflexivity.
Qed.

Lemma set_null_forget_user rs k q :
  (exists u, In u rs /\ has_id k u = true) ->
  set_null (List.filter (has_id k) rs) "completedById" "id"
    (set_null (List.filter (has_id k) rs) "leasedById" "id" q)
  = forget_user k q.
Proof.
  intros Hu. unfold set_null, forget_user. now rewrite !refers_to_id.
Qed.

Lemma create_step m db values now db' r :
  create m db values now = inr (db', r) -> step db db'.
Proof.
  unfold create. destruct (run_hook _ _) as [e|dataValues]; simpl; [discriminate|].
  destruct (validate _ _) as [e|[]]; simpl; [discriminate|].
  apply step_insert.
Qed.

Lemma store_after_step {A} db (x : result (database * A)) :
  succeeded x = true -> (forall db' a, x = inr (db', a) -> step db db') ->
  step db (store_after x).
Proof.
  destruct x as [e|[db' a]]; simpl; [discriminate|eauto].
Qed.

Lemma with_user_reachable : reachable migrated with_user.
Proof.
  eapply reachable_step; [apply reachable_init|].
  apply store_after_step; [vm_compute; reflexivity|apply create_step].
Qed.

Lemma with_item_reachable : reachable migrated with_item.
Proof.
  eapply reachable_step; [apply with_user_reachable|].
  apply store_after_step; [vm_compute; reflexivity|apply create_step].
Qed.

Lemma with_lease_reachable : reachable migrated with_lease.
Proof.
  eapply reachable_step; [apply with_item_reachable|].
  apply store_after_step; [vm_compute; reflexivity|apply create_step].
Qed.

Lemma user_deleted_reachable : reachable migrated user_deleted.
Proof.
  eapply reachable_step; [apply with_lease_reachable|].
  apply (step_delete _ "Users" 1). vm_compute. reflexivity.
Qed.

(** C9.  In the migrated layout the deletion of a user succeeds and keeps
    every queue item: each one only loses its [leasedById] and
    [completedById] where they referred to that user, and every other
    column, the status and the timestamps among them, is as before.  So a
    queue item that is ['leased'] with no leasing user is a reachable
    state: the tests' lease, after its user is deleted. *)
Theorem user_deletion_nulls_lease_references :
  (forall bcrypt db k u,
      reachable migrated db ->
      In u (findAll (User.init bcrypt) db) -> get u "id" = Int k ->
      exists db',
        destroy (User.init bcrypt) db k = inr db'
        /\ findAll QueueItem.init db'
           = map (forget_user k) (findAll QueueItem.init db))
  /\ (forall k q,
        get (forget_user k q) "leasedById"
        = (if value_eqb (get q "leasedById") (Int k) then Null
           else get q "leasedById")
        /\ get (forget_user k q) "completedById"
           = (if value_eqb (get q "completedById") (Int k) then Null
              else get q "completedById")
        /\ forall c, c <> "leasedById" -> c <> "completedById" ->
                     get (forget_user k q) c = get q c)
  /\ (reachable migrated user_deleted
      /\ map (fun q => (get q "status", get q "leasedById", get q "leasedAt"))
           (findAll QueueItem.init user_deleted)
         = [(Str "leased", Null, Date 3)]).
Proof.
  split; [|split].
  - intros bcrypt db k u Hr Hu Hid.
    destruct (reachable_migrated_shape db Hr)
      as (users & items & versions & leases & ->).
    unfold destroy. change (tableName (User.init bcrypt)) with "Users".
    rewrite delete_user_eq. eexists. split; [reflexivity|].
    unfold findAll. simpl. rewrite map_map. apply map_ext. intros q.
    apply set_null_forget_user. exists u. split; [exact Hu|].
    now apply has_id_spec.
  - intros k q. rewrite !forget_user_get. repeat split.
    intros c H1 H2. rewrite forget_user_get. now column_names.
  - split; [apply user_deleted_reachable|]. vm_compute. reflexivity.
Qed.

(** * The version records: [DataItemVersions] *)

(** ** Permanence *)

Lemma with_version_reachable : reachable migrated with_version.
Proof.
  eapply reachable_step; [apply with_item_reachable|].
  apply store_after_step; [vm_compute; reflexivity|apply create_step].
Qed.

(** C3, as stated, fails: the version of [with_version] names user 1 as
    its author; deleting user 1 succeeds and leaves no version record. *)
Lemma version_deleted_with_its_user :
  reachable migrated with_version
  /\ map (fun v => get v "changedByUserId")
       (findAll DataItemVersion.init with_version) = [Int 1]
  /\ destroy (User.init marking_bcrypt) with_version 1
     = inr version_author_deleted
  /\ findAll DataItemVersion.init version_author_deleted = [].
Proof.
  split; [apply with_version_reachable|].
  repeat split; vm_compute; reflexivity.
Qed.

Lemma Versions_findAll users items versions leases :
  findAll DataItemVersion.init (migrated_tables users items versions leases)
  = fst versions.
Proof. reflexivity. Qed.

Lemma In_replace_row_other k r' rs (v : row) :
  In v rs -> has_id k v = false -> In v (replace_row k r' rs).
Proof.
  induction rs as [|r rs IH]; simpl; [tauto|].
  intros [->|Hin] Hv.
  - rewrite Hv. now left.
  - destruct (has_id k r); right; auto.
Qed.

(** A row that does not refer to a deleted row survives the cascade. *)
Lemma In_without_filter p rs (v : row) :
  In v rs -> p v = false -> In v (without (List.filter p rs) rs).
Proof.
  intros Hin Hp. rewrite without_filter. apply filter_In. now rewrite Hp.
Qed.

Lemma refers_to_deleted rs k c v :
  refers_to (List.filter (has_id k) rs) c "id" v = true -> get v c = Int k.
Proof.
  unfold refers_to. intros H. apply andb_true_iff in H as [_ H].
  apply holds_spec in H. unfold column_values in H.
  apply in_map_iff in H as (u & Hid & Hin). apply filter_In in Hin as [_ Hk].
  apply has_id_spec in Hk. congruence.
Qed.

Lemma find_table_other users items versions leases t :
  t <> "Users" -> t <> "DataItems" -> t <> "DataItemVersions" ->
  t <> "QueueItems" ->
  find_table (migrated_tables users items versions leases) t = None.
Proof.
  intros. unfold migrated_tables, find_table. now column_names.
Qed.

(** C3, amended.  In the migrated layout a stored version record is
    still there, unchanged, after any [INSERT], after any [UPDATE] other
    than one of the record itself, and after any [DELETE] other than that
    of the record itself, of its data item or of its acting user.  The
    last two do remove it: both references are declared
    [onDelete: 'CASCADE']. *)
Theorem version_kept_until_cascade db v :
  reachable migrated db ->
  In v (findAll DataItemVersion.init db) ->
  (forall t assigned db' r,
      table_insert db t assigned = inr (db', r) ->
      In v (findAll DataItemVersion.init db'))
  /\ (forall t k assigned db',
        table_update db t k assigned = inr db' ->
        (t = "DataItemVersions" -> get v "id" <> Int k) ->
        In v (findAll DataItemVersion.init db'))
  /\ (forall t k db',
        table_delete db t k = inr db' ->
        In v (findAll DataItemVersion.init db')
        \/ (t = "DataItemVersions" /\ get v "id" = Int k)
        \/ (t = "DataItems" /\ get v "dataItemId" = Int k)
        \/ (t = "Users" /\ get v "changedByUserId" = Int k))
  /\ (forall bcrypt k u,
        In u (findAll (User.init bcrypt) db) -> get u "id" = Int k ->
        get v "changedByUserId" = Int k ->
        exists db',
          destroy (User.init bcrypt) db k = inr db'
          /\ ~ In v (findAll DataItemVersion.init db'))
  /\ (forall k i,
        In i (findAll DataItem.init db) -> get i "id" = Int k ->
        get v "dataItemId" = Int k ->
        exists db',
          destroy DataItem.init db k = inr db'
          /\ ~ In v (findAll DataItemVersion.init db')).
Proof.
  intros Hr Hv.
  destruct (reachable_migrated_shape db Hr)
    as (users & items & versions & leases & ->).
  rewrite Versions_findAll in Hv.
  set (db := migrated_tables users items versions leases).
  assert (Hf : find_table db "DataItemVersions"
               = Some {| columns := create_data_item_version.DataItemVersions;
                         rows := fst versions; nextId := snd versions |})
    by reflexivity.
  assert (Hall : forall db' tb',
             find_table db' "DataItemVersions" = Some tb' ->
             findAll DataItemVersion.init db' = rows tb').
  { intros db' tb' H. unfold findAll.
    change (tableName DataItemVersion.init) with "DataItemVersions".
    now rewrite H. }
  split; [|split; [|split; [|split]]].
  - intros t assigned db' r H.
    apply table_insert_inr in H as (tb & Hft & _ & _ & _ & ->).
    destruct (String.eqb_spec t "DataItemVersions") as [->|Hne].
    + rewrite (Hall _ _ (find_table_set_eq _ _ _ _ Hft)). simpl.
      rewrite Hf in Hft. injection Hft as <-. simpl.
      apply in_app_iff. now left.
    + erewrite Hall; [|rewrite find_table_set_ne by exact Hne; exact Hf].
      exact Hv.
  - intros t k assigned db' H Hother.
    apply table_update_inr in H as [->|(tb & r & Hft & _ & _ & ->)].
    { erewrite Hall; [|exact Hf]. exact Hv. }
    destruct (String.eqb_spec t "DataItemVersions") as [->|Hne].
    + rewrite (Hall _ _ (find_table_set_eq _ _ _ _ Hft)). simpl.
      rewrite Hf in Hft. injection Hft as <-. simpl.
      apply In_replace_row_other; [exact Hv|].
      destruct (has_id k v) eqn:E; [|reflexivity].
      apply has_id_spec in E. now destruct (Hother eq_refl).
    + erewrite Hall; [|rewrite find_table_set_ne by exact Hne; exact Hf].
      exact Hv.
  - intros t k db' H.
    destruct (String.eqb_spec t "Users") as [->|H1].
    { unfold db in H. rewrite delete_user_eq in H. injection H as <-.
      rewrite Versions_findAll. cbn [fst].
      destruct (refers_to (List.filter (has_id k) (fst users))
                  "changedByUserId" "id" v) eqn:E.
      - right. right. right. split; [reflexivity|].
        now apply refers_to_deleted in E.
      - left. now apply In_without_filter. }
    destruct (String.eqb_spec t "DataItems") as [->|H2].
    { unfold db in H. rewrite delete_item_eq in H. injection H as <-.
      rewrite Versions_findAll. cbn [fst].
      destruct (refers_to (List.filter (has_id k) (fst items))
                  "dataItemId" "id" v) eqn:E.
      - right. right. left. split; [reflexivity|].
        now apply refers_to_deleted in E.
      - left. now apply In_without_filter. }
    destruct (String.eqb_spec t "DataItemVersions") as [->|H3].
    { unfold db in H. rewrite delete_version_eq in H. injection H as <-.
      rewrite Versions_findAll. cbn [fst].
      destruct (has_id k v) eqn:E.
      - right. left. split; [reflexivity|]. now apply has_id_spec.
      - left. now apply In_without_filter. }
    destruct (String.eqb_spec t "QueueItems") as [->|H4].
    { unfold db in H. rewrite delete_lease_eq in H. injection H as <-.
      left. exact Hv. }
    unfold table_delete in H. unfold db in H.
    rewrite find_table_other in H by assumption. discriminate.
  - intros bcrypt k u Hu Hid Hby.
    unfold destroy. change (tableName (User.init bcrypt)) with "Users".
    unfold db. rewrite delete_user_eq. eexists. split; [reflexivity|].
    rewrite Versions_findAll. cbn [fst]. rewrite without_filter.
    intros Hin. apply filter_In in Hin as [_ Hin].
    rewrite refers_to_id in Hin.
    + unfold value_eqb in Hin. rewrite bool_decide_eq_true_2 in Hin by exact Hby.
      discriminate.
    + exists u. split; [exact Hu|]. now apply has_id_spec.
  - intros k i Hi Hid Hof.
    unfold destroy. change (tableName DataItem.init) with "DataItems".
    unfold db. rewrite delete_item_eq. eexists. split; [reflexivity|].
    rewrite Versions_findAll. cbn [fst]. rewrite without_filter.
    intros Hin. apply filter_In in Hin as [_ Hin].
    rewrite refers_to_id in Hin.
    + unfold value_eqb in Hin. rewrite bool_decide_eq_true_2 in Hin by exact Hof.
      discriminate.
    + exists i. split; [exact Hi|]. now apply has_id_spec.
Qed.

(** ** The layout of the version records *)

Lemma DataItemVersions_table init db :
  starts init -> reachable init db ->
  exists tb, find_table db "DataItemVersions" = Some tb /\ table_ok tb
             /\ ((init = migrated
                  /\ columns tb = create_data_item_version.DataItemVersions)
                 \/ (init = synced /\ columns tb = sync DataItemVersion.init)).
Proof.
  intros Hs Hr. pose proof (starts_ok init Hs) as Hok. destruct Hs as [->| ->].
  - destruct (reachable_table migrated db "DataItemVersions"
                create_data_item_version.DataItemVersions Hok Hr eq_refl)
      as (tb & ? & ? & ?).
    exists tb. auto.
  - destruct (reachable_table synced db "DataItemVersions"
                (sync DataItemVersion.init) Hok Hr eq_refl) as (tb & ? & ? & ?).
    exists tb. auto.
Qed.

Lemma DataItemVersion_findAll db tb :
  find_table db "DataItemVersions" = Some tb ->
  findAll DataItemVersion.init db = rows tb.
Proof.
  intros H. unfold findAll.
  change (tableName DataItemVersion.init) with "DataItemVersions".
  now rewrite H.
Qed.

(** An [INSERT] that names a column the table does not have fails. *)
Lemma check_known_unknown cols assigned c v :
  assigned_value c assigned = Some v -> attribute_of c cols = None ->
  exists e, check_known cols assigned = inl e.
Proof.
  induction assigned as [|[c' v'] assigned IH]; simpl; [discriminate|].
  destruct (String.eqb_spec c' c) as [->|Hne].
  - intros _ ->. eauto.
  - intros Hv Hc. destruct (attribute_of c' cols); eauto.
Qed.

Lemma insert_unknown_column db t tb assigned c v :
  find_table db t = Some tb ->
  assigned_value c assigned = Some v -> attribute_of c (columns tb) = None ->
  exists e, table_insert db t assigned = inl e.
Proof.
  intros Hf Hv Hc. unfold table_insert. rewrite Hf.
  destruct (check_known_unknown (columns tb) assigned c v Hv Hc) as [e He].
  rewrite He. simpl. eauto.
Qed.

Lemma synced_user_reachable : reachable synced synced_user.
Proof.
  eapply reachable_step; [apply reachable_init|].
  apply store_after_step; [vm_compute; reflexivity|apply create_step].
Qed.

Lemma synced_item_reachable : reachable synced synced_item.
Proof.
  eapply reachable_step; [apply synced_user_reachable|].
  apply store_after_step; [vm_compute; reflexivity|apply create_step].
Qed.

Lemma synced_version_reachable : reachable synced synced_version.
Proof.
  eapply reachable_step; [apply synced_item_reachable|].
  apply store_after_step; [vm_compute; reflexivity|apply create_step].
Qed.

Lemma synced_version_again_reachable : reachable synced synced_version_again.
Proof.
  eapply reachable_step; [apply synced_version_reachable|].
  apply store_after_step; [vm_compute; reflexivity|apply create_step].
Qed.

(** C8.  The model declares the sequence number and the corrected fields,
    and in the layout of [sync] the tests' version record is stored with
    them.  The migration creates [DataItemVersions] without any of these
    columns: there the same [create] fails on the first of them, and so
    does every [create] that gives a value for one. *)
Theorem version_fields_missing_from_migration :
  (forall c, In c version_fields ->
     attribute_of c (rawAttributes DataItemVersion.init) <> None
     /\ attribute_of c create_data_item_version.DataItemVersions = None)
  /\ create DataItemVersion.init with_item tested_version 3
     = inl (UnknownColumn "version")
  /\ (forall db values now c v,
        reachable migrated db -> In c version_fields ->
        values !! c = Some v ->
        exists e, create DataItemVersion.init db values now = inl e)
  /\ option_map
       (fun v => (get v "dataItemId", get v "changedByUserId",
                  get v "version", get v "accessionId"))
       (created (create DataItemVersion.init synced_item tested_version 3))
     = Some (Int 1, Int 1, Int 1, Str "ABC-123").
Proof.
  split; [|split; [|split]].
  - intros c Hc. simpl in Hc.
    destruct Hc as [<-|[<-|[<-|[<-|[<-|[]]]]]]; split; (discriminate || reflexivity).
  - vm_compute. reflexivity.
  - intros db values now c v Hr Hc Hv.
    destruct (DataItemVersions_table migrated db (or_introl eq_refl) Hr)
      as (tb & Hf & _ & [[_ Hcols]|[Habs _]]); [|discriminate Habs].
    apply (create_fails DataItemVersion.init); [reflexivity|].
    apply (insert_unknown_column db _ tb _ c v Hf); [|rewrite Hcols].
    + simpl in Hc.
      destruct Hc as [<-|[<-|[<-|[<-|[<-|[]]]]]];
        (erewrite mapValueFieldNames_value; [|reflexivity|reflexivity]);
        apply build_given; first [exact Hv|congruence].
    + simpl in Hc. destruct Hc as [<-|[<-|[<-|[<-|[<-|[]]]]]]; reflexivity.
  - vm_compute. reflexivity.
Qed.

(** C2, as stated, fails.  Neither layout has a constraint on the pair of
    the data item and the sequence number: in the layout of [sync] the
    tests' version record is accepted a second time, so that data item 1
    has two records numbered 1; the migrated layout has no [version]
    column at all. *)
Lemma duplicate_sequence_number_accepted :
  reachable synced synced_version_again
  /\ map (fun v => (get v "dataItemId", get v "version"))
       (findAll DataItemVersion.init synced_version_again)
     = [(Int 1, Int 1); (Int 1, Int 1)]
  /\ attribute_of "version" create_data_item_version.DataItemVersions = None.
Proof.
  split; [apply synced_version_again_reachable|].
  split; vm_compute; reflexivity.
Qed.

(** What both layouts say of the [id] of a version record. *)
Lemma DataItemVersions_id cols :
  cols = create_data_item_version.DataItemVersions
  \/ cols = sync DataItemVersion.init ->
  exists a, attribute_of "id" cols = Some a
            /\ attr_type a = INTEGER /\ attr_primaryKey a = true
            /\ attr_allowNull a = false /\ attr_autoIncrement a = true
            /\ pinned cols "id" = true.
Proof.
  intros [->| ->]; eexists; (split; [reflexivity|]); repeat split; reflexivity.
Qed.

Lemma integer_value a v :
  attr_type a = INTEGER -> has_type (attr_type a) v = true -> v <> Null ->
  exists n, v = Int n.
Proof.
  intros -> Hty Hnn. destruct v; simpl in Hty; try discriminate; eauto.
  contradiction.
Qed.

Lemma version_create_eq db d n u now :
  create DataItemVersion.init db
    (<["dataItemId" := Int d]>
       (<["version" := Int n]> {[ "changedByUserId" := Int u ]})) now
  = table_insert db "DataItemVersions" (version_insert d n u now).
Proof. reflexivity. Qed.

(** C2, amended.  What the storage gives a version record is its [id]:
    in every state the ids of the version records are distinct.  The
    sequence number is not constrained: in the layout of [sync] a record
    is accepted for an existing data item and user with any number an
    [INTEGER] column holds (32 bits), whatever is stored already; the
    migrated layout has no [version] column. *)
Theorem version_ids_distinct_numbers_free init db :
  starts init -> reachable init db ->
  NoDup (column_values "id" (findAll DataItemVersion.init db))
  /\ (init = synced ->
      forall d n u now,
        - 2147483648 <= n <= 2147483647 ->
        key_exists db "DataItems" "id" (Int d) = true ->
        key_exists db "Users" "id" (Int u) = true ->
        exists db' v,
          create DataItemVersion.init db
            (<["dataItemId" := Int d]>
               (<["version" := Int n]> {[ "changedByUserId" := Int u ]})) now
          = inr (db', v)
          /\ findAll DataItemVersion.init db'
             = findAll DataItemVersion.init db ++ [v]
          /\ get v "dataItemId" = Int d /\ get v "version" = Int n)
  /\ (init = migrated ->
      forall tb, find_table db "DataItemVersions" = Some tb ->
                 attribute_of "version" (columns tb) = None).
Proof.
  intros Hs Hr.
  destruct (DataItemVersions_table init db Hs Hr) as (tb & Hf & Hok & Hcols).
  rewrite (DataItemVersion_findAll db tb Hf).
  assert (Hcols' : columns tb = create_data_item_version.DataItemVersions
                   \/ columns tb = sync DataItemVersion.init) by tauto.
  destruct (DataItemVersions_id _ Hcols') as (a & Ha & Hty & Hpk & Hnn & Hauto & Hp).
  pose proof (attribute_of_In _ _ _ Ha) as Hin.
  assert (Hint : forall w, In w (rows tb) -> exists i, get w "id" = Int i).
  { intros w Hw. apply (integer_value a); [exact Hty| |].
    - eapply (ok_typed _ Hok); eauto.
    - eapply (ok_not_null _ Hok); eauto. }
  split; [|split].
  - rewrite <- (nonnull_all (column_values "id" (rows tb))).
    + apply (ok_unique _ Hok "id" a Hin). now rewrite Hpk, orb_true_r.
    + intros v Hv. unfold column_values in Hv.
      apply in_map_iff in Hv as (w & <- & Hw).
      destruct (Hint w Hw) as [i ->]. discriminate.
  - intros -> d n u now _ Hd Hu.
    destruct Hcols as [[Habs _]|[_ Hc]]; [discriminate Habs|].
    pose proof (fresh_id tb Hok) as Hid.
    set (v := new_row (columns tb) (nextId tb) (version_insert d n u now)).
    assert (Hcheck : check_row db (rows tb) (columns tb) v = inr tt).
    { unfold v. apply check_row_all. intros c a' Hca. rewrite Hc in *.
      each_column Hca. }
    exists (set_table db "DataItemVersions"
              {| columns := columns tb; rows := rows tb ++ [v];
                 nextId := bump (nextId tb) v |}), v.
    split; [|split].
    + rewrite version_create_eq. unfold table_insert. rewrite Hf.
      assert (check_known (columns tb) (version_insert d n u now) = inr tt)
        as -> by (rewrite Hc; reflexivity).
      simpl. fold v. now rewrite Hcheck.
    + now rewrite (DataItemVersion_findAll _ _ (find_table_set_eq _ _ _ _ Hf)).
    + unfold v. rewrite !new_row_get, Hc. split; reflexivity.
  - intros -> tb' Hf'. rewrite Hf in Hf'. injection Hf' as <-.
    destruct Hcols as [[_ ->]|[Habs _]]; [reflexivity|discriminate Habs].
Qed.

(** * Users and their passwords *)

Lemma Users_table init db :
  starts init -> reachable init db ->
  exists tb, find_table db "Users" = Some tb /\ table_ok tb
             /\ columns tb = layout User.attributes.
Proof.
  intros Hs Hr. pose proof (starts_ok init Hs) as Hok. destruct Hs as [->| ->].
  - destruct (reachable_table migrated db "Users" (layout User.attributes)
                Hok Hr eq_refl) as (tb & ? & ? & ?).
    exists tb. auto.
  - destruct (reachable_table synced db "Users" (layout User.attributes)
                Hok Hr eq_refl) as (tb & ? & ? & ?).
    exists tb. auto.
Qed.

(** A stored row binds the columns of its table and nothing else. *)
Lemma new_row_lookup_none cols next assigned c :
  attribute_of c cols = None -> new_row cols next assigned !! c = None.
Proof.
  induction cols as [|[c' a'] cols IH]; simpl; [reflexivity|].
  destruct (String.eqb_spec c' c) as [->|Hne]; [discriminate|].
  intros H. rewrite lookup_insert_ne by exact Hne. auto.
Qed.

Lemma create_hook_inr m h db values now dataValues db' r :
  beforeValidate m = Some h ->
  h (build m values now) = inr dataValues ->
  create m db values now = inr (db', r) ->
  table_insert db (tableName m) (mapValueFieldNames dataValues (fields m))
  = inr (db', r).
Proof.
  intros Hh Hdv. unfold create. rewrite Hh. simpl. rewrite Hdv. simpl.
  destruct (validate (rawAttributes m) dataValues) as [e|[]]; simpl;
    [discriminate|auto].
Qed.

Section password.

Variable bcrypt : Bcrypt.

(** What [bcrypt] promises: a password compares equal to each of its
    hashes, and no hash is the password it was made from. *)
Hypothesis compare_hash :
  forall password salt,
    compare bcrypt password (hash bcrypt password salt) = true.
Hypothesis hash_not_plain :
  forall password salt, hash bcrypt password salt <> password.

Lemma hook_hashes (user : row) p :
  user !! "password" = Some (Str p) -> p <> "" ->
  User.hooks_beforeValidate bcrypt user
  = inr (<["passwordHash" := Str (hash bcrypt p (genSalt bcrypt 10))]> user).
Proof.
  intros Hp Hne. unfold User.hooks_beforeValidate, get. rewrite Hp. simpl.
  destruct (String.eqb_spec p ""); [contradiction|reflexivity].
Qed.

(** C10.  A user created with a non-empty password [p] is stored with
    the [bcrypt] hash of [p] as [passwordHash]; that hash is not [p]
    itself, the stored row has no [password] at all, and
    [verifyPassword(p)] on the stored user is true. *)
Theorem password_hash_round_trip init db values now p db' u :
  starts init -> reachable init db ->
  values !! "password" = Some (Str p) -> p <> "" ->
  create (User.init bcrypt) db values now = inr (db', u) ->
  In u (findAll (User.init bcrypt) db')
  /\ get u "passwordHash" = Str (hash bcrypt p (genSalt bcrypt 10))
  /\ get u "passwordHash" <> Str p
  /\ u !! "password" = None
  /\ User.verifyPassword bcrypt u p = true.
Proof.
  intros Hs Hr Hp Hne Hcreate.
  destruct (Users_table init db Hs Hr) as (tb & Hf & Hok & Hcols).
  apply (create_hook_inr (User.init bcrypt) (User.hooks_beforeValidate bcrypt)
           db values now
           (<["passwordHash" := Str (hash bcrypt p (genSalt bcrypt 10))]>
              (build (User.init bcrypt) values now))) in Hcreate;
    [|reflexivity
     |apply hook_hashes; [apply build_given; [congruence..|exact Hp]|exact Hne]].
  apply table_insert_inr in Hcreate as (tb' & Hf' & _ & Hu & _ & ->).
  change (tableName (User.init bcrypt)) with "Users" in *.
  rewrite Hf in Hf'. injection Hf' as <-.
  assert (Hhash : get u "passwordHash"
                  = Str (hash bcrypt p (genSalt bcrypt 10))).
  { rewrite Hu, new_row_get, Hcols.
    change (attribute_of "passwordHash" (layout User.attributes))
      with (Some (define STRING [allowNull false])).
    rewrite (mapValueFieldNames_value _ _ "passwordHash"
               (define STRING [allowNull false])) by reflexivity.
    now rewrite lookup_insert_eq. }
  split; [|split; [|split; [|split]]].
  - unfold findAll. change (tableName (User.init bcrypt)) with "Users".
    rewrite (find_table_set_eq _ _ _ _ Hf). simpl.
    apply in_app_iff. right. now left.
  - exact Hhash.
  - rewrite Hhash. intros [= H]. now apply hash_not_plain in H.
  - rewrite Hu. apply new_row_lookup_none. now rewrite Hcols.
  - unfold User.verifyPassword. rewrite Hhash. apply compare_hash.
Qed.

End password.

(** * The theorems at the tests' scenario *)

Lemma In_hd {A} (d : A) l : Nat.eqb (length l) 0 = false -> In (hd d l) l.
Proof. destruct l; simpl; [discriminate|auto]. Qed.

Lemma succeeded_inr {A} (x : result (database * A)) d :
  succeeded x = true -> x = inr (store_after x, default d (created x)).
Proof. destruct x as [e|[db a]]; simpl; [discriminate|reflexivity]. Qed.

Lemma one_queue_item_witness :
  NoDup (column_values "dataItemId" (findAll QueueItem.init with_lease))
  /\ exists e,
       create QueueItem.init with_lease {[ "dataItemId" := Int 1 ]} 4 = inl e.
Proof.
  destruct (one_queue_item_per_data_item migrated with_lease
              (or_introl eq_refl) with_lease_reachable) as (H1 & H2 & _).
  split; [exact H1|].
  apply (H2 tested_lease); [apply In_hd|]; vm_compute; reflexivity.
Defined.

Lemma CreateForItem_twice_witness :
  CreateForItem with_pending 1 4 = (with_pending, inl DuplicateLease)
  /\ findOne QueueItem.init with_pending "dataItemId" (Int 1)
     = Some pending_lease
  /\ get pending_lease "status" = Str "pending".
Proof.
  apply (CreateForItem_twice migrated with_item 1 3 4 with_pending pending_lease
           (or_introl eq_refl) with_item_reachable).
  apply commit_inr. apply succeeded_inr. vm_compute. reflexivity.
Defined.

Lemma created_pending_witness :
  exists db' q,
    CreateForItem with_item 1 3 = (db', inr q)
    /\ findAll QueueItem.init db' = findAll QueueItem.init with_item ++ [q]
    /\ get q "dataItemId" = Int 1
    /\ get q "status" = Str "pending"
    /\ get q "leasedById" = Null /\ get q "leasedAt" = Null
    /\ get q "completedById" = Null /\ get q "completedAt" = Null.
Proof.
  destruct (queue_item_created_pending migrated with_item
              (or_introl eq_refl) with_item_reachable) as (_ & H).
  apply H; [vm_compute; reflexivity|].
  vm_compute. intros H0. exact H0.
Defined.

Lemma version_numbers_free_witness :
  NoDup (column_values "id" (findAll DataItemVersion.init synced_version))
  /\ exists db' v,
       create DataItemVersion.init synced_version
         (<["dataItemId" := Int 1]>
            (<["version" := Int 1]> {[ "changedByUserId" := Int 1 ]})) 4
       = inr (db', v)
       /\ findAll DataItemVersion.init db'
          = findAll DataItemVersion.init synced_version ++ [v]
       /\ get v "dataItemId" = Int 1 /\ get v "version" = Int 1.
Proof.
  destruct (version_ids_distinct_numbers_free synced synced_version
              (or_intror eq_refl) synced_version_reachable)
    as (H1 & H3 & _).
  split; [exact H1|].
  apply (H3 eq_refl); [lia|vm_compute; reflexivity..].
Defined.

Lemma version_cascade_witness :
  exists db',
    destroy (User.init marking_bcrypt) with_version 1 = inr db'
    /\ ~ In stored_version (findAll DataItemVersion.init db').
Proof.
  assert (Hv : In stored_version (findAll DataItemVersion.init with_version))
    by (apply In_hd; vm_compute; reflexivity).
  destruct (version_kept_until_cascade with_version stored_version
              with_version_reachable Hv) as (_ & _ & _ & H & _).
  apply (H marking_bcrypt 1
           (hd ∅ (findAll (User.init marking_bcrypt) with_version)));
    [apply In_hd|..]; vm_compute; reflexivity.
Defined.

Lemma marking_not_plain p : ("$" ++ p)%string <> p.
Proof.
  simpl. induction p as [|a p IH]; [discriminate|].
  intros [= <- H]. now apply IH.
Qed.

Lemma password_round_trip_witness :
  In tested_user (findAll (User.init marking_bcrypt) with_user)
  /\ get tested_user "passwordHash"
     = Str (hash marking_bcrypt "password123" (genSalt marking_bcrypt 10))
  /\ get tested_user "passwordHash" <> Str "password123"
  /\ tested_user !! "password" = None
  /\ User.verifyPassword marking_bcrypt tested_user "password123" = true.
Proof.
  apply (password_hash_round_trip marking_bcrypt
           (fun password salt => String.eqb_refl _)
           (fun password salt => marking_not_plain password)
           migrated migrated
           (<["username" := Str "assoc_user"]>
              {[ "password" := Str "password123" ]})
           1 "password123" with_user tested_user
           (or_introl eq_refl) (reachable_init migrated)).
  - vm_compute. reflexivity.
  - discriminate.
  - apply succeeded_inr. vm_compute. reflexivity.
Defined.

(** * The lease queue: what its operations keep *)

(** ** Completed is terminal *)

Lemma update_inr m db k values now db' :
  beforeValidate m = None ->
  update m db k values now = inr db' ->
  table_update db (tableName m) k
    (mapValueFieldNames (<["updatedAt" := Date now]> values) (fields m))
  = inr db'.
Proof.
  intros Hh. unfold update. rewrite Hh. simpl.
  destruct (validate_changed (rawAttributes m) values) as [e|[]]; simpl;
    [discriminate|auto].
Qed.

Lemma update_step m db k values now db' :
  update m db k values now = inr db' -> step db db'.
Proof.
  unfold update. destruct (run_hook _ _) as [e|dataValues]; simpl; [discriminate|].
  destruct (validate_changed _ _) as [e|[]]; simpl; [discriminate|].
  apply step_update.
Qed.

Lemma first_pending_spec rs : forall best q,
  first_pending rs best = Some q ->
  best = Some q \/ (In q rs /\ has_status "pending" q = true).
Proof.
  induction rs as [|r rs IH]; simpl; intros best q H; [now left|].
  destruct (has_status "pending" r) eqn:E.
  - destruct best as [b|].
    + destruct (Z.ltb (item_of r) (item_of b)).
      * destruct (IH _ _ H) as [[= ->]|[H1 H2]]; auto.
      * destruct (IH _ _ H) as [H0|[H1 H2]]; auto.
    + destruct (IH _ _ H) as [[= ->]|[H1 H2]]; auto.
  - destruct (IH _ _ H) as [H0|[H1 H2]]; auto.
Qed.

Lemma find_replace_other {A} (p : A -> bool) l1 l2 x x' q :
  List.find p (l1 ++ x :: l2) = Some q -> q <> x -> p x' = p x ->
  List.find p (l1 ++ x' :: l2) = Some q.
Proof.
  intros H Hne Hp. induction l1 as [|a l1 IH]; simpl in *.
  - rewrite Hp. destruct (p x); [|exact H]. injection H as <-. contradiction.
  - destruct (p a); auto.
Qed.

Lemma find_app_l {A} (p : A -> bool) l1 l2 q :
  List.find p l1 = Some q -> List.find p (l1 ++ l2) = Some q.
Proof.
  induction l1 as [|a l1 IH]; simpl; [discriminate|].
  destruct (p a); auto.
Qed.

Lemma QueueItems_id cols :
  cols = create_queue_item.QueueItems \/ cols = sync QueueItem.init ->
  exists a, attribute_of "id" cols = Some a
            /\ attr_type a = INTEGER /\ attr_allowNull a = false
            /\ pinned cols "id" = true.
Proof.
  intros [->| ->]; eexists; (split; [reflexivity|]); repeat split; reflexivity.
Qed.

Lemma lease_id tb x :
  table_ok tb ->
  columns tb = create_queue_item.QueueItems \/ columns tb = sync QueueItem.init ->
  In x (rows tb) -> get x "id" = Int (id_of x).
Proof.
  intros Hok Hcols Hx.
  destruct (QueueItems_id _ Hcols) as (a & Ha & Hty & Hnn & Hp).
  apply attribute_of_In in Ha.
  destruct (integer_value a (get x "id") Hty) as [n Hn].
  - eapply (ok_typed _ Hok); eauto.
  - eapply (ok_not_null _ Hok); eauto.
  - unfold id_of. now rewrite Hn.
Qed.

Lemma lease_of_rows db tb item :
  find_table db "QueueItems" = Some tb ->
  lease_of db item
  = List.find (fun r => value_eqb (get r "dataItemId") (Int item)) (rows tb).
Proof.
  intros Hf. unfold lease_of, findOne. now rewrite (QueueItem_findAll db tb Hf).
Qed.

(** An update of one lease record that leaves [dataItemId] alone does
    not change which record is found for another work item. *)
Lemma lease_update_other db tb values now db' item q x :
  find_table db "QueueItems" = Some tb -> table_ok tb ->
  columns tb = create_queue_item.QueueItems \/ columns tb = sync QueueItem.init ->
  In x (rows tb) -> values !! "dataItemId" = None ->
  update QueueItem.init db (id_of x) values now = inr db' ->
  lease_of db item = Some q -> q <> x ->
  lease_of db' item = Some q.
Proof.
  intros Hf Hok Hcols Hx Hvals Hup Hq Hne.
  apply (update_inr QueueItem.init) in Hup; [|reflexivity].
  change (tableName QueueItem.init) with "QueueItems" in Hup.
  apply table_update_inr in Hup as [->|(tb0 & r & Hf0 & Hfind & _ & ->)];
    [exact Hq|].
  rewrite Hf in Hf0. injection Hf0 as <-.
  destruct (find_split _ _ _ Hfind) as (l1 & l2 & Hrows & Hr & Hl1).
  pose proof (unique_id_split tb _ l1 r l2 Hok Hrows Hr) as Hl2.
  assert (Hxr : x = r).
  { assert (Hidx : has_id (id_of x) x = true)
      by (apply has_id_spec; now apply (lease_id tb)).
    rewrite Hrows in Hx. apply in_app_iff in Hx as [Hx|[Hx|Hx]]; [|auto|].
    - rewrite (Hl1 x Hx) in Hidx. discriminate.
    - rewrite (Hl2 x Hx) in Hidx. discriminate. }
  subst x.
  rewrite (lease_of_rows _ _ item (find_table_set_eq _ _ _ _ Hf)). cbn [rows].
  rewrite (lease_of_rows db tb item Hf), Hrows in Hq.
  rewrite Hrows, (replace_row_split _ _ l1 r l2 Hl1 Hr).
  apply (find_replace_other _ l1 l2 r); [exact Hq|exact Hne|]. cbv beta.
  rewrite assign_get, mapValueFieldNames_none; [reflexivity|].
  rewrite lookup_insert_ne by discriminate. exact Hvals.
Qed.

Lemma has_status_differs s s' q x :
  has_status s q = true -> has_status s' x = true -> s <> s' -> q <> x.
Proof.
  unfold has_status, value_eqb. intros Hq Hx Hs ->.
  apply bool_decide_eq_true in Hq, Hx. congruence.
Qed.

Lemma lease_of_In db tb item q :
  find_table db "QueueItems" = Some tb -> lease_of db item = Some q ->
  In q (rows tb).
Proof.
  intros Hf H. rewrite (lease_of_rows db tb item Hf) in H.
  now apply find_some in H.
Qed.

(** Every operation of the lease queue leads to a reachable store. *)
Lemma run_reachable init db op :
  reachable init db -> reachable init (run op db).
Proof.
  intros Hr. destruct op as [user now|item user now|item user fields now|item now];
    simpl.
  - unfold AcquireNext. destruct (first_pending _ _) as [q|]; [|exact Hr].
    destruct (update _ _ _ _ _) as [e|db'] eqn:E; [exact Hr|]. simpl.
    eapply reachable_step; eauto using update_step.
  - unfold Release. destruct (lease_of db item) as [q|]; [|exact Hr].
    destruct (negb _); [exact Hr|]. destruct (negb _); [exact Hr|].
    destruct (update _ _ _ _ _) as [e|db'] eqn:E; [exact Hr|]. simpl.
    eapply reachable_step; eauto using update_step.
  - unfold Complete. destruct (lease_of db item) as [q|]; [|exact Hr].
    destruct (negb _); [exact Hr|]. destruct (negb _); [exact Hr|].
    destruct (RecordVersion _ _ _ _ _) as [e|[db1 v]] eqn:E1; [exact Hr|].
    destruct (update _ _ _ _ _) as [e|db2] eqn:E2; [exact Hr|]. simpl.
    eapply reachable_step; [|eapply update_step; exact E2].
    eapply reachable_step; [exact Hr|]. eapply create_step. exact E1.
  - unfold CreateForItem, commit.
    destruct (create _ _ _ _) as [e|[db' q]] eqn:E; [exact Hr|]. simpl.
    eapply reachable_step; eauto using create_step.
Qed.

(** No operation moves a completed lease record. *)
Lemma completed_stays init db item q op :
  starts init -> reachable init db ->
  lease_of db item = Some q -> get q "status" = Str "completed" ->
  lease_of (run op db) item = Some q.
Proof.
  intros Hs Hr Hq Hdone.
  destruct (QueueItems_table init db Hs Hr) as (tb & Hf & Hok & Hcols).
  assert (Hcompleted : has_status "completed" q = true).
  { unfold has_status, value_eqb. now apply bool_decide_eq_true. }
  destruct op as [user now|item' user now|item' user fields now|item' now];
    simpl.
  - unfold AcquireNext.
    destruct (first_pending _ _) as [x|] eqn:Hx; [|exact Hq].
    destruct (update _ _ _ _ _) as [e|db'] eqn:E; [exact Hq|]. simpl.
    apply first_pending_spec in Hx as [Habs|[Hin Hpending]]; [discriminate|].
    rewrite (QueueItem_findAll db tb Hf) in Hin.
    eapply lease_update_other; eauto; try reflexivity.
    eapply has_status_differs; eauto; discriminate.
  - unfold Release. destruct (lease_of db item') as [x|] eqn:Hx; [|exact Hq].
    destruct (has_status "leased" x) eqn:Hleased; simpl; [|exact Hq].
    destruct (negb _); [exact Hq|].
    destruct (update _ _ _ _ _) as [e|db'] eqn:E; [exact Hq|]. simpl.
    eapply lease_update_other; eauto using lease_of_In; try reflexivity.
    eapply has_status_differs; eauto; discriminate.
  - unfold Complete. destruct (lease_of db item') as [x|] eqn:Hx; [|exact Hq].
    destruct (has_status "leased" x) eqn:Hleased; simpl; [|exact Hq].
    destruct (negb _); [exact Hq|].
    destruct (RecordVersion _ _ _ _ _) as [e|[db1 v]] eqn:E1; [exact Hq|].
    destruct (update _ _ _ _ _) as [e|db2] eqn:E2; [exact Hq|]. simpl.
    unfold RecordVersion in E1.
    apply (create_inr DataItemVersion.init) in E1; [|reflexivity].
    apply table_insert_inr in E1 as (tbv & Hfv & _ & _ & _ & ->).
    change (tableName DataItemVersion.init) with "DataItemVersions" in *.
    assert (Hf1 : find_table
                    (set_table db "DataItemVersions"
                       {| columns := columns tbv; rows := rows tbv ++ [v];
                          nextId := bump (nextId tbv) v |}) "QueueItems"
                  = Some tb)
      by (rewrite find_table_set_ne by discriminate; exact Hf).
    eapply (lease_update_other _ tb); eauto using lease_of_In; try reflexivity.
    + now rewrite (lease_of_rows _ tb item Hf1), <- (lease_of_rows db tb item Hf).
    + eapply has_status_differs; eauto; discriminate.
  - unfold CreateForItem, commit.
    destruct (create _ _ _ _) as [e|[db' x]] eqn:E; [exact Hq|]. simpl.
    apply QueueItem_create_inr in E.
    apply table_insert_inr in E as (tb0 & Hf0 & _ & _ & _ & ->).
    rewrite Hf in Hf0. injection Hf0 as <-.
    rewrite (lease_of_rows _ _ item (find_table_set_eq _ _ _ _ Hf)). simpl.
    apply find_app_l. now rewrite <- (lease_of_rows db tb item Hf).
Qed.

(** C6.  For a lease record that is pending or completed, [Complete]
    fails with [NotLeased] and returns the store as it was, so no version
    record is appended.  And once a lease record is completed, it is
    still the record of its work item, unchanged, after any sequence of
    [AcquireNext], [Release], [Complete] and [CreateForItem]. *)
Theorem complete_only_from_leased init db item q :
  starts init -> reachable init db ->
  lease_of db item = Some q ->
  (get q "status" = Str "pending" \/ get q "status" = Str "completed" ->
   forall user fields now,
     Complete db item user fields now = (db, inl NotLeased))
  /\ (get q "status" = Str "completed" ->
      forall ops,
        lease_of (fold_left (fun s op => run op s) ops db) item = Some q).
Proof.
  intros Hs Hr Hq. split.
  - intros Hstatus user fields now. unfold Complete. rewrite Hq.
    assert (has_status "leased" q = false) as ->; [|reflexivity].
    unfold has_status, value_eqb. apply bool_decide_eq_false.
    destruct Hstatus as [-> | ->]; discriminate.
  - intros Hdone ops. revert db Hr Hq.
    induction ops as [|op ops IH]; intros db Hr Hq; simpl; [exact Hq|].
    apply IH; [now apply run_reachable|].
    eapply completed_stays; eauto.
Qed.

(** ** The scenario of the specification *)

(** The scenario runs as the specification tells it: the reviewer gets
    work item 1, a bystander cannot release it, the reviewer's correction
    is recorded as version 1, the record ends completed and is not handed
    out again. *)
Lemma lease_scenario :
  option_map (fun wq => (get (fst wq) "id", get (snd wq) "status",
                         get (snd wq) "leasedById"))
    (answer (snd (AcquireNext synced_pending reviewer 4)))
  = Some (Int 1, Str "leased", Int 1)
  /\ snd (Release synced_leased 1 bystander 5) = inl LeaseOwnershipMismatch
  /\ option_map (fun v => (get v "version", get v "accessionId",
                           get v "changedByUserId"))
       (answer (snd (Complete synced_leased 1 reviewer correction 5)))
     = Some (Int 1, Str "ABC-123", Int 1)
  /\ map (fun q => (get q "status", get q "completedById", get q "completedAt"))
       (findAll QueueItem.init synced_completed)
     = [(Str "completed", Int 1, Date 5)]
  /\ snd (AcquireNext synced_completed bystander 6) = inl NoWorkAvailable.
Proof. repeat split; vm_compute; reflexivity. Qed.

Lemma option_eta {A} (o : option A) d :
  match o with Some _ => true | None => false end = true ->
  o = Some (default d o).
Proof. destruct o; simpl; [reflexivity|discriminate]. Qed.

Lemma synced_completed_reachable : reachable synced synced_completed.
Proof.
  do 3 apply run_reachable. apply synced_item_reachable.
Qed.

Lemma complete_only_from_leased_witness :
  Complete synced_completed 1 reviewer correction 6
  = (synced_completed, inl NotLeased)
  /\ lease_of
       (fold_left (fun s op => run op s)
          [ op_Release 1 supervisor 7; op_AcquireNext bystander 8;
            op_Complete 1 supervisor correction 9; op_CreateForItem 1 10 ]
          synced_completed) 1
     = Some completed_lease.
Proof.
  destruct (complete_only_from_leased synced synced_completed 1 completed_lease
              (or_intror eq_refl) synced_completed_reachable) as [H1 H2].
  - apply option_eta. vm_compute. reflexivity.
  - split.
    + apply H1. right. vm_compute. reflexivity.
    + apply H2. vm_compute. reflexivity.
Defined.

(** * Further properties of the migrations and models *)

(** ** Deleting a data item *)

Lemma filter_refers_to_id rs k c (xs : list row) :
  (exists u, In u rs /\ has_id k u = true) ->
  without (List.filter (refers_to (List.filter (has_id k) rs) c "id") xs) xs
  = List.filter (fun x => negb (value_eqb (get x c) (Int k))) xs.
Proof.
  intros Hu. rewrite without_filter. apply filter_ext. intros x.
  now rewrite refers_to_id.
Qed.

(** X1.  In the migrated layout the deletion of a data item succeeds and
    takes along exactly what refers to it: its queue item and its version
    records, both declared [onDelete: 'CASCADE'].  The queue items and
    versions of other data items, the other data items and the users stay
    as they are. *)
Theorem data_item_deletion_cascades db k i :
  reachable migrated db ->
  In i (findAll DataItem.init db) -> get i "id" = Int k ->
  exists db',
    destroy DataItem.init db k = inr db'
    /\ findAll QueueItem.init db'
       = List.filter (fun q => negb (value_eqb (get q "dataItemId") (Int k)))
           (findAll QueueItem.init db)
    /\ findAll DataItemVersion.init db'
       = List.filter (fun v => negb (value_eqb (get v "dataItemId") (Int k)))
           (findAll DataItemVersion.init db)
    /\ findAll DataItem.init db'
       = List.filter (fun x => negb (has_id k x)) (findAll DataItem.init db)
    /\ forall bcrypt,
         findAll (User.init bcrypt) db' = findAll (User.init bcrypt) db.
Proof.
  intros Hr Hi Hid.
  destruct (reachable_migrated_shape db Hr)
    as (users & items & versions & leases & ->).
  change (findAll DataItem.init (migrated_tables users items versions leases))
    with (fst items) in Hi.
  assert (Hex : exists u, In u (fst items) /\ has_id k u = true).
  { exists i. split; [exact Hi|]. now apply has_id_spec. }
  unfold destroy. change (tableName DataItem.init) with "DataItems".
  rewrite delete_item_eq. eexists. split; [reflexivity|].
  unfold findAll. cbn [tableName modelName QueueItem.init DataItemVersion.init
                       DataItem.init].
  split; [|split; [|split]].
  - apply (filter_refers_to_id _ _ "dataItemId" _ Hex).
  - apply (filter_refers_to_id _ _ "dataItemId" _ Hex).
  - apply without_filter.
  - reflexivity.
Qed.

Lemma data_item_deletion_witness :
  exists db',
    destroy DataItem.init with_lease 1 = inr db'
    /\ findAll QueueItem.init db'
       = List.filter (fun q => negb (value_eqb (get q "dataItemId") (Int 1)))
           (findAll QueueItem.init with_lease)
    /\ findAll DataItemVersion.init db'
       = List.filter (fun v => negb (value_eqb (get v "dataItemId") (Int 1)))
           (findAll DataItemVersion.init with_lease)
    /\ findAll DataItem.init db'
       = List.filter (fun x => negb (has_id 1 x))
           (findAll DataItem.init with_lease)
    /\ forall bcrypt,
         findAll (User.init bcrypt) db'
         = findAll (User.init bcrypt) with_lease.
Proof.
  apply (data_item_deletion_cascades with_lease 1
           (hd ∅ (findAll DataItem.init with_lease)) with_lease_reachable);
    [apply In_hd|]; vm_compute; reflexivity.
Defined.

(** ** The references of a version record *)

(** X2.  In the migrated layout every stored version record names a data
    item and an acting user: both references are declared
    [allowNull: false] and are removed, never nulled, with what they
    refer to.  (A queue item, by contrast, can lose its users.) *)
Theorem version_references_present db v :
  reachable migrated db ->
  In v (findAll DataItemVersion.init db) ->
  exists d u, get v "dataItemId" = Int d /\ get v "changedByUserId" = Int u.
Proof.
  intros Hr Hv.
  destruct (DataItemVersions_table migrated db (or_introl eq_refl) Hr)
    as (tb & Hf & Hok & [[_ Hcols]|[Habs _]]); [|discriminate Habs].
  rewrite (DataItemVersion_findAll db tb Hf) in Hv.
  assert (Hint : forall c,
             In c ["dataItemId"; "changedByUserId"] ->
             exists n, get v c = Int n).
  { intros c Hc.
    assert (Ha : exists a, In (c, a) (columns tb) /\ attr_type a = INTEGER
                           /\ attr_allowNull a = false
                           /\ pinned (columns tb) c = true).
    { rewrite Hcols. simpl in Hc.
      destruct Hc as [<-|[<-|[]]]; eexists;
        (split; [apply attribute_of_In; reflexivity|]);
        repeat split; reflexivity. }
    destruct Ha as (a & Hin & Hty & Hnn & Hp).
    apply (integer_value a); [exact Hty| |].
    - eapply (ok_typed _ Hok); eauto.
    - eapply (ok_not_null _ Hok); eauto. }
  destruct (Hint "dataItemId") as [d Hd]; [simpl; auto|].
  destruct (Hint "changedByUserId") as [u Hu]; [simpl; auto|].
  eauto.
Qed.

Lemma version_references_witness :
  exists d u,
    get stored_version "dataItemId" = Int d
    /\ get stored_version "changedByUserId" = Int u.
Proof.
  apply (version_references_present with_version stored_version
           with_version_reachable).
  apply In_hd. vm_compute. reflexivity.
Defined.

(** ** [up] and [down] *)






(** ** Users *)

Lemma build_lookup m (values : row) now c :
  c <> "id" -> c <> "createdAt" -> c <> "updatedAt" ->
  declared_default c (rawAttributes m) = None ->
  build m values now !! c = values !! c.
Proof.
  intros H1 H2 H3 Hd. destruct (values !! c) as [v|] eqn:E.
  - now apply build_given.
  - rewrite build_missing by assumption. exact Hd.
Qed.

(** The hook touches [passwordHash] and nothing else. *)
Lemma hook_keeps bcrypt (user dataValues : row) c :
  User.hooks_beforeValidate bcrypt user = inr dataValues ->
  c <> "passwordHash" -> dataValues !! c = user !! c.
Proof.
  unfold User.hooks_beforeValidate.
  destruct (truthy (get user "password")); [|now intros [= <-]].
  destruct (get user "password"); try discriminate.
  intros [= <-] Hc. now rewrite lookup_insert_ne.
Qed.

Lemma hook_text bcrypt (user : row) :
  text (user !! "password") = true ->
  exists dataValues, User.hooks_beforeValidate bcrypt user = inr dataValues.
Proof.
  unfold User.hooks_beforeValidate, get, text.
  destruct (user !! "password") as [[| | s | |]|]; simpl;
    try discriminate; eauto.
  destruct (negb (String.eqb s "")); eauto.
Qed.

Lemma validate_attribute_error c a v e :
  validate_attribute c a v = inl e -> e = ValidationError c.
Proof.
  unfold validate_attribute.
  destruct v as [[| | s | |]|]; try discriminate;
    try (destruct (attr_allowNull a); [discriminate|now intros [= <-]]).
  destruct (attr_notEmpty a && blank s); [now intros [= <-]|discriminate].
Qed.

(** Validation fails with a validation error, nothing else. *)
Lemma validate_error attrs dataValues e :
  validate attrs dataValues = inl e -> exists c, e = ValidationError c.
Proof.
  induction attrs as [|[c a] attrs IH]; simpl; [discriminate|].
  destruct (validate_attribute c a (dataValues !! c)) as [e'|[]] eqn:E; simpl.
  - intros [= <-]. apply validate_attribute_error in E. eauto.
  - exact IH.
Qed.

Lemma validate_fails_at attrs (dataValues : row) c a :
  In (c, a) attrs ->
  attr_allowNull a = false -> attr_notEmpty a = true ->
  unusable (dataValues !! c) = true ->
  exists c', validate attrs dataValues = inl (ValidationError c').
Proof.
  intros Hin Hnn Hne Hu.
  induction attrs as [|[c' a'] attrs IH]; simpl; [destruct Hin|].
  destruct (validate_attribute c' a' (dataValues !! c')) as [e|[]] eqn:E; simpl.
  - apply validate_attribute_error in E. subst e. eauto.
  - destruct Hin as [[= -> ->]|Hin]; [|auto].
    exfalso. unfold validate_attribute, unusable in *.
    rewrite Hnn, Hne in E.
    destruct (dataValues !! c) as [[| | s | |]|]; try discriminate.
    simpl in E. now rewrite Hu in E.
Qed.

Lemma create_hook_inv m h db values now db' r :
  beforeValidate m = Some h ->
  create m db values now = inr (db', r) ->
  exists dataValues,
    h (build m values now) = inr dataValues
    /\ validate (rawAttributes m) dataValues = inr tt
    /\ table_insert db (tableName m) (mapValueFieldNames dataValues (fields m))
       = inr (db', r).
Proof.
  intros Hh. unfold create. rewrite Hh. simpl.
  destruct (h (build m values now)) as [e|dataValues]; simpl; [discriminate|].
  destruct (validate (rawAttributes m) dataValues) as [e|[]] eqn:E; simpl;
    [discriminate|].
  intros H. exists dataValues. auto.
Qed.

Lemma create_hook_fails m h db values now :
  beforeValidate m = Some h ->
  (forall dataValues,
     h (build m values now) = inr dataValues ->
     exists e, table_insert db (tableName m)
                 (mapValueFieldNames dataValues (fields m)) = inl e) ->
  exists e, create m db values now = inl e.
Proof.
  intros Hh H. unfold create. rewrite Hh. cbn [run_hook].
  destruct (h (build m values now)) as [e|dataValues]; cbn [bind]; [eauto|].
  destruct (validate (rawAttributes m) dataValues) as [e|[]]; cbn [bind];
    [eauto|].
  now apply H.
Qed.

(** X4.  [User.create] without a usable password fails with a validation
    error and stores nothing, whatever the store holds: the password may
    not be missing, null or a string of white space.  The same holds of
    the username, the password being a string or absent. *)
Theorem user_needs_username_and_password bcrypt db values now c :
  c = "username" \/ c = "password" ->
  unusable (values !! c) = true ->
  text (values !! "password") = true ->
  exists c', create (User.init bcrypt) db values now = inl (ValidationError c').
Proof.
  intros Hc Hu Ht. unfold create.
  change (beforeValidate (User.init bcrypt))
    with (Some (User.hooks_beforeValidate bcrypt)).
  cbn [run_hook].
  assert (Hb : forall c', c' = "username" \/ c' = "password" ->
                 build (User.init bcrypt) values now !! c' = values !! c').
  { intros c' [-> | ->]; apply build_lookup; (congruence || reflexivity). }
  destruct (hook_text bcrypt (build (User.init bcrypt) values now))
    as [dataValues Hh]; [rewrite Hb by auto; exact Ht|].
  rewrite Hh. cbn [bind].
  destruct (validate_fails_at User.attributes dataValues c
              (match attribute_of c User.attributes with
               | Some a => a
               | None => plain STRING
               end)) as [c' Hv].
  - destruct Hc as [-> | ->]; simpl; auto.
  - destruct Hc as [-> | ->]; reflexivity.
  - destruct Hc as [-> | ->]; reflexivity.
  - rewrite (hook_keeps bcrypt _ _ c Hh), Hb; auto.
    destruct Hc as [-> | ->]; discriminate.
  - exists c'. change (rawAttributes (User.init bcrypt)) with User.attributes.
    now rewrite Hv.
Qed.

Lemma user_needs_password_witness :
  exists c',
    create (User.init marking_bcrypt) synced {[ "username" := Str "nopass" ]} 1
    = inl (ValidationError c').
Proof.
  apply (user_needs_username_and_password marking_bcrypt synced
           {[ "username" := Str "nopass" ]} 1 "password");
    [right; reflexivity|vm_compute; reflexivity|vm_compute; reflexivity].
Defined.

Lemma Users_username :
  exists a, attribute_of "username" (layout User.attributes) = Some a
            /\ attr_unique a = true /\ attr_allowNull a = false
            /\ attr_autoIncrement a = false
            /\ pinned (layout User.attributes) "username" = true.
Proof. eexists. split; [reflexivity|]. repeat split; reflexivity. Qed.

Lemma User_findAll bcrypt db tb :
  find_table db "Users" = Some tb -> findAll (User.init bcrypt) db = rows tb.
Proof.
  intros H. unfold findAll.
  change (tableName (User.init bcrypt)) with "Users". now rewrite H.
Qed.

(** X5.  In every state of the store no two users have the same
    username, and no user is without one; as long as a user holds a
    username, every [User.create] with that username fails. *)
Theorem usernames_are_unique bcrypt init db :
  starts init -> reachable init db ->
  NoDup (column_values "username" (findAll (User.init bcrypt) db))
  /\ (forall u, In u (findAll (User.init bcrypt) db) ->
                get u "username" <> Null)
  /\ (forall u values now,
        In u (findAll (User.init bcrypt) db) ->
        values !! "username" = Some (get u "username") ->
        exists e, create (User.init bcrypt) db values now = inl e).
Proof.
  intros Hs Hr.
  destruct (Users_table init db Hs Hr) as (tb & Hf & Hok & Hcols).
  rewrite (User_findAll bcrypt db tb Hf).
  destruct Users_username as (a & Ha & Hu & Hnn & Hauto & Hp).
  rewrite <- Hcols in Ha, Hp.
  assert (Hnull : forall u, In u (rows tb) -> get u "username" <> Null).
  { intros u Hin. eapply (ok_not_null _ Hok); eauto using attribute_of_In. }
  split; [|split].
  - rewrite <- (nonnull_all (column_values "username" (rows tb))).
    + apply (ok_unique _ Hok "username" a); [now apply attribute_of_In|].
      now rewrite Hu.
    + intros v Hv. unfold column_values in Hv.
      apply in_map_iff in Hv as (q & <- & Hq). auto.
  - exact Hnull.
  - intros u values now Hin Hv.
    apply (create_hook_fails (User.init bcrypt)
             (User.hooks_beforeValidate bcrypt)); [reflexivity|].
    intros dataValues Hh.
    change (tableName (User.init bcrypt)) with "Users".
    eapply insert_duplicate_fails; eauto.
    rewrite (mapValueFieldNames_value _ _ "username"
               (define STRING
                  [allowNull false; unique true; validate_notEmpty true]));
      [|reflexivity|reflexivity].
    rewrite (hook_keeps bcrypt _ _ "username" Hh) by discriminate.
    apply build_given; congruence.
Qed.

Lemma usernames_unique_witness :
  NoDup (column_values "username" (findAll (User.init marking_bcrypt) with_user))
  /\ get tested_user "username" <> Null
  /\ exists e,
       create (User.init marking_bcrypt) with_user
         (<["username" := Str "assoc_user"]> {[ "password" := Str "other" ]}) 2
       = inl e.
Proof.
  destruct (usernames_are_unique marking_bcrypt migrated with_user
              (or_introl eq_refl) with_user_reachable) as (H1 & H2 & H3).
  assert (Hin : In tested_user (findAll (User.init marking_bcrypt) with_user)).
  { change tested_user
      with (hd ∅ (findAll (User.init marking_bcrypt) with_user)) at 1.
    apply In_hd. vm_compute. reflexivity. }
  split; [exact H1|split; [exact (H2 tested_user Hin)|]].
  apply (H3 tested_user); [exact Hin|]. vm_compute. reflexivity.
Defined.

Lemma Users_defaults c a :
  In (c, a) (layout User.attributes) ->
  attribute_of c (layout User.attributes) = Some a
  /\ attribute_of c (with_generated User.attributes) = Some a
  /\ is_virtual a = false.
Proof.
  intros Hin. simpl in Hin.
  repeat (destruct Hin as [[= <- <-]|Hin]; [repeat split; reflexivity|]).
  destruct Hin.
Qed.

(** X6.  Of a [User.create] whose values have the types their columns
    declare (a string as username, an integer as count, a boolean as
    flag) and whose password is a string: the user it stored has
    [correctionCount] 0 and [isAdmin] false unless the call gave them,
    and the username, count and flag the call gave are the stored ones.
    Its id is an integer that no user stored before has, and the users
    are those of before and the new one, last. *)
Theorem user_created_with_defaults bcrypt init db values now db' u :
  starts init -> reachable init db ->
  typed_values (layout User.attributes) values = true ->
  text (values !! "password") = true ->
  create (User.init bcrypt) db values now = inr (db', u) ->
  (values !! "correctionCount" = None -> get u "correctionCount" = Int 0)
  /\ (values !! "isAdmin" = None -> get u "isAdmin" = Bool false)
  /\ (forall c v,
        In c ["username"; "correctionCount"; "isAdmin"] ->
        values !! c = Some v -> get u c = v)
  /\ (exists k, get u "id" = Int k
                /\ forall r, In r (findAll (User.init bcrypt) db) ->
                             get r "id" <> Int k)
  /\ findAll (User.init bcrypt) db' = findAll (User.init bcrypt) db ++ [u].
Proof.
  intros Hs Hr _ _ Hcreate.
  destruct (Users_table init db Hs Hr) as (tb & Hf & Hok & Hcols).
  apply (create_hook_inv (User.init bcrypt) (User.hooks_beforeValidate bcrypt))
    in Hcreate as (dataValues & Hh & _ & Hins); [|reflexivity].
  apply table_insert_inr in Hins as (tb' & Hf' & _ & Hu & Hcheck & ->).
  change (tableName (User.init bcrypt)) with "Users" in *.
  rewrite Hf in Hf'. injection Hf' as <-.
  assert (Hget : forall c a,
             In (c, a) (layout User.attributes) ->
             c <> "passwordHash" -> attr_autoIncrement a = false ->
             get u c
             = default (default Null (attr_defaultValue a))
                 (build (User.init bcrypt) values now !! c)).
  { intros c a Hin Hc Hauto.
    destruct (Users_defaults c a Hin) as (Ha & Hfa & Hv).
    rewrite Hu, new_row_get, Hcols, Ha.
    rewrite (mapValueFieldNames_value _ _ c a Hfa Hv).
    rewrite (hook_keeps bcrypt _ _ c Hh Hc).
    unfold initial_value. rewrite Hauto.
    now destruct (build (User.init bcrypt) values now !! c). }
  split; [|split; [|split; [|split]]].
  - intros Hnone.
    rewrite (Hget "correctionCount"
               (define INTEGER [allowNull false; defaultValue (Int 0)]));
      [|simpl; auto 10|discriminate|reflexivity].
    rewrite build_missing by (congruence || exact Hnone). reflexivity.
  - intros Hnone.
    rewrite (Hget "isAdmin"
               (define BOOLEAN [allowNull false; defaultValue (Bool false)]));
      [|simpl; auto 10|discriminate|reflexivity].
    rewrite build_missing by (congruence || exact Hnone). reflexivity.
  - intros c v Hc Hv. simpl in Hc.
    destruct Hc as [<-|[<-|[<-|[]]]];
      erewrite Hget; try (simpl; auto 10; fail); try discriminate;
      try reflexivity;
      rewrite (build_given _ _ _ _ v) by (congruence || exact Hv); reflexivity.
  - pose proof (check_row_In _ _ _ _ "id"
                  (define INTEGER
                     [allowNull false; primaryKey true; autoIncrement true])
                  Hcheck) as Hid.
    rewrite Hcols in Hid. specialize (Hid (or_introl eq_refl)).
    unfold check_column in Hid. cbn [attr_type define fold_left set_option plain
      attr_allowNull attr_primaryKey attr_unique attr_references] in Hid.
    destruct (get u "id") as [|k| | |] eqn:E; simpl in Hid; try discriminate.
    exists k. split; [reflexivity|].
    rewrite (User_findAll bcrypt db tb Hf). intros r Hin Hr'.
    destruct (holds (rows tb) "id" (Int k)) eqn:Hh'; [discriminate|].
    apply holds_false in Hh'. apply Hh'. unfold column_values.
    apply in_map_iff. eauto.
  - rewrite (User_findAll bcrypt db tb Hf).
    unfold findAll. change (tableName (User.init bcrypt)) with "Users".
    now rewrite (find_table_set_eq _ _ _ _ Hf).
Qed.

Lemma user_defaults_witness :
  get tested_user "correctionCount" = Int 0
  /\ get tested_user "isAdmin" = Bool false
  /\ get tested_user "username" = Str "assoc_user"
  /\ findAll (User.init marking_bcrypt) with_user = [tested_user].
Proof.
  destruct (user_created_with_defaults marking_bcrypt migrated migrated
              (<["username" := Str "assoc_user"]>
                 {[ "password" := Str "password123" ]})
              1 with_user tested_user
              (or_introl eq_refl) (reachable_init migrated))
    as (H1 & H2 & H3 & _ & H5).
  - vm_compute. reflexivity.
  - vm_compute. reflexivity.
  - apply succeeded_inr. vm_compute. reflexivity.
  - split; [apply H1; vm_compute; reflexivity|].
    split; [apply H2; vm_compute; reflexivity|].
    split; [apply (H3 "username"); [simpl; auto|vm_compute; reflexivity]|].
    exact H5.
Defined.

(** X7.  However a user was created, if the password given was a string
    then the stored [passwordHash] is the [bcrypt] hash of that password,
    which was not blank: a [passwordHash] given to [create] is never the
    one stored. *)
Theorem stored_hash_is_of_password bcrypt init db values now db' u :
  starts init -> reachable init db ->
  text (values !! "password") = true ->
  create (User.init bcrypt) db values now = inr (db', u) ->
  exists p,
    values !! "password" = Some (Str p) /\ blank p = false
    /\ get u "passwordHash" = Str (hash bcrypt p (genSalt bcrypt 10)).
Proof.
  intros Hs Hr Ht Hcreate.
  destruct (Users_table init db Hs Hr) as (tb & Hf & Hok & Hcols).
  apply (create_hook_inv (User.init bcrypt) (User.hooks_beforeValidate bcrypt))
    in Hcreate as (dataValues & Hh & Hval & Hins); [|reflexivity].
  assert (Hb : build (User.init bcrypt) values now !! "password"
               = values !! "password").
  { apply build_lookup; (congruence || reflexivity). }
  assert (Hu : unusable (values !! "password") = false).
  { destruct (unusable (values !! "password")) eqn:E; [|reflexivity].
    destruct (validate_fails_at User.attributes dataValues "password"
                (define VIRTUAL [allowNull false; validate_notEmpty true]))
      as [c' Hv]; [simpl; auto|reflexivity|reflexivity| |].
    - now rewrite (hook_keeps bcrypt _ _ "password" Hh), Hb.
    - change (rawAttributes (User.init bcrypt)) with User.attributes in Hval.
      congruence. }
  destruct (values !! "password") as [[| | p | |]|] eqn:Hp; try discriminate.
  exists p. split; [reflexivity|]. split; [exact Hu|].
  rewrite (hook_hashes bcrypt _ p) in Hh;
    [|now rewrite Hb|intros ->; discriminate].
  injection Hh as <-.
  apply table_insert_inr in Hins as (tb' & Hf' & _ & -> & _ & _).
  change (tableName (User.init bcrypt)) with "Users" in *.
  rewrite Hf in Hf'. injection Hf' as <-.
  rewrite new_row_get, Hcols.
  change (attribute_of "passwordHash" (layout User.attributes))
    with (Some (define STRING [allowNull false])).
  rewrite (mapValueFieldNames_value _ _ "passwordHash"
             (define STRING [allowNull false])) by reflexivity.
  now rewrite lookup_insert_eq.
Qed.

Lemma stored_hash_witness :
  exists p,
    (<["username" := Str "assoc_user"]>
       (<["passwordHash" := Str "chosen"]>
          ({[ "password" := Str "password123" ]} : row)))
      !! "password" = Some (Str p)
    /\ blank p = false
    /\ get (default ∅
              (created
                 (create (User.init marking_bcrypt) synced
                    (<["username" := Str "assoc_user"]>
                       (<["passwordHash" := Str "chosen"]>
                          {[ "password" := Str "password123" ]})) 1)))
         "passwordHash"
       = Str (hash marking_bcrypt p (genSalt marking_bcrypt 10)).
Proof.
  apply (stored_hash_is_of_password marking_bcrypt synced synced _ 1
           (store_after
              (create (User.init marking_bcrypt) synced
                 (<["username" := Str "assoc_user"]>
                    (<["passwordHash" := Str "chosen"]>
                       {[ "password" := Str "password123" ]})) 1))
           _ (or_intror eq_refl) (reachable_init synced)).
  - vm_compute. reflexivity.
  - apply succeeded_inr. vm_compute. reflexivity.
Defined.

(** ** References *)

Lemma check_column_dangling db others c a t k d :
  attr_references a = Some (t, k) ->
  key_exists db t k (Int d) = false ->
  exists e, check_column db others c a (Int d) = inl e.
Proof.
  intros Href Hk. unfold check_column.
  destruct (has_type (attr_type a) (Int d)); simpl; [|eauto].
  destruct ((attr_unique a || attr_primaryKey a) && holds others c (Int d));
    [eauto|].
  rewrite Href, Hk. eauto.
Qed.

(** X8.  In the migrated layout a queue item or a version record cannot
    be created with a reference to nothing: [create] fails when the
    [dataItemId] it is given is the id of no data item, or the
    [leasedById], [completedById] or [changedByUserId] the id of no
    user. *)
Theorem dangling_references_refused db values now m c t d :
  reachable migrated db ->
  In (m, c, t)
    [ (QueueItem.init, "dataItemId", "DataItems");
      (QueueItem.init, "leasedById", "Users");
      (QueueItem.init, "completedById", "Users");
      (DataItemVersion.init, "dataItemId", "DataItems");
      (DataItemVersion.init, "changedByUserId", "Users") ] ->
  values !! c = Some (Int d) ->
  key_exists db t "id" (Int d) = false ->
  exists e, create m db values now = inl e.
Proof.
  intros Hr Hin Hv Hk.
  destruct (reachable_migrated_shape db Hr)
    as (users & items & versions & leases & ->).
  simpl in Hin.
  destruct Hin as [Hin|[Hin|[Hin|[Hin|[Hin|[]]]]]];
    injection Hin as <- <- <-;
    (apply create_fails; [reflexivity|]);
    match type of Hv with
    | _ !! ?c' = _ =>
        eapply (insert_refused _ _ _ _ c');
        [reflexivity|reflexivity|reflexivity
        |erewrite mapValueFieldNames_value; [|reflexivity|reflexivity];
         apply build_given; [congruence..|exact Hv]
        |eapply check_column_dangling; [reflexivity|exact Hk]]
    end.
Qed.

Lemma dangling_reference_witness :
  exists e, create QueueItem.init with_user {[ "dataItemId" := Int 7 ]} 2 = inl e.
Proof.
  apply (dangling_references_refused with_user {[ "dataItemId" := Int 7 ]} 2
           QueueItem.init "dataItemId" "DataItems" 7 with_user_reachable);
    [simpl; auto|vm_compute; reflexivity|vm_compute; reflexivity].
Defined.

Lemma insert_refused_at db t tb assigned c a :
  find_table db t = Some tb ->
  attribute_of c (columns tb) = Some a ->
  (exists e, check_column db (rows tb) c a
               (initial_value a (nextId tb) (assigned_value c assigned))
             = inl e) ->
  exists e, table_insert db t assigned = inl e.
Proof.
  intros Hf Ha [e He]. unfold table_insert. rewrite Hf.
  destruct (check_known (columns tb) assigned) as [e0|[]]; simpl; [eauto|].
  destruct (check_row_fails db (rows tb) (columns tb)
              (new_row (columns tb) (nextId tb) assigned) c a e) as [e' He'].
  - now apply attribute_of_In.
  - now rewrite new_row_get, Ha.
  - rewrite He'. simpl. eauto.
Qed.

Lemma validate_plain attrs dataValues :
  (forall c a, In (c, a) attrs ->
               attr_allowNull a = true /\ attr_notEmpty a = false) ->
  validate attrs dataValues = inr tt.
Proof.
  induction attrs as [|[c a] attrs IH]; simpl; [reflexivity|].
  intros H. destruct (H c a (or_introl eq_refl)) as [Hn He].
  assert (validate_attribute c a (dataValues !! c) = inr tt) as ->.
  { unfold validate_attribute. rewrite Hn, He.
    now destruct (dataValues !! c) as [[]|]. }
  simpl. apply IH. intros c' a' Hin. apply (H c' a'). now right.
Qed.

Lemma In_plain c a (attrs : list (string * data_type)) :
  In (c, a) (map (fun ct => (fst ct, plain (snd ct))) attrs) ->
  attr_allowNull a = true /\ attr_notEmpty a = false.
Proof.
  intros Hin. apply in_map_iff in Hin as ([c' ty] & [= <- <-] & _).
  split; reflexivity.
Qed.

(** X9.  The [DataItemVersion] model declares both references of a
    version record nullable, the migration [allowNull: false]: in the
    migrated layout a [create] without a data item or without an acting
    user passes the model's validation and fails at the table.  The
    [QueueItem] model declares [dataItemId] itself: a [create] without it
    fails validation, whatever the store. *)
Theorem records_need_their_references db values now c :
  reachable migrated db ->
  In c ["dataItemId"; "changedByUserId"] ->
  values !! c = None \/ values !! c = Some Null ->
  validate (rawAttributes DataItemVersion.init)
    (build DataItemVersion.init values now) = inr tt
  /\ (exists e, create DataItemVersion.init db values now = inl e)
  /\ (c = "dataItemId" ->
      forall db0,
        create QueueItem.init db0 values now
        = inl (ValidationError "dataItemId")).
Proof.
  intros Hr Hc Hv.
  destruct (reachable_migrated_shape db Hr)
    as (users & items & versions & leases & ->).
  assert (Hb : forall m, declared_default c (rawAttributes m) = None ->
             build m values now !! c = None
             \/ build m values now !! c = Some Null).
  { intros m Hd. simpl in Hc.
    destruct Hv as [Hv|Hv]; [left|right].
    - rewrite build_missing; auto; destruct Hc as [<-|[<-|[]]]; discriminate.
    - apply build_given; auto; destruct Hc as [<-|[<-|[]]]; discriminate. }
  split; [|split].
  - apply validate_plain. intros c' a' Hin.
    apply (In_plain c' a'
             [ ("dataItemId", INTEGER); ("version", INTEGER);
               ("accessionId", STRING); ("stain", STRING);
               ("blockNumber", STRING); ("isComplete", BOOLEAN);
               ("changedByUserId", INTEGER) ]).
    exact Hin.
  - apply create_fails; [reflexivity|].
    assert (Hd : declared_default c (rawAttributes DataItemVersion.init) = None).
    { simpl in Hc. destruct Hc as [<-|[<-|[]]]; reflexivity. }
    specialize (Hb DataItemVersion.init Hd).
    assert (Ha : exists a,
               attribute_of c create_data_item_version.DataItemVersions = Some a
               /\ attribute_of c (fields DataItemVersion.init) = Some (plain INTEGER)
               /\ attr_type a = INTEGER /\ attr_allowNull a = false
               /\ attr_autoIncrement a = false /\ attr_defaultValue a = None).
    { simpl in Hc. destruct Hc as [<-|[<-|[]]]; eexists;
        (split; [reflexivity|]); repeat split; reflexivity. }
    destruct Ha as (a & Ha & Hfa & Hty & Hnn & Hauto & Hdef).
    eapply (insert_refused_at _ _ _ _ c a); [reflexivity|exact Ha|].
    rewrite (mapValueFieldNames_value _ _ c (plain INTEGER) Hfa eq_refl).
    exists (NotNullViolation c).
    assert (Hi : forall next,
               initial_value a next
                 (build DataItemVersion.init values now !! c) = Null).
    { intros next. unfold initial_value. rewrite Hauto, Hdef.
      destruct Hb as [-> | ->]; reflexivity. }
    rewrite Hi.
    unfold check_column. rewrite Hty, Hnn. reflexivity.
  - intros -> db0. specialize (Hb QueueItem.init eq_refl).
    unfold create.
    change (beforeValidate QueueItem.init) with (@None (row -> result row)).
    cbn [run_hook bind].
    remember (build QueueItem.init values now) as dataValues.
    change (rawAttributes QueueItem.init)
      with (("dataItemId", define INTEGER [allowNull false; unique true])
            :: tl (rawAttributes QueueItem.init)).
    cbn [validate]. destruct Hb as [-> | ->]; reflexivity.
Qed.

Lemma records_need_references_witness :
  validate (rawAttributes DataItemVersion.init)
    (build DataItemVersion.init {[ "changedByUserId" := Int 1 ]} 3) = inr tt
  /\ (exists e,
        create DataItemVersion.init with_item {[ "changedByUserId" := Int 1 ]} 3
        = inl e)
  /\ create QueueItem.init with_item {[ "changedByUserId" := Int 1 ]} 3
     = inl (ValidationError "dataItemId").
Proof.
  destruct (records_need_their_references with_item
              {[ "changedByUserId" := Int 1 ]} 3
              "dataItemId" with_item_reachable) as (H1 & H2 & H3);
    [simpl; auto|left; vm_compute; reflexivity|].
  split; [exact H1|split; [exact H2|exact (H3 eq_refl with_item)]].
Defined.

(** ** Deleting a user: the version records *)

(** X10.  In the migrated layout the deletion of a user succeeds and
    removes exactly the version records that user made and no data item;
    every queue item stays. *)
Theorem user_deletion_cascades_to_versions bcrypt db k u :
  reachable migrated db ->
  In u (findAll (User.init bcrypt) db) -> get u "id" = Int k ->
  exists db',
    destroy (User.init bcrypt) db k = inr db'
    /\ findAll DataItemVersion.init db'
       = List.filter
           (fun v => negb (value_eqb (get v "changedByUserId") (Int k)))
           (findAll DataItemVersion.init db)
    /\ findAll DataItem.init db' = findAll DataItem.init db
    /\ findAll (User.init bcrypt) db'
       = List.filter (fun x => negb (has_id k x))
           (findAll (User.init bcrypt) db)
    /\ length (findAll QueueItem.init db')
       = length (findAll QueueItem.init db).
Proof.
  intros Hr Hu Hid.
  destruct (reachable_migrated_shape db Hr)
    as (users & items & versions & leases & ->).
  change (findAll (User.init bcrypt)
            (migrated_tables users items versions leases))
    with (fst users) in Hu.
  assert (Hex : exists x, In x (fst users) /\ has_id k x = true).
  { exists u. split; [exact Hu|]. now apply has_id_spec. }
  unfold destroy. change (tableName (User.init bcrypt)) with "Users".
  rewrite delete_user_eq. eexists. split; [reflexivity|].
  unfold findAll. cbn [tableName modelName QueueItem.init DataItemVersion.init
                       DataItem.init User.init].
  split; [|split; [|split]].
  - apply (filter_refers_to_id _ _ "changedByUserId" _ Hex).
  - reflexivity.
  - apply without_filter.
  - simpl. now rewrite !length_map.
Qed.

Lemma user_deletion_cascade_witness :
  exists db',
    destroy (User.init marking_bcrypt) with_version 1 = inr db'
    /\ findAll DataItemVersion.init db'
       = List.filter
           (fun v => negb (value_eqb (get v "changedByUserId") (Int 1)))
           (findAll DataItemVersion.init with_version)
    /\ findAll DataItem.init db' = findAll DataItem.init with_version
    /\ findAll (User.init marking_bcrypt) db'
       = List.filter (fun x => negb (has_id 1 x))
           (findAll (User.init marking_bcrypt) with_version)
    /\ length (findAll QueueItem.init db')
       = length (findAll QueueItem.init with_version).
Proof.
  apply (user_deletion_cascades_to_versions marking_bcrypt with_version 1
           (hd ∅ (findAll (User.init marking_bcrypt) with_version))
           with_version_reachable);
    [apply In_hd|]; vm_compute; reflexivity.
Defined.

(** ** Data items *)

Lemma DataItems_table init db :
  starts init -> reachable init db ->
  exists tb, find_table db "DataItems" = Some tb /\ table_ok tb
             /\ ((init = migrated /\ columns tb = create_data_item.DataItems)
                 \/ (init = synced /\ columns tb = sync DataItem.init)).
Proof.
  intros Hs Hr. pose proof (starts_ok init Hs) as Hok. destruct Hs as [->| ->].
  - destruct (reachable_table migrated db "DataItems"
                create_data_item.DataItems Hok Hr eq_refl) as (tb & ? & ? & ?).
    exists tb. auto.
  - destruct (reachable_table synced db "DataItems"
                (sync DataItem.init) Hok Hr eq_refl) as (tb & ? & ? & ?).
    exists tb. auto.
Qed.

Lemma DataItem_findAll db tb :
  find_table db "DataItems" = Some tb -> findAll DataItem.init db = rows tb.
Proof.
  intros H. unfold findAll.
  change (tableName DataItem.init) with "DataItems". now rewrite H.
Qed.

Lemma build_id m (values : row) now :
  values !! "id" = None -> build m values now !! "id" = Some Null.
Proof.
  intros Hv. unfold build. rewrite !lookup_insert_ne by discriminate.
  rewrite Hv. apply with_defaults_given. apply lookup_insert_eq.
Qed.

Lemma build_timestamps m (values : row) now :
  build m values now !! "createdAt" = Some (Date now)
  /\ build m values now !! "updatedAt" = Some (Date now).
Proof.
  unfold build. split; [apply lookup_insert_eq|].
  rewrite lookup_insert_ne by discriminate. apply lookup_insert_eq.
Qed.

Lemma check_known_mapped cols (dataValues : row) fs :
  (forall c a v, In (c, a) fs -> dataValues !! c = Some v ->
                 attribute_of c cols <> None) ->
  check_known cols (mapValueFieldNames dataValues fs) = inr tt.
Proof.
  induction fs as [|[c a] fs IH]; simpl; intros H; [reflexivity|].
  assert (IH' : check_known cols (mapValueFieldNames dataValues fs) = inr tt).
  { apply IH. intros c' a' v' Hin. apply (H c' a' v'). now right. }
  destruct (dataValues !! c) as [v|] eqn:E; [|exact IH'].
  destruct (is_virtual a); [exact IH'|]. simpl.
  destruct (attribute_of c cols) eqn:A; [exact IH'|].
  exfalso. apply (H c a v); auto.
Qed.

Lemma table_insert_checked db t tb assigned :
  find_table db t = Some tb ->
  check_known (columns tb) assigned = inr tt ->
  check_row db (rows tb) (columns tb)
    (new_row (columns tb) (nextId tb) assigned) = inr tt ->
  table_insert db t assigned
  = inr (set_table db t
           {| columns := columns tb;
              rows := rows tb ++ [new_row (columns tb) (nextId tb) assigned];
              nextId := bump (nextId tb)
                          (new_row (columns tb) (nextId tb) assigned) |},
         new_row (columns tb) (nextId tb) assigned).
Proof.
  intros Hf Hk Hc. unfold table_insert. rewrite Hf, Hk. cbn [bind].
  rewrite Hc. reflexivity.
Qed.

Lemma declared_default_none c attrs :
  (forall c' a, In (c', a) attrs -> attr_defaultValue a = None) ->
  declared_default c attrs = None.
Proof.
  induction attrs as [|[c' a] attrs IH]; simpl; [reflexivity|].
  intros H. rewrite IH by (intros c0 a0 Hin; apply (H c0 a0); now right).
  rewrite (H c' a) by now left. now destruct (String.eqb c' c).
Qed.

(** X11.  Of a [DataItem.create] given only label texts (strings or
    null): the data item it stored is last among the data items, has the
    texts as given and an id that no data item stored before has.  Its
    [isComplete], which the model leaves without default, is false in the
    migrated layout, by the default of the migration, and null in the
    layout of [sync]. *)
Theorem data_item_created init db values now db' i :
  starts init -> reachable init db ->
  (forall c v, values !! c = Some v -> In c label_texts /\ text (Some v) = true) ->
  create DataItem.init db values now = inr (db', i) ->
  findAll DataItem.init db' = findAll DataItem.init db ++ [i]
  /\ (forall c, In c label_texts -> get i c = get values c)
  /\ (exists k, get i "id" = Int k
                /\ forall r, In r (findAll DataItem.init db) ->
                             get r "id" <> Int k)
  /\ (init = migrated -> get i "isComplete" = Bool false)
  /\ (init = synced -> get i "isComplete" = Null).
Proof.
  intros Hs Hr Hvalues Hcreate.
  destruct (DataItems_table init db Hs Hr) as (tb & Hf & Hok & Hcols).
  apply (create_inr DataItem.init) in Hcreate; [|reflexivity].
  apply table_insert_inr in Hcreate as (tb' & Hf' & _ & Hi & _ & ->).
  change (tableName DataItem.init) with "DataItems" in *.
  rewrite Hf in Hf'. injection Hf' as <-.
  assert (Hnone : forall c, ~ In c label_texts -> values !! c = None).
  { intros c Hc. destruct (values !! c) as [v|] eqn:E; [|reflexivity].
    now destruct (Hvalues c v E). }
  assert (Hdefault : forall c,
             declared_default c (rawAttributes DataItem.init) = None).
  { intros c. apply declared_default_none. intros c' a' Hin. simpl in Hin.
    repeat (destruct Hin as [[= <- <-]|Hin]; [reflexivity|]). destruct Hin. }
  assert (Hassigned : forall c a,
             attribute_of c (fields DataItem.init) = Some a ->
             assigned_value c
               (mapValueFieldNames (build DataItem.init values now)
                  (fields DataItem.init))
             = build DataItem.init values now !! c).
  { intros c a Ha. apply (mapValueFieldNames_value _ _ c a Ha).
    apply attribute_of_In in Ha. simpl in Ha.
    repeat (destruct Ha as [[= <- <-]|Ha]; [reflexivity|]). destruct Ha. }
  pose proof (build_id DataItem.init values now
                (Hnone "id" ltac:(simpl; intuition discriminate))) as Hid.
  assert (Hbuild : forall c, c <> "id" -> c <> "createdAt" -> c <> "updatedAt" ->
                     build DataItem.init values now !! c = values !! c).
  { intros c H1 H2 H3. now apply build_lookup. }
  assert (Hget : forall c a a',
             attribute_of c (columns tb) = Some a ->
             attribute_of c (fields DataItem.init) = Some a' ->
             get i c
             = initial_value a (nextId tb)
                 (build DataItem.init values now !! c)).
  { intros c a a' Ha Ha'. rewrite Hi, new_row_get, Ha.
    now rewrite (Hassigned c a' Ha'). }
  split; [|split; [|split; [|split]]].
  - rewrite (DataItem_findAll db tb Hf). unfold findAll.
    change (tableName DataItem.init) with "DataItems".
    now rewrite (find_table_set_eq _ _ _ _ Hf).
  - intros c Hc.
    assert (Ha : exists a a',
               attribute_of c (columns tb) = Some a
               /\ attribute_of c (fields DataItem.init) = Some a'
               /\ attr_autoIncrement a = false /\ attr_defaultValue a = None
               /\ c <> "id" /\ c <> "createdAt" /\ c <> "updatedAt").
    { destruct Hcols as [[_ ->]|[_ ->]]; simpl in Hc;
        repeat (destruct Hc as [<-|Hc];
                [do 2 eexists; split; [reflexivity|split; [reflexivity|]];
                 repeat split; discriminate || reflexivity|]);
        destruct Hc. }
    destruct Ha as (a & a' & Ha & Ha' & Hauto & Hdef & H1 & H2 & H3).
    rewrite (Hget c a a' Ha Ha'), Hbuild by assumption.
    unfold initial_value, get. rewrite Hauto, Hdef.
    now destruct (values !! c).
  - exists (nextId tb). split.
    + assert (Ha : exists a,
                 attribute_of "id" (columns tb) = Some a
                 /\ attr_autoIncrement a = true).
      { destruct Hcols as [[_ ->]|[_ ->]]; eexists; split; reflexivity. }
      destruct Ha as (a & Ha & Hauto).
      rewrite (Hget "id" a _ Ha eq_refl), Hid. unfold initial_value.
      now rewrite Hauto.
    + rewrite (DataItem_findAll db tb Hf). intros r Hin Hk.
      pose proof (ok_next _ Hok r _ Hin Hk). lia.
  - intros ->. destruct Hcols as [[_ Hc]|[Habs _]]; [|discriminate Habs].
    erewrite Hget; [|rewrite Hc; reflexivity|reflexivity].
    rewrite Hbuild, Hnone by (discriminate || (simpl; intuition discriminate)).
    reflexivity.
  - intros ->. destruct Hcols as [[Habs _]|[_ Hc]]; [discriminate Habs|].
    erewrite Hget; [|rewrite Hc; reflexivity|reflexivity].
    rewrite Hbuild, Hnone by (discriminate || (simpl; intuition discriminate)).
    reflexivity.
Qed.

Lemma data_item_created_witness :
  findAll DataItem.init synced_item
  = findAll DataItem.init synced_user
    ++ [default ∅
          (created
             (create DataItem.init synced_user
                {[ "originalLine" := Str "test line" ]} 2))]
  /\ get (default ∅
            (created
               (create DataItem.init synced_user
                  {[ "originalLine" := Str "test line" ]} 2)))
       "originalLine" = Str "test line"
  /\ get (default ∅
            (created
               (create DataItem.init synced_user
                  {[ "originalLine" := Str "test line" ]} 2)))
       "isComplete" = Null.
Proof.
  destruct (data_item_created synced synced_user
              {[ "originalLine" := Str "test line" ]} 2 synced_item
              (default ∅
                 (created
                    (create DataItem.init synced_user
                       {[ "originalLine" := Str "test line" ]} 2)))
              (or_intror eq_refl) synced_user_reachable)
    as (H1 & H2 & _ & _ & H5).
  - intros c v Hv. apply lookup_singleton_Some in Hv as [<- <-].
    split; [simpl; auto|reflexivity].
  - apply succeeded_inr. vm_compute. reflexivity.
  - split; [exact H1|].
    split; [apply (H2 "originalLine"); simpl; auto|exact (H5 eq_refl)].
Defined.

Lemma check_known_error cols assigned e :
  check_known cols assigned = inl e -> exists c, e = UnknownColumn c.
Proof.
  induction assigned as [|[c v] assigned IH]; simpl; [discriminate|].
  destruct (attribute_of c cols); [exact IH|]. intros [= <-]. eauto.
Qed.

(** X12.  The [DataItem] model declares [stain] and [blockNumber]; the
    migration creates [DataItems] without them.  In the migrated layout
    every [DataItem.create] that gives one of the two passes validation
    and fails at the table, which does not know the column. *)
Theorem data_item_fields_missing_from_migration db values now c v :
  reachable migrated db ->
  In c ["stain"; "blockNumber"] -> values !! c = Some v ->
  attribute_of c (rawAttributes DataItem.init) <> None
  /\ attribute_of c create_data_item.DataItems = None
  /\ exists c', create DataItem.init db values now = inl (UnknownColumn c').
Proof.
  intros Hr Hc Hv.
  destruct (reachable_migrated_shape db Hr)
    as (users & items & versions & leases & ->).
  split; [|split].
  - simpl in Hc. destruct Hc as [<-|[<-|[]]]; discriminate.
  - simpl in Hc. destruct Hc as [<-|[<-|[]]]; reflexivity.
  - unfold create.
    change (beforeValidate DataItem.init) with (@None (row -> result row)).
    cbn [run_hook bind]. rewrite validate_plain.
    + cbn [bind]. unfold table_insert.
      change (find_table (migrated_tables users items versions leases)
                (tableName DataItem.init))
        with (Some {| columns := create_data_item.DataItems;
                      rows := fst items; nextId := snd items |}).
      cbn [columns].
      destruct (check_known_unknown create_data_item.DataItems
                  (mapValueFieldNames (build DataItem.init values now)
                     (fields DataItem.init)) c v) as [e He].
      * simpl in Hc.
        destruct Hc as [<-|[<-|[]]];
          (erewrite mapValueFieldNames_value; [|reflexivity|reflexivity]);
          apply build_given; first [exact Hv|congruence].
      * simpl in Hc. destruct Hc as [<-|[<-|[]]]; reflexivity.
      * rewrite He. destruct (check_known_error _ _ _ He) as [c' ->].
        exists c'. reflexivity.
    + intros c' a'.
      apply (In_plain c' a'
               [ ("originalLine", TEXT); ("identifier", STRING);
                 ("originalLabelText", TEXT); ("originalMacroText", TEXT);
                 ("accessionId", STRING); ("stain", STRING);
                 ("blockNumber", STRING); ("isComplete", BOOLEAN);
                 ("imageIdentifier", STRING) ]).
Qed.

Lemma data_item_fields_witness :
  attribute_of "stain" (rawAttributes DataItem.init) <> None
  /\ attribute_of "stain" create_data_item.DataItems = None
  /\ exists c',
       create DataItem.init with_user {[ "stain" := Str "HE" ]} 2
       = inl (UnknownColumn c').
Proof.
  apply (data_item_fields_missing_from_migration with_user
           {[ "stain" := Str "HE" ]} 2 "stain" (Str "HE") with_user_reachable);
    [simpl; auto|vm_compute; reflexivity].
Defined.

(** A column declared [allowNull: false] that no deletion sets to null
    is null in no stored row. *)
Lemma stored_not_null tb c a r :
  table_ok tb -> attribute_of c (columns tb) = Some a ->
  attr_allowNull a = false -> pinned (columns tb) c = true ->
  In r (rows tb) -> get r c <> Null.
Proof.
  intros Hok Ha Hnn Hp Hr. apply attribute_of_In in Ha.
  exact (ok_not_null _ Hok c a r Ha Hr Hnn Hp).
Qed.

(** X13.  In the migrated layout no stored data item has a null
    [isComplete], whichever statements led to the state: the migration
    declares the column [allowNull: false]. *)
Theorem stored_data_item_flag db i :
  reachable migrated db -> In i (findAll DataItem.init db) ->
  get i "isComplete" <> Null.
Proof.
  intros Hr Hi.
  destruct (DataItems_table migrated db (or_introl eq_refl) Hr)
    as (tb & Hf & Hok & [[_ Hcols]|[Habs _]]); [|discriminate Habs].
  rewrite (DataItem_findAll db tb Hf) in Hi.
  apply (stored_not_null tb "isComplete"
           (define BOOLEAN [allowNull false; defaultValue (Bool false)])
           i Hok); [rewrite Hcols; reflexivity|reflexivity| |exact Hi].
  rewrite Hcols. reflexivity.
Qed.

Lemma stored_data_item_flag_witness :
  get (hd ∅ (findAll DataItem.init with_item)) "isComplete" <> Null.
Proof.
  apply (stored_data_item_flag with_item _ with_item_reachable).
  apply In_hd. vm_compute. reflexivity.
Defined.

(** ** Queue items, read back *)

Lemma checked_key db others c a v :
  attr_type a = INTEGER -> attr_primaryKey a = true ->
  check_column db others c a v = inr tt ->
  exists k, v = Int k /\ holds others c (Int k) = false.
Proof.
  intros Hty Hpk. unfold check_column. rewrite Hty, Hpk, orb_true_r, andb_false_r.
  destruct v as [|k| | |]; try (simpl; discriminate).
  destruct (holds others c (Int k)) eqn:E; [simpl; discriminate|].
  intros _. exists k. split; [reflexivity|exact E].
Qed.

Lemma checked_unique db others c a v :
  attr_unique a = true -> v <> Null ->
  check_column db others c a v = inr tt -> holds others c v = false.
Proof.
  intros Hu Hnn. unfold check_column. rewrite Hu.
  destruct (negb (has_type (attr_type a) v)); [discriminate|].
  destruct (is_null v) eqn:E; [apply is_null_spec in E; contradiction|].
  simpl. now destruct (holds others c v).
Qed.

Lemma holds_none rs c v y :
  holds rs c v = false -> In y rs -> value_eqb (get y c) v = false.
Proof.
  intros H Hy. destruct (value_eqb (get y c) v) eqn:E; [|reflexivity].
  exfalso. apply holds_false in H. apply H. unfold column_values.
  apply in_map_iff. exists y. split; [|exact Hy].
  unfold value_eqb in E. now apply bool_decide_eq_true in E.
Qed.

(** X14.  Of a [QueueItem.create] whose values have the types their
    columns declare (integers as references, one of the three strings as
    status, dates as times): the queue item it stored reads back as it
    was given.  Every attribute of the call has the value given, the
    queue items are those of before and the new one, last, and the new
    one is what [findOne] returns for its id and for its data item. *)
Theorem queue_item_read_back init db values now db' q :
  starts init -> reachable init db ->
  typed_values (sync QueueItem.init) values = true ->
  create QueueItem.init db values now = inr (db', q) ->
  (forall c v,
     In c ["dataItemId"; "status"; "leasedById"; "leasedAt";
           "completedById"; "completedAt"] ->
     values !! c = Some v -> get q c = v)
  /\ findAll QueueItem.init db' = findAll QueueItem.init db ++ [q]
  /\ (exists k, get q "id" = Int k
                /\ findOne QueueItem.init db' "id" (Int k) = Some q)
  /\ findOne QueueItem.init db' "dataItemId" (get q "dataItemId") = Some q.
Proof.
  intros Hs Hr _ Hcreate.
  destruct (QueueItems_table init db Hs Hr) as (tb & Hf & Hok & Hcols).
  apply QueueItem_create_inr in Hcreate.
  apply table_insert_inr in Hcreate as (tb' & Hf' & _ & Hq & Hcheck & ->).
  rewrite Hf in Hf'. injection Hf' as <-.
  assert (Hall : findAll QueueItem.init
                   (set_table db "QueueItems"
                      {| columns := columns tb; rows := rows tb ++ [q];
                         nextId := bump (nextId tb) q |})
                 = rows tb ++ [q]).
  { now rewrite (QueueItem_findAll _ _ (find_table_set_eq _ _ _ _ Hf)). }
  split; [|split; [|split]].
  - intros c v Hc Hv.
    assert (Ha : exists a a',
               attribute_of c (columns tb) = Some a
               /\ attribute_of c (fields QueueItem.init) = Some a'
               /\ is_virtual a' = false /\ attr_autoIncrement a = false
               /\ c <> "id" /\ c <> "createdAt" /\ c <> "updatedAt").
    { destruct Hcols as [-> | ->]; simpl in Hc;
        repeat (destruct Hc as [<-|Hc];
                [do 2 eexists; split; [reflexivity|split; [reflexivity|]];
                 repeat split; discriminate || reflexivity|]);
        destruct Hc. }
    destruct Ha as (a & a' & Ha & Ha' & Hvirt & Hauto & H1 & H2 & H3).
    rewrite Hq, new_row_get, Ha.
    rewrite (mapValueFieldNames_value _ _ c a' Ha' Hvirt).
    rewrite (build_given _ _ _ _ v H1 H2 H3 Hv).
    unfold initial_value. now rewrite Hauto.
  - rewrite Hall. now rewrite (QueueItem_findAll db tb Hf).
  - destruct (QueueItems_id _ Hcols) as (a & Ha & Hty & _ & _).
    assert (Hpk : attr_primaryKey a = true).
    { destruct Hcols as [Hc|Hc]; rewrite Hc in Ha; injection Ha as <-;
        reflexivity. }
    apply attribute_of_In in Ha.
    destruct (checked_key _ _ _ _ _ Hty Hpk (check_row_In _ _ _ _ _ _ Hcheck Ha))
      as (k & Hk & Hfree).
    exists k. split; [exact Hk|]. unfold findOne. rewrite Hall.
    apply find_last.
    + intros y Hy. now apply (holds_none (rows tb)).
    + rewrite Hk. unfold value_eqb. now apply bool_decide_eq_true.
  - destruct (QueueItems_dataItemId _ Hcols) as (a & Ha & Hu & Hnn & _ & _).
    apply attribute_of_In in Ha.
    pose proof (check_row_In _ _ _ _ _ _ Hcheck Ha) as Hcol.
    assert (Hnull : get q "dataItemId" <> Null).
    { intros E. rewrite E in Hcol. unfold check_column in Hcol.
      rewrite Hnn in Hcol. simpl in Hcol. discriminate. }
    unfold findOne. rewrite Hall. apply find_last.
    + intros y Hy. apply (holds_none (rows tb)); [|exact Hy].
      now apply (checked_unique db _ _ a).
    + unfold value_eqb. now apply bool_decide_eq_true.
Qed.

Lemma queue_item_read_back_witness :
  (forall c v,
     In c ["dataItemId"; "status"; "leasedById"; "leasedAt";
           "completedById"; "completedAt"] ->
     ({[ "dataItemId" := Int 1 ]} : row) !! c = Some v ->
     get pending_lease c = v)
  /\ findAll QueueItem.init with_pending
     = findAll QueueItem.init with_item ++ [pending_lease]
  /\ (exists k, get pending_lease "id" = Int k
                /\ findOne QueueItem.init with_pending "id" (Int k)
                   = Some pending_lease)
  /\ findOne QueueItem.init with_pending "dataItemId"
       (get pending_lease "dataItemId") = Some pending_lease.
Proof.
  apply (queue_item_read_back migrated with_item
           {[ "dataItemId" := Int 1 ]} 3 with_pending pending_lease
           (or_introl eq_refl) with_item_reachable).
  - vm_compute. reflexivity.
  - apply succeeded_inr. vm_compute. reflexivity.
Defined.

(** ** Stored users *)

(** X15.  In every state of the store, whichever statements led to it,
    no stored user is without an id, a username, a password hash, a
    correction count or an admin flag: none of them is ever null. *)
Theorem stored_users_are_complete bcrypt init db u c :
  starts init -> reachable init db ->
  In u (findAll (User.init bcrypt) db) ->
  In c ["id"; "username"; "passwordHash"; "correctionCount"; "isAdmin"] ->
  get u c <> Null.
Proof.
  intros Hs Hr Hu Hc.
  destruct (Users_table init db Hs Hr) as (tb & Hf & Hok & Hcols).
  rewrite (User_findAll bcrypt db tb Hf) in Hu.
  assert (Ha : exists a, attribute_of c (columns tb) = Some a
                         /\ attr_allowNull a = false
                         /\ pinned (columns tb) c = true).
  { rewrite Hcols. simpl in Hc.
    repeat (destruct Hc as [<-|Hc];
            [eexists; split; [reflexivity|split; reflexivity]|]).
    destruct Hc. }
  destruct Ha as (a & Ha & Hnn & Hp).
  exact (stored_not_null tb c a u Hok Ha Hnn Hp Hu).
Qed.

Lemma stored_users_witness : get tested_user "passwordHash" <> Null.
Proof.
  apply (stored_users_are_complete marking_bcrypt migrated with_user
           tested_user "passwordHash" (or_introl eq_refl) with_user_reachable).
  - change tested_user
      with (hd ∅ (findAll (User.init marking_bcrypt) with_user)) at 1.
    apply In_hd. vm_compute. reflexivity.
  - simpl. auto.
Defined.

(** * The status of a queue item, by database *)

Lemma sqlite_ok init : starts_on_sqlite init -> db_ok init.
Proof.
  intros [->| ->]; apply db_ok_empty;
    try (apply (bool_decide_unpack _); vm_compute; exact I);
    intros t tb Hin; vm_compute in Hin;
    repeat (destruct Hin as [Heq|Hin];
            [injection Heq as <- <-; split; reflexivity|]);
    destruct Hin.
Qed.

Lemma QueueItems_table_sqlite init db :
  starts_on_sqlite init -> reachable init db ->
  exists tb, find_table db "QueueItems" = Some tb /\ table_ok tb
             /\ (columns tb = on_sqlite create_queue_item.QueueItems
                 \/ columns tb = on_sqlite (sync QueueItem.init)).
Proof.
  intros Hs Hr. pose proof (sqlite_ok init Hs) as Hok. destruct Hs as [->| ->].
  - destruct (reachable_table (sqlite migrated) db "QueueItems"
                (on_sqlite create_queue_item.QueueItems) Hok Hr eq_refl)
      as (tb & ? & ? & ?).
    exists tb. auto.
  - destruct (reachable_table (sqlite synced) db "QueueItems"
                (on_sqlite (sync QueueItem.init)) Hok Hr eq_refl)
      as (tb & ? & ? & ?).
    exists tb. auto.
Qed.

Lemma sqlite_item_reachable : reachable (sqlite migrated) sqlite_item.
Proof.
  assert (H1 : reachable (sqlite migrated) sqlite_user).
  { eapply reachable_step; [apply reachable_init|].
    apply store_after_step; [vm_compute; reflexivity|apply create_step]. }
  eapply reachable_step; [exact H1|].
  apply store_after_step; [vm_compute; reflexivity|apply create_step].
Qed.

Lemma updated_inr (x : result database) :
  succeeded x = true ->
  x = inr (match x with inr db => db | inl _ => [] end).
Proof. destruct x; simpl; [discriminate|reflexivity]. Qed.

Lemma sqlite_done_reachable : reachable (sqlite migrated) sqlite_done.
Proof.
  eapply reachable_step; [apply sqlite_item_reachable|].
  apply store_after_step; [vm_compute; reflexivity|apply create_step].
Qed.

Lemma sqlite_updated_reachable : reachable (sqlite migrated) sqlite_updated.
Proof.
  assert (H : reachable (sqlite migrated) sqlite_pending).
  { eapply reachable_step; [apply sqlite_item_reachable|].
    apply store_after_step; [vm_compute; reflexivity|apply create_step]. }
  eapply reachable_step; [exact H|].
  apply (update_step QueueItem.init _ 1 {[ "status" := Str "done" ]} 4).
  apply (updated_inr (update QueueItem.init sqlite_pending 1
                        {[ "status" := Str "done" ]} 4)).
  vm_compute. reflexivity.
Qed.

(** C4, as stated, fails on SQLite.  There the status column is [TEXT]:
    [QueueItem.create] with status ['done'] passes validation and is
    stored, and so is the ['done'] an update gives to a queue item that
    was created pending.  A queue item whose status is none of the three
    is a reachable state. *)
Lemma status_outside_enum_stored :
  reachable (sqlite migrated) sqlite_done
  /\ map (fun q => (get q "dataItemId", get q "status"))
       (findAll QueueItem.init sqlite_done)
     = [(Int 1, Str "done")]
  /\ reachable (sqlite migrated) sqlite_updated
  /\ map (fun q => (get q "dataItemId", get q "status"))
       (findAll QueueItem.init sqlite_updated)
     = [(Int 1, Str "done")]
  /\ ~ In (Str "done") statuses.
Proof.
  split; [apply sqlite_done_reachable|]. split; [vm_compute; reflexivity|].
  split; [apply sqlite_updated_reachable|]. split; [vm_compute; reflexivity|].
  unfold statuses. simpl. intros [H|[H|[H|[]]]]; discriminate H.
Qed.

Lemma build_get m (values : row) now c :
  build m values now !! c
  = if String.eqb c "createdAt" || String.eqb c "updatedAt" then Some (Date now)
    else match values !! c with
         | Some v => Some v
         | None => if String.eqb c "id" then Some Null
                   else declared_default c (rawAttributes m)
         end.
Proof.
  destruct (String.eqb_spec c "createdAt") as [->|H1]; simpl.
  { apply build_timestamps. }
  destruct (String.eqb_spec c "updatedAt") as [->|H2].
  { apply build_timestamps. }
  destruct (String.eqb_spec c "id") as [->|H3].
  - destruct (values !! "id") as [v|] eqn:E.
    + unfold build. rewrite !lookup_insert_ne by discriminate. rewrite E.
      now apply with_defaults_given.
    + now apply build_id.
  - destruct (values !! c) as [v|] eqn:E.
    + now apply build_given.
    + now apply build_missing.
Qed.

Lemma sqlite_QueueItems_status cols :
  cols = on_sqlite create_queue_item.QueueItems
  \/ cols = on_sqlite (sync QueueItem.init) ->
  exists a, attribute_of "status" cols = Some a
            /\ attr_type a = TEXT /\ attr_allowNull a = false
            /\ attr_unique a = false /\ attr_primaryKey a = false
            /\ attr_references a = None /\ attr_autoIncrement a = false
            /\ pinned cols "status" = true.
Proof.
  intros [->| ->]; eexists; (split; [reflexivity|]); repeat split; reflexivity.
Qed.

Lemma QueueItem_validates (values : row) now v w :
  values !! "dataItemId" = Some v -> v <> Null ->
  values !! "status" = Some w -> w <> Null ->
  validate (rawAttributes QueueItem.init) (build QueueItem.init values now)
  = inr tt.
Proof.
  intros Hv Hnv Hw Hnw.
  remember (build QueueItem.init values now) as dataValues eqn:E.
  assert (Hd : dataValues !! "dataItemId" = Some v)
    by (rewrite E; apply build_given; [discriminate..|exact Hv]).
  assert (Hs : dataValues !! "status" = Some w)
    by (rewrite E; apply build_given; [discriminate..|exact Hw]).
  change (rawAttributes QueueItem.init)
    with (("dataItemId", define INTEGER [allowNull false; unique true])
          :: ("status", define (ENUM ["pending"; "leased"; "completed"])
                [allowNull false; defaultValue (Str "pending")])
          :: map (fun ct => (fst ct, plain (snd ct)))
               [ ("leasedById", INTEGER); ("leasedAt", DATE);
                 ("completedById", INTEGER); ("completedAt", DATE) ]).
  cbn [validate]. rewrite Hd, Hs.
  assert (forall c a (x : value), x <> Null -> attr_notEmpty a = false ->
            validate_attribute c a (Some x) = inr tt) as Hok.
  { intros c a x Hx Ha. unfold validate_attribute. rewrite Ha.
    destruct x; try reflexivity. contradiction. }
  rewrite !Hok by (assumption || reflexivity). cbn [bind].
  apply validate_plain. intros c a. apply In_plain.
Qed.

(** On SQLite a [create] that is accepted with status ['pending'] is
    accepted with any string as status. *)
Lemma sqlite_stores_any_status init db (values : row) now s db1 q1 :
  starts_on_sqlite init -> reachable init db ->
  create QueueItem.init db (<["status" := Str "pending"]> values) now
  = inr (db1, q1) ->
  exists db2 q2,
    create QueueItem.init db (<["status" := Str s]> values) now = inr (db2, q2)
    /\ get q2 "status" = Str s
    /\ findAll QueueItem.init db2 = findAll QueueItem.init db ++ [q2].
Proof.
  intros Hs Hr Hcreate.
  destruct (QueueItems_table_sqlite init db Hs Hr) as (tb & Hf & Hok & Hcols).
  destruct (sqlite_QueueItems_status _ Hcols)
    as (a & Ha & Hty & Hnn & Hu & Hpk & Href & Hauto & Hp).
  assert (Hvalid : forall x (vals : row),
             create QueueItem.init db vals now = inr x ->
             validate (rawAttributes QueueItem.init)
               (build QueueItem.init vals now) = inr tt).
  { intros x vals. unfold create.
    change (beforeValidate QueueItem.init) with (@None (row -> result row)).
    cbn [run_hook bind].
    now destruct (validate _ _) as [e|[]]. }
  pose proof (Hvalid _ _ Hcreate) as Hv1.
  apply QueueItem_create_inr in Hcreate.
  apply table_insert_inr in Hcreate as (tb' & Hf' & _ & Hq1 & Hcheck & _).
  rewrite Hf in Hf'. injection Hf' as <-.
  set (assigned := fun x : string =>
         mapValueFieldNames
           (build QueueItem.init (<["status" := Str x]> values) now)
           (fields QueueItem.init)) in *.
  assert (Hassigned : forall x c a',
             In (c, a') (columns tb) ->
             assigned_value c (assigned x)
             = build QueueItem.init (<["status" := Str x]> values) now !! c).
  { intros x c a' Hin. unfold assigned.
    assert (exists a0, attribute_of c (fields QueueItem.init) = Some a0
                       /\ is_virtual a0 = false) as (a0 & Ha0 & Hv0).
    { destruct Hcols as [Hc|Hc]; rewrite Hc in Hin; simpl in Hin;
        repeat (destruct Hin as [[= <- <-]|Hin];
                [eexists; split; reflexivity|]);
        destruct Hin. }
    apply (mapValueFieldNames_value _ _ c a0 Ha0 Hv0). }
  assert (Hsame : forall c a', In (c, a') (columns tb) -> c <> "status" ->
             get (new_row (columns tb) (nextId tb) (assigned s)) c
             = get (new_row (columns tb) (nextId tb) (assigned "pending")) c).
  { intros c a' Hin Hne. rewrite !new_row_get.
    destruct (attribute_of c (columns tb)); [|reflexivity].
    rewrite !(Hassigned _ c a' Hin), !build_get.
    now rewrite !lookup_insert_ne by congruence. }
  assert (Hstatus : get (new_row (columns tb) (nextId tb) (assigned s)) "status"
                    = Str s).
  { rewrite new_row_get, Ha.
    rewrite (Hassigned s "status" a (attribute_of_In _ _ _ Ha)), build_get.
    rewrite lookup_insert_eq. unfold initial_value. now rewrite Hauto. }
  assert (Hknown : check_known (columns tb) (assigned s) = inr tt).
  { apply check_known_mapped. intros c a' v Hin _.
    destruct Hcols as [Hc|Hc]; rewrite Hc; simpl in Hin;
      repeat (destruct Hin as [[= <- <-]|Hin]; [discriminate|]);
      destruct Hin. }
  assert (Hcheck2 : check_row db (rows tb) (columns tb)
                      (new_row (columns tb) (nextId tb) (assigned s)) = inr tt).
  { apply check_row_all. intros c a' Hin.
    destruct (String.eqb_spec c "status") as [->|Hne].
    - rewrite Hstatus.
      assert (a' = a) as ->.
      { destruct Hcols as [Hc|Hc]; rewrite Hc in Hin, Ha; simpl in Hin;
          injection Ha as <-;
          repeat (destruct Hin as [Heq|Hin];
                  [try discriminate Heq; now injection Heq as <-|]);
          destruct Hin. }
      unfold check_column. now rewrite Hty, Hnn, Hu, Hpk, Href.
    - rewrite (Hsame c a' Hin Hne). rewrite Hq1 in Hcheck.
      exact (check_row_In _ _ _ _ c a' Hcheck Hin). }
  assert (Hd : exists v, values !! "dataItemId" = Some v /\ v <> Null).
  { revert Hv1.
    change (rawAttributes QueueItem.init)
      with (("dataItemId", define INTEGER [allowNull false; unique true])
            :: tl (rawAttributes QueueItem.init)).
    cbn [validate]. rewrite build_get.
    rewrite lookup_insert_ne by discriminate.
    change (String.eqb "dataItemId" "createdAt"
            || String.eqb "dataItemId" "updatedAt") with false.
    change (String.eqb "dataItemId" "id") with false.
    destruct (values !! "dataItemId") as [[]|]; try discriminate;
      intros _; eexists; (split; [reflexivity|discriminate]). }
  destruct Hd as (v & Hd & Hnull).
  eexists. eexists. split; [|split].
  - unfold create.
    change (beforeValidate QueueItem.init) with (@None (row -> result row)).
    cbn [run_hook bind].
    rewrite (QueueItem_validates _ now v (Str s)).
    + cbn [bind]. change (tableName QueueItem.init) with "QueueItems".
      apply (table_insert_checked db _ tb _ Hf Hknown Hcheck2).
    + now rewrite lookup_insert_ne by discriminate.
    + exact Hnull.
    + apply lookup_insert_eq.
    + discriminate.
  - exact Hstatus.
  - rewrite (QueueItem_findAll db tb Hf).
    now rewrite (QueueItem_findAll _ _ (find_table_set_eq _ _ _ _ Hf)).
Qed.

(** C4, amended.  The model and the migration declare the status
    [ENUM('pending', 'leased', 'completed')], but validation does not
    test the value: a [create] with a data item and any status that is
    not null passes it.  Whether another value is refused is up to the
    table.  Where the status column has the [ENUM] type, the status of
    every stored queue item is one of the three, a [create] or an
    [INSERT] with any other status fails and an [UPDATE] that assigns one
    changes nothing.  On SQLite, where the column is [TEXT], the status
    is never null, and a [create] that is accepted with ['pending'] is
    accepted, and stored, with any other string. *)
Theorem queue_item_status_by_database :
  (forall (values : row) now v w,
      values !! "dataItemId" = Some v -> v <> Null ->
      values !! "status" = Some w -> w <> Null ->
      validate (rawAttributes QueueItem.init)
        (build QueueItem.init values now) = inr tt)
  /\ (forall init db,
        starts init -> reachable init db ->
        (forall q, In q (findAll QueueItem.init db) ->
                   In (get q "status") statuses)
        /\ (forall values now v,
              values !! "status" = Some v -> ~ In v statuses ->
              exists e, create QueueItem.init db values now = inl e)
        /\ (forall assigned v,
              assigned_value "status" assigned = Some v -> ~ In v statuses ->
              exists e, table_insert db "QueueItems" assigned = inl e)
        /\ (forall k assigned v db',
              assigned_value "status" assigned = Some v -> ~ In v statuses ->
              table_update db "QueueItems" k assigned = inr db' -> db' = db))
  /\ (forall init db,
        starts_on_sqlite init -> reachable init db ->
        (forall q, In q (findAll QueueItem.init db) -> get q "status" <> Null)
        /\ (forall (values : row) now s db1 q1,
              create QueueItem.init db (<["status" := Str "pending"]> values) now
              = inr (db1, q1) ->
              exists db2 q2,
                create QueueItem.init db (<["status" := Str s]> values) now
                = inr (db2, q2)
                /\ get q2 "status" = Str s
                /\ findAll QueueItem.init db2
                   = findAll QueueItem.init db ++ [q2])).
Proof.
  split; [|split].
  - intros values now v w. apply QueueItem_validates.
  - intros init db Hs Hr. exact (status_closed_where_enforced init db Hs Hr).
  - intros init db Hs Hr. split.
    + intros q Hq.
      destruct (QueueItems_table_sqlite init db Hs Hr)
        as (tb & Hf & Hok & Hcols).
      rewrite (QueueItem_findAll db tb Hf) in Hq.
      destruct (sqlite_QueueItems_status _ Hcols)
        as (a & Ha & _ & Hnn & _ & _ & _ & _ & Hp).
      eapply (ok_not_null _ Hok); eauto using attribute_of_In.
    + intros values now s db1 q1.
      now apply (sqlite_stores_any_status init).
Qed.

Lemma status_by_database_witness :
  In (get tested_lease "status") statuses
  /\ (exists e,
        create QueueItem.init with_item
          (<["dataItemId" := Int 1]> {[ "status" := Str "done" ]}) 3 = inl e)
  /\ exists db2 q2,
       create QueueItem.init sqlite_item
         (<["status" := Str "done"]> {[ "dataItemId" := Int 1 ]}) 3
       = inr (db2, q2)
       /\ get q2 "status" = Str "done"
       /\ findAll QueueItem.init db2
          = findAll QueueItem.init sqlite_item ++ [q2].
Proof.
  destruct queue_item_status_by_database as (_ & Henum & Hsqlite).
  split; [|split].
  - destruct (Henum migrated with_lease (or_introl eq_refl)
                with_lease_reachable) as (H & _).
    apply H. apply In_hd. vm_compute. reflexivity.
  - destruct (Henum migrated with_item (or_introl eq_refl)
                with_item_reachable) as (_ & H & _).
    apply (H _ _ (Str "done")); [vm_compute; reflexivity|].
    unfold statuses. simpl. intros [H0|[H0|[H0|[]]]]; discriminate H0.
  - destruct (Hsqlite (sqlite migrated) sqlite_item (or_introl eq_refl)
                sqlite_item_reachable) as (_ & H).
    apply (H {[ "dataItemId" := Int 1 ]} 3 "done"
             (store_after
                (create QueueItem.init sqlite_item
                   (<["status" := Str "pending"]> {[ "dataItemId" := Int 1 ]})
                   3))
             (default ∅
                (created
                   (create QueueItem.init sqlite_item
                      (<["status" := Str "pending"]>
                         {[ "dataItemId" := Int 1 ]}) 3)))).
    apply succeeded_inr. vm_compute. reflexivity.
Defined.
